(** * wrapex: the command registry and its middleware pipeline

    A shallow embedding of the TypeScript sources of the wrapex core
    (define-command.ts, command-registry.ts, middleware-pipeline.ts,
    validation-middleware.ts and the reference [evaluateWhen] of
    rules/when-clause-conventions.md), and the properties the specification
    states about them.

    Conventions of the embedding.
    - A JS object used as a string-keyed map ([Record<string, T>], an object
      spread) is a [gmap string T] of its own properties. The maps of the
      store are plain objects, so reading a key that is not an own property
      finds what every object inherits from [Object.prototype]
      ([PlainObject]); the order of the keys is not modelled.
    - An optional field [f?: T] is an [option T]; JS truthiness tests on such
      fields are written out ([truthy], [str_truthy], [flag_truthy]).
    - An [async] function is a tree of actions ([Act], and [MwAct] for a
      middleware, which may in addition await [next()]); a rejected promise
      is the [Throw] leaf. One [execute] call is sequential, so awaiting is
      calling.
    - The registry store is passed explicitly; an operation that throws
      returns the error together with the store it leaves behind.
    - The callbacks of the configuration and of a definition ([evaluateWhen],
      [isEnabled], [isVisible], [contextProvider]) are synchronous functions
      that return a value or throw. *)

From Stdlib Require Import String Ascii List Bool Arith Lia.
From stdpp Require Import base option list strings gmap fin_maps.

Local Open Scope string_scope.
Local Open Scope nat_scope.
Local Open Scope list_scope.
Set Warnings "-register-all".

(** ** JavaScript values, strings and thrown values *)

Module Js.

(** The JS values the core inspects: it tests them for truthiness, converts
    them with [String(..)] and reads a property of an object. *)
Inductive JsVal : Type :=
| JUndefined
| JNull
| JBool (b : bool)
| JStr (s : string)
| JObj (fields : list (string * JsVal)).

(** [ToBoolean]. *)
Definition truthy (v : JsVal) : bool :=
  match v with
  | JUndefined | JNull => false
  | JBool b => b
  | JStr s => negb (String.eqb s "")
  | JObj _ => true
  end.

(** Truthiness of an optional string field, as in [command.when && ...]. *)
Definition str_truthy (o : option string) : bool :=
  match o with
  | Some s => negb (String.eqb s "")
  | None => false
  end.

(** Truthiness of an optional boolean field. *)
Definition flag_truthy (o : option bool) : bool :=
  match o with
  | Some b => b
  | None => false
  end.

Fixpoint assoc (k : string) (l : list (string * JsVal)) : option JsVal :=
  match l with
  | [] => None
  | (k', v) :: l' => if String.eqb k k' then Some v else assoc k l'
  end.

(** [String(v)]; [None] when the conversion throws a TypeError. On an
    object it looks for a method [toString] and then [valueOf] that gives a
    primitive. Without an own [toString] the object inherits
    [Object.prototype.toString], which gives ['[object Object]']. An own
    [toString] property hides it, and no value of [JsVal] is callable:
    [valueOf], own or inherited, gives no primitive either, and the
    conversion throws. *)
Definition js_String (v : JsVal) : option string :=
  match v with
  | JUndefined => Some "undefined"
  | JNull => Some "null"
  | JBool true => Some "true"
  | JBool false => Some "false"
  | JStr s => Some s
  | JObj fields =>
      match assoc "toString" fields with
      | Some _ => None
      | None => Some "[object Object]"
      end
  end.

(** [v.k] on a value that is neither [undefined] nor [null]: a missing
    property reads as [undefined]. When a key is written twice in an object
    literal the last one stands, hence the reversal. *)
Definition get_prop (v : JsVal) (k : string) : JsVal :=
  match v with
  | JObj fields => default JUndefined (assoc k (rev fields))
  | _ => JUndefined
  end.

(** [o[k]] on a map object: [undefined] when the key is absent. *)
Definition read (o : gmap string JsVal) (k : string) : JsVal :=
  default JUndefined (o !! k).

(** One field-level issue of a failed validation, and the error object that
    carries them ([ZodError extends Error]). *)
Record ZodIssue : Type := { path : list string; issue_message : string }.
Record ZodError : Type := { zod_message : string; issues : list ZodIssue }.

(** What a [throw] or a rejected promise carries. *)
Inductive Thrown : Type :=
| JsError (msg : string)
| JsZodError (e : ZodError)
| JsThrown (v : JsVal).

(** The TypeError of a conversion that finds no primitive (the text is the
    one V8 gives), and the TypeError of a [for .. of] over a value that is
    not iterable. *)
Definition cannot_convert : Thrown :=
  JsError "Cannot convert object to primitive value".
Definition not_iterable (variable : string) : Thrown :=
  JsError (variable +:+ " is not iterable").

(** The one-character string holding a double quote. *)
Definition dq : string := String (ascii_of_nat 34) EmptyString.

(** [hay] has [needle] as a substring. *)
Definition contains (needle hay : string) : Prop :=
  ∃ pre post, hay = pre +:+ needle +:+ post.

End Js.
Export Js.

(** ** Asynchronous functions as action trees *)

Module Async.

(** How a call ends: with a value, or by throwing. *)
Inductive Outcome (R : Type) : Type :=
| Ok (r : R)
| Err (e : Thrown).
Arguments Ok {R} r.
Arguments Err {R} e.

(** [err instanceof Error ? err.message : String(err)], which throws when
    [String(err)] does. *)
Definition error_text (err : Thrown) : Outcome string :=
  match err with
  | JsError msg => Ok msg
  | JsZodError e => Ok (zod_message e)
  | JsThrown v =>
      match js_String v with
      | Some text => Ok text
      | None => Err cannot_convert
      end
  end.

(** The body of an async function that returns an [R]: it performs
    observable effects ([console.log], pushing a line on a test's array)
    and then returns or throws. *)
Inductive Act (R : Type) : Type :=
| Ret (r : R)
| Throw (e : Thrown)
| Log (line : string) (k : Act R).
Arguments Ret {R} r.
Arguments Throw {R} e.
Arguments Log {R} line k.

End Async.
Export Async.

(** ** Plain objects used as maps *)

Module PlainObject.

(** The property names every plain object inherits from [Object.prototype]
    (ECMA-262, 20.1.3 and B.2.2). The value inherited is a function, and for
    ['__proto__'] the prototype object itself: all of them are truthy, none
    is iterable. *)
Definition inherited_names : list string :=
  ["constructor"; "hasOwnProperty"; "isPrototypeOf"; "propertyIsEnumerable";
   "toLocaleString"; "toString"; "valueOf"; "__proto__";
   "__defineGetter__"; "__defineSetter__"; "__lookupGetter__"; "__lookupSetter__"].

Definition inherited (k : string) : bool := existsb (String.eqb k) inherited_names.

(** What [obj[k]] finds on a plain object: an own property, or the value
    every object inherits under the name [k]. *)
Inductive Slot (A : Type) : Type :=
| Own (a : A)
| Inherited (k : string).
Arguments Own {A} a.
Arguments Inherited {A} k.

(** [obj[k]], [None] for [undefined]. *)
Definition obj_get {A : Type} (own : gmap string A) (k : string) : option (Slot A) :=
  match own !! k with
  | Some a => Some (Own a)
  | None => if inherited k then Some (Inherited k) else None
  end.

(** [v.length] of the inherited value [v = Object.prototype[k]]: the number
    of parameters of the function; the prototype object has no [length]. *)
Definition inherited_length (k : string) : option nat :=
  if existsb (String.eqb k) ["toString"; "valueOf"; "toLocaleString"] then Some 0
  else if existsb (String.eqb k) ["__defineGetter__"; "__defineSetter__"] then Some 2
  else if String.eqb k "__proto__" then None
  else if inherited k then Some 1
  else None.

End PlainObject.
Export PlainObject.

(** ** define-command.ts *)

Module DefineCommand.

Record Keybinding : Type := {
  key : string;
  ctrl : option bool;
  shift : option bool;
  alt : option bool;
  meta : option bool
}.

Record CommandResult : Type := {
  success : bool;
  message : option string;
  data : option JsVal
}.

Inductive RiskLevel : Type := low | medium | high.

Record PolicyMetadata : Type := {
  readOnly : option bool;
  idempotent : option bool;
  riskLevel : option RiskLevel;
  meta_requiresConfirmation : option bool
}.

(** [CommandContext]: [store], [source], [invocation] and any extra key. *)
Abbreviation CommandContext := (gmap string JsVal).

(** Observable events of one [execute] call. [EvLog] is an effect of user
    code; the other two are the call records a test spy would keep: that
    the middleware at a position was invoked, that the handler of a command
    was invoked, and the arguments of the call. User code cannot forge
    them: it only logs lines. *)
Inductive Event : Type :=
| EvLog (line : string)
| EvMiddleware (position : nat) (params : JsVal) (context : CommandContext)
| EvHandler (id : string) (params : JsVal) (context : CommandContext).

Fixpoint run_act {R} (p : Act R) (tr : list Event) : Outcome R * list Event :=
  match p with
  | Ret r => (Ok r, tr)
  | Throw e => (Err e, tr)
  | Log line k => run_act k (tr ++ [EvLog line])
  end.

Inductive SafeParseResult : Type :=
| ParseOk (parsed : JsVal)
| ParseFail (error : ZodError).

(** The schema capability: the core only calls [safeParse] and [parse]. *)
Record ZodType : Type := { safeParse : JsVal → SafeParseResult }.

(** [schema.parse(v)]: the parsed value, or the [ZodError] thrown. *)
Definition parse (schema : ZodType) (v : JsVal) : Outcome JsVal :=
  match safeParse schema v with
  | ParseOk parsed => Ok parsed
  | ParseFail error => Err (JsZodError error)
  end.

Record CommandDefinition : Type := {
  cmd_id : string;
  label : string;
  category : string;
  description : option string;
  schema : option ZodType;
  keybinding : option Keybinding;
  when : option string;
  requiresConfirmation : option bool;
  tags : option (list string);
  metadata : option PolicyMetadata;
  isVisible : option (CommandContext → Outcome bool);
  isEnabled : option (CommandContext → Outcome bool);
  inputComponent : option JsVal;
  keywords : option (list string);
  cmd_execute : JsVal → CommandContext → Act CommandResult
}.

(** [def.metadata?.f ?? dflt]. *)
Definition meta_field {A} (f : PolicyMetadata → option A) (def : CommandDefinition) : option A :=
  metadata def ≫= f.

Definition resolveMetadata (def : CommandDefinition) : PolicyMetadata :=
  {| readOnly := Some (default false (meta_field readOnly def));
     idempotent := Some (default false (meta_field idempotent def));
     riskLevel := Some (default medium (meta_field riskLevel def));
     meta_requiresConfirmation :=
       Some (default (default false (requiresConfirmation def))
                     (meta_field meta_requiresConfirmation def)) |}.

(** [defineCommand]: rejects a definition with an empty id, label or
    category and otherwise returns the (frozen) definition it was given.
    The handler is a required field of the type, so its test always
    passes. *)
Definition defineCommand (def : CommandDefinition) : Outcome CommandDefinition :=
  if negb (String.eqb (cmd_id def) "") && negb (String.eqb (label def) "")
     && negb (String.eqb (category def) "")
  then Ok def
  else Err (JsError ("[wrapex] Invalid command definition: id, label, category, and execute are required. Got id=" +:+ dq +:+ cmd_id def +:+ dq)).

End DefineCommand.
Export DefineCommand.

(** ** command-registry.ts *)

Module CommandRegistry.

(** A middleware body: an async function that may also await [next()].
    [MNext onResult onThrow] is [try { r = await next(); .. } catch (e) { .. }];
    a plain [await next()] rethrows, that is [MNext k MThrow]. *)
Inductive MwAct : Type :=
| MRet (r : CommandResult)
| MThrow (e : Thrown)
| MLog (line : string) (k : MwAct)
| MNext (onResult : CommandResult → MwAct) (onThrow : Thrown → MwAct).

(** [return next()]. *)
Definition call_next : MwAct := MNext MRet MThrow.

(** Awaiting another async function inside a middleware. *)
Fixpoint await {A} (p : Act A) (k : A → MwAct) : MwAct :=
  match p with
  | Ret a => k a
  | Throw e => MThrow e
  | Log line p' => MLog line (await p' k)
  end.

Definition CommandMiddleware : Type :=
  CommandDefinition → JsVal → CommandContext → MwAct.

(** The callbacks of the configuration are synchronous: a call returns a
    value or throws. *)
Definition WhenClauseEvaluator : Type := string → Outcome bool.

Record RegistryConfig : Type := {
  middleware : option (list CommandMiddleware);
  evaluateWhen : option WhenClauseEvaluator;
  contextProvider : option (unit → Outcome CommandContext)
}.

Record RegistryState : Type := {
  commands : gmap string CommandDefinition;
  owners : gmap string (list string)
}.

(** The store a new registry starts with. *)
Definition initialState : RegistryState := {| commands := ∅; owners := ∅ |}.

(** [for (const id of ids) delete cleaned[id]]. *)
Definition delete_ids (ids : list string) (cmds : gmap string CommandDefinition)
  : gmap string CommandDefinition :=
  foldl (λ acc id, delete id acc) cmds ids.

(** [cleaned[cmd.id] = cmd], an assignment. Under a name that is an own
    property, or that nothing is inherited under, or that is inherited as a
    method, it writes the own property. Under ['__proto__'], when that is
    no own property, it runs the setter every object inherits: no property
    is added and [cmd] becomes the prototype of [cleaned]. The store then
    reads through a definition; the model does not follow it there:
    [None]. *)
Definition assign (cmd : CommandDefinition) (cmds : gmap string CommandDefinition)
  : option (gmap string CommandDefinition) :=
  if String.eqb (cmd_id cmd) "__proto__"
  then match cmds !! "__proto__" with
       | Some _ => Some (<["__proto__" := cmd]> cmds)
       | None => None
       end
  else Some (<[cmd_id cmd := cmd]> cmds).

(** [for (const cmd of cmds) cleaned[cmd.id] = cmd]. *)
Fixpoint assign_all (defs : list CommandDefinition) (cmds : gmap string CommandDefinition)
  : option (gmap string CommandDefinition) :=
  match defs with
  | [] => Some cmds
  | cmd :: rest =>
      match assign cmd cmds with
      | Some cmds' => assign_all rest cmds'
      | None => None
      end
  end.

Definition already_registered (id : string) : Thrown :=
  JsError ("[wrapex] Command " +:+ dq +:+ id +:+ dq +:+ " is already registered.").

(** [get]: [getCommands()[id]], a property read on a plain object. *)
Definition get (st : RegistryState) (id : string) : option (Slot CommandDefinition) :=
  obj_get (commands st) id.

(** [register]. The test [commands[command.id]] is a property read: a
    definition and an inherited value are both truthy. The new object is a
    literal with a computed key, which adds an own property under any
    name. *)
Definition register (command : CommandDefinition) (st : RegistryState)
  : Outcome unit * RegistryState :=
  match obj_get (commands st) (cmd_id command) with
  | Some _ => (Err (already_registered (cmd_id command)), st)
  | None =>
      (Ok tt, {| commands := <[cmd_id command := command]> (commands st);
                 owners := owners st |})
  end.

(** The loop of [registerAll] over the copy [newCommands]. The assignment
    is only reached under a name the read found nothing under, so it adds
    an own property. *)
Fixpoint registerAll_loop (cmds : list CommandDefinition)
    (newCommands : gmap string CommandDefinition)
  : Outcome (gmap string CommandDefinition) :=
  match cmds with
  | [] => Ok newCommands
  | cmd :: rest =>
      match obj_get newCommands (cmd_id cmd) with
      | Some _ => Err (already_registered (cmd_id cmd))
      | None => registerAll_loop rest (<[cmd_id cmd := cmd]> newCommands)
      end
  end.

Definition registerAll (cmds : list CommandDefinition) (st : RegistryState)
  : Outcome unit * RegistryState :=
  match registerAll_loop cmds (commands st) with
  | Ok newCommands => (Ok tt, {| commands := newCommands; owners := owners st |})
  | Err e => (Err e, st)
  end.

(** [unregister]: past the read, the rest pattern copies the own
    properties but the one named [id]. *)
Definition unregister (id : string) (st : RegistryState) : bool * RegistryState :=
  match obj_get (commands st) id with
  | None => (false, st)
  | Some _ => (true, {| commands := delete id (commands st); owners := owners st |})
  end.

(** [registerForOwner]. [owners[owner] ?? []] is a property read: under a
    name every object inherits it finds a value that is not nullish and not
    iterable, and the first loop throws before the store is written. The
    result is [None] where the second loop replaces the prototype of the
    copy (see [assign]). *)
Definition registerForOwner (owner : string) (cmds : list CommandDefinition)
    (st : RegistryState) : option (Outcome unit * RegistryState) :=
  match obj_get (owners st) owner with
  | Some (Inherited _) => Some (Err (not_iterable "oldIds"), st)
  | found =>
      let oldIds := match found with Some (Own ids) => ids | _ => [] end in
      match assign_all cmds (delete_ids oldIds (commands st)) with
      | Some cleaned =>
          Some (Ok tt, {| commands := cleaned;
                          owners := <[owner := map cmd_id cmds]> (owners st) |})
      | None => None
      end
  end.

(** [unregisterForOwner]. On an inherited value, [ids.length] is the
    number of parameters of the method, and [undefined] on the prototype
    object: the call returns at once when it is [0], and otherwise the loop
    throws, before the store is written. *)
Definition unregisterForOwner (owner : string) (st : RegistryState)
  : Outcome unit * RegistryState :=
  match obj_get (owners st) owner with
  | None => (Ok tt, st)
  | Some (Own ids) =>
      if Nat.eqb (length ids) 0 then (Ok tt, st)
      else (Ok tt, {| commands := delete_ids ids (commands st);
                      owners := delete owner (owners st) |})
  | Some (Inherited k) =>
      match inherited_length k with
      | Some 0 => (Ok tt, st)
      | _ => (Err (not_iterable "ids"), st)
      end
  end.

Definition fail (msg : string) : CommandResult :=
  {| success := false; message := Some msg; data := None |}.

(** The state of one [runMiddleware] call: the captured variable [index]
    that every call of [next] shares, and the events observed so far. *)
Record PipeState : Type := { index : nat; trace : list Event }.

Definition Step : Type := PipeState → option (Outcome CommandResult * PipeState).

(** Running a middleware body, given what awaiting [next()] does. *)
Fixpoint run_mw (next : Step) (p : MwAct) (st : PipeState)
  : option (Outcome CommandResult * PipeState) :=
  match p with
  | MRet r => Some (Ok r, st)
  | MThrow e => Some (Err e, st)
  | MLog line k => run_mw next k {| index := index st; trace := trace st ++ [EvLog line] |}
  | MNext onResult onThrow =>
      match next st with
      | None => None
      | Some (Ok r, st') => run_mw next (onResult r) st'
      | Some (Err e, st') => run_mw next (onThrow e) st'
      end
  end.

Section Registry.
Variable config : RegistryConfig.

(** [config.middleware ?? []], [config.evaluateWhen ?? (() => true)],
    [config.contextProvider ?? (() => ({}))]. *)
Definition the_middleware : list CommandMiddleware := default [] (middleware config).
Definition the_evaluateWhen : WhenClauseEvaluator :=
  default (λ _, Ok true) (evaluateWhen config).

(** The call [contextProvider()]. *)
Definition call_contextProvider : Outcome CommandContext :=
  default (λ _, Ok ∅) (contextProvider config) tt.

(** The object [contextProvider()] returned. When the call throws,
    [buildContext] throws with it and builds no object; the callers below
    test [call_contextProvider] first. *)
Definition the_contextProvider : unit → CommandContext :=
  λ _, match call_contextProvider with
       | Ok provided => provided
       | Err _ => ∅
       end.

Definition is_unknown (v : JsVal) : bool :=
  match v with
  | JStr s => String.eqb s "unknown"
  | _ => false
  end.

(** The object literal of [buildContext]: later spreads win. *)
Definition merge_context (overrides : option CommandContext) : CommandContext :=
  default ∅ overrides ∪ the_contextProvider tt
    ∪ {[ "store" := JUndefined; "source" := JStr "unknown" ]}.

(** The two-way sync of [source] and [invocation.surface]. *)
Definition sync_source (merged : CommandContext) : CommandContext :=
  if truthy (read merged "invocation") && is_unknown (read merged "source")
  then <["source" := get_prop (read merged "invocation") "surface"]> merged
  else if negb (is_unknown (read merged "source")) && negb (truthy (read merged "invocation"))
  then <["invocation" := JObj [("surface", read merged "source")]]> merged
  else merged.

(** [buildContext]: the object it returns when the provider returns. *)
Definition buildContext (overrides : option CommandContext) : CommandContext :=
  sync_source (merge_context overrides).

(** The call [buildContext(overrides)]. *)
Definition call_buildContext (overrides : option CommandContext) : Outcome CommandContext :=
  match call_contextProvider with
  | Ok _ => Ok (buildContext overrides)
  | Err e => Err e
  end.

(** The closure [next] of [runMiddleware]. It is recursive through the
    middleware it calls, so the embedding bounds the nesting of calls by
    [fuel]; [runMiddleware_total] shows the bound below is never hit. *)
Fixpoint next (fuel : nat) (command : CommandDefinition) (params : JsVal)
    (context : CommandContext) (st : PipeState)
  : option (Outcome CommandResult * PipeState) :=
  match fuel with
  | 0 => None
  | S fuel' =>
      match the_middleware !! index st with
      | Some mw =>
          run_mw (next fuel' command params context)
                 (mw command params context)
                 {| index := S (index st);
                    trace := trace st ++ [EvMiddleware (index st) params context] |}
      | None =>
          let '(o, tr) :=
            run_act (cmd_execute command params context)
                    (trace st ++ [EvHandler (cmd_id command) params context]) in
          Some (o, {| index := index st; trace := tr |})
      end
  end.

Definition runMiddleware (command : CommandDefinition) (params : JsVal)
    (context : CommandContext) : option (Outcome CommandResult * list Event) :=
  match next (S (length the_middleware)) command params context
             {| index := 0; trace := [] |} with
  | Some (o, st) => Some (o, trace st)
  | None => None
  end.

(** [params ?? {}]. *)
Definition params_or_empty (params : JsVal) : JsVal :=
  match params with
  | JUndefined | JNull => JObj []
  | _ => params
  end.

(** The context [execute] hands to the pipeline:
    [buildContext({ source: 'unknown', ...contextOverrides })]. *)
Definition execute_context (contextOverrides : option CommandContext) : CommandContext :=
  buildContext (Some (default ∅ contextOverrides ∪ {[ "source" := JStr "unknown" ]})).

Definition unknown_command (id : string) : CommandResult :=
  fail ("Unknown command: " +:+ dq +:+ id +:+ dq).
Definition not_available (id w : string) : CommandResult :=
  fail ("Command " +:+ dq +:+ id +:+ dq
        +:+ " is not available in the current context (when: " +:+ dq +:+ w +:+ dq +:+ ").").
Definition disabled (id : string) : CommandResult :=
  fail ("Command " +:+ dq +:+ id +:+ dq +:+ " is currently disabled.").
Definition failed (id : string) (text : string) : CommandResult :=
  fail ("Command " +:+ dq +:+ id +:+ dq +:+ " failed: " +:+ text).

(** [command.when && !evaluateWhen(command.when)]. *)
Definition when_rejected (command : CommandDefinition) : Outcome bool :=
  if str_truthy (when command)
  then match the_evaluateWhen (default "" (when command)) with
       | Ok passes => Ok (negb passes)
       | Err e => Err e
       end
  else Ok false.

(** [command.isEnabled && !command.isEnabled(context)]. *)
Definition enabled_rejected (command : CommandDefinition) (context : CommandContext)
  : Outcome bool :=
  match isEnabled command with
  | Some p =>
      match p context with
      | Ok enabled => Ok (negb enabled)
      | Err e => Err e
      end
  | None => Ok false
  end.

(** The TypeError of the call [command.execute(..)] on a value that has no
    such method (the text is the one V8 gives). *)
Definition no_handler : string := "command.execute is not a function".

(** [execute]: what the returned promise settles to, [Ok] when it is
    fulfilled and [Err] when it is rejected, and the events observed
    during the call. The two guards and [buildContext] run before the
    [try]: what they throw rejects the promise. In the handler of the
    [catch], [String(err)] may throw as well.

    Under a name every object inherits, [command] is a method or the
    prototype object: it has no [when], no [isEnabled] and no [execute],
    so with no middleware the call [command.execute(..)] throws inside the
    [try]. With middlewares, the first one is called on a value that is no
    definition; the model has no such call: [None]. *)
Definition execute (st : RegistryState) (id : string) (params : JsVal)
    (contextOverrides : option CommandContext)
  : option (Outcome CommandResult * list Event) :=
  match get st id with
  | None => Some (Ok (unknown_command id), [])
  | Some (Inherited _) =>
      match call_contextProvider with
      | Err e => Some (Err e, [])
      | Ok _ =>
          match the_middleware with
          | [] => Some (Ok (failed id no_handler), [])
          | _ :: _ => None
          end
      end
  | Some (Own command) =>
      match when_rejected command with
      | Err e => Some (Err e, [])
      | Ok true => Some (Ok (not_available id (default "" (when command))), [])
      | Ok false =>
          match call_contextProvider with
          | Err e => Some (Err e, [])
          | Ok _ =>
              let context := execute_context contextOverrides in
              match enabled_rejected command context with
              | Err e => Some (Err e, [])
              | Ok true => Some (Ok (disabled id), [])
              | Ok false =>
                  match runMiddleware command (params_or_empty params) context with
                  | Some (Ok r, tr) => Some (Ok r, tr)
                  | Some (Err err, tr) =>
                      match error_text err with
                      | Ok text => Some (Ok (failed id text), tr)
                      | Err e => Some (Err e, tr)
                      end
                  | None => None
                  end
              end
          end
      end
  end.

(** [isAvailable]: an inherited value is truthy and has no [when]. *)
Definition isAvailable (st : RegistryState) (id : string) : Outcome bool :=
  match get st id with
  | None => Ok false
  | Some (Inherited _) => Ok true
  | Some (Own cmd) =>
      if negb (str_truthy (when cmd)) then Ok true
      else the_evaluateWhen (default "" (when cmd))
  end.

End Registry.

End CommandRegistry.
Export CommandRegistry.

(** ** middleware-pipeline.ts *)

Module MiddlewarePipeline.

(** [validationMiddleware]: [schema.parse(params)] may throw; its value is
    dropped. *)
Definition validationMiddleware : CommandMiddleware :=
  λ command params context,
    match schema command with
    | Some s =>
        match parse s params with
        | Ok _ => call_next
        | Err e => MThrow e
        end
    | None => call_next
    end.

(** [errorBoundaryMiddleware]; the [console.error] line is logged. The
    message is computed first: when [String(err)] throws, nothing is
    logged and the middleware throws. *)
Definition errorBoundaryMiddleware : CommandMiddleware :=
  λ command params context,
    MNext MRet
          (λ err,
             match error_text err with
             | Ok message =>
                 MLog ("[wrapex] Error in " +:+ dq +:+ cmd_id command +:+ dq +:+ ":")
                      (MRet (fail message))
             | Err e => MThrow e
             end).

Definition cancelled : CommandResult := fail "Cancelled by user.".

(** [createConfirmationMiddleware(confirmFn)]. *)
Definition createConfirmationMiddleware
    (confirmFn : CommandDefinition → Act bool) : CommandMiddleware :=
  λ command params context,
    if flag_truthy (requiresConfirmation command)
    then await (confirmFn command)
               (λ confirmed, if confirmed then call_next else MRet cancelled)
    else call_next.

End MiddlewarePipeline.
Export MiddlewarePipeline.

(** ** validation-middleware.ts *)

Module ValidationMiddleware.

Record ValidationConfig : Type := { catchErrors : option bool }.

(** [`${i.path.join('.')}: ${i.message}`] joined with ["; "]. *)
Definition render_issues (l : list ZodIssue) : string :=
  String.concat "; "
    (map (λ i, String.concat "." (path i) +:+ ": " +:+ issue_message i) l).

Definition validation_failed (id : string) (l : list ZodIssue) : CommandResult :=
  fail ("Validation failed for " +:+ dq +:+ id +:+ dq +:+ ": " +:+ render_issues l).

Definition createValidationMiddleware (config : ValidationConfig) : CommandMiddleware :=
  λ command params context,
    match schema command with
    | None => call_next
    | Some s =>
        if default false (catchErrors config)
        then match safeParse s params with
             | ParseFail error => MRet (validation_failed (cmd_id command) (issues error))
             | ParseOk _ => call_next
             end
        else match parse s params with
             | Err e => MThrow e
             | Ok _ => call_next
             end
    end.

End ValidationMiddleware.
Export ValidationMiddleware.

(** ** rules/when-clause-conventions.md: the reference evaluator *)

(** What the evaluator returns: a boolean, or, where its type says
    [boolean] as well, the value every object inherits under the name of a
    bare key that the context record lacks (a method, or the prototype
    object). *)
Inductive WhenValue : Type :=
| WBool (b : bool)
| WInherited (k : string).
Coercion WBool : bool >-> WhenValue.
(** [Some b] is read at the type expected of it, so that a boolean stands
    for the value that is this boolean. *)
Arguments Some {A} & a.

(** Whether the value is truthy: an inherited value is. *)
Definition passes (v : WhenValue) : bool :=
  match v with
  | WBool b => b
  | WInherited _ => true
  end.

Module WhenClause.

(** Strings are sequences of code units below 256. *)

(** [s.startsWith(p)]. *)
Fixpoint startsWith (s p : string) : bool :=
  match p with
  | EmptyString => true
  | String c p' =>
      match s with
      | EmptyString => false
      | String d s' => Ascii.eqb c d && startsWith s' p'
      end
  end.

(** [s.includes(p)]. *)
Fixpoint includes (s p : string) : bool :=
  startsWith s p ||
  match s with
  | EmptyString => false
  | String _ s' => includes s' p
  end.

(** [s.slice(1)]. *)
Definition slice1 (s : string) : string :=
  match s with
  | EmptyString => EmptyString
  | String _ s' => s'
  end.

(** [s.split(sep)] for a non-empty [sep], scanning left to right: [skip]
    counts the code units of a separator still to be passed over and [acc]
    is the piece being read. *)
Fixpoint split_from (sep : string) (skip : nat) (acc : string) (s : string) : list string :=
  match s with
  | EmptyString => [acc]
  | String c s' =>
      match skip with
      | S k => split_from sep k acc s'
      | 0 =>
          if startsWith s sep
          then acc :: split_from sep (String.length sep - 1) EmptyString s'
          else split_from sep 0 (acc +:+ String c EmptyString) s'
      end
  end.

Definition split (s sep : string) : list string := split_from sep 0 EmptyString s.

(** White space and line terminators among the code units below 256. *)
Definition is_space (c : ascii) : bool :=
  let n := nat_of_ascii c in
  (Nat.leb 9 n && Nat.leb n 13) || Nat.eqb n 32 || Nat.eqb n 160.

Fixpoint trimStart (s : string) : string :=
  match s with
  | EmptyString => EmptyString
  | String c s' => if is_space c then trimStart s' else s
  end.

Fixpoint trimEnd (s : string) : string :=
  match s with
  | EmptyString => EmptyString
  | String c s' =>
      match trimEnd s' with
      | EmptyString => if is_space c then EmptyString else String c EmptyString
      | t => String c t
      end
  end.

(** [s.trim()]. *)
Definition trim (s : string) : string := trimEnd (trimStart s).

(** The code units of a context key in the sense of the conventions:
    anything but white space and the operator characters. *)
Definition key_char (c : ascii) : bool :=
  negb (is_space c) && negb (Ascii.eqb c "!") && negb (Ascii.eqb c "&")
  && negb (Ascii.eqb c "|").

Fixpoint is_key (s : string) : bool :=
  match s with
  | EmptyString => true
  | String c s' => key_char c && is_key s'
  end.

Section Evaluator.
(** The [context] record the evaluator builds from the application
    state. *)
Variable context : gmap string bool.

(** [context[k] ?? false]. The record is an object literal: under a key
    it lacks, the read finds what every object inherits, which is not
    nullish. *)
Definition lookup_flag (k : string) : WhenValue :=
  match context !! k with
  | Some flag => WBool flag
  | None => if inherited k then WInherited k else WBool false
  end.

(** The body of [evaluateWhen], with the recursive calls bounded by
    [fuel]; the negation test comes first, as in the source. A missing
    key is [undefined], whose negation is [true], so the [?? false] after
    the negation never applies. [every] and [some] test the truthiness of
    what the callback returns and return a boolean. *)
Fixpoint evaluateWhen_fuel (fuel : nat) (clause : string) : option WhenValue :=
  match fuel with
  | 0 => None
  | S fuel' =>
      if startsWith clause "!"
      then Some (WBool (negb (passes (lookup_flag (slice1 clause)))))
      else if includes clause "&&"
      then foldr (λ part rest,
                    match evaluateWhen_fuel fuel' (trim part) with
                    | Some v => if passes v then rest else Some (WBool false)
                    | None => None
                    end) (Some (WBool true)) (split clause "&&")
      else if includes clause "||"
      then foldr (λ part rest,
                    match evaluateWhen_fuel fuel' (trim part) with
                    | Some v => if passes v then Some (WBool true) else rest
                    | None => None
                    end) (Some (WBool false)) (split clause "||")
      else Some (lookup_flag clause)
  end.

(** Every recursive call is on a piece of a clause that holds a two-unit
    separator, so the length of the clause bounds the depth
    ([evaluateWhen_total]). *)
Definition evaluateWhen (clause : string) : option WhenValue :=
  evaluateWhen_fuel (S (String.length clause)) clause.

End Evaluator.

End WhenClause.

(** ** What a run shows *)

Module Observations.

(** What a call record says about the arguments of the call. *)
Definition called_with (params : JsVal) (context : CommandContext) (ev : Event) : Prop :=
  match ev with
  | EvLog _ => True
  | EvMiddleware _ p c => p = params ∧ c = context
  | EvHandler _ p c => p = params ∧ c = context
  end.

(** The lines user code logged, in order. *)
Definition logs (tr : list Event) : list string :=
  omap (λ ev, match ev with EvLog line => Some line | _ => None end) tr.

(** The positions of the middlewares invoked, in the order of the calls. *)
Definition positions (tr : list Event) : list nat :=
  omap (λ ev, match ev with EvMiddleware i _ _ => Some i | _ => None end) tr.

(** How many times the handler was invoked. *)
Definition is_handler_call (ev : Event) : bool :=
  match ev with
  | EvHandler _ _ _ => true
  | _ => false
  end.

Definition handler_calls (tr : list Event) : nat :=
  length (List.filter is_handler_call tr).

(** What holds of the shared index and the events all along a run over an
    array of [n] middlewares: the middlewares invoked so far are those at
    positions [0 .. index - 1], in this order, and the handler has only been
    invoked if the index has gone through the whole array. *)
Definition in_array_order (n : nat) (st : PipeState) : Prop :=
  positions (trace st) = seq 0 (index st)
  ∧ index st ≤ n
  ∧ (0 < handler_calls (trace st) → index st = n).

(** The lines an async function logs and how it ends. *)
Fixpoint act_logs {R} (p : Act R) : list string :=
  match p with
  | Ret _ | Throw _ => []
  | Log line k => line :: act_logs k
  end.

Fixpoint act_outcome {R} (p : Act R) : Outcome R :=
  match p with
  | Ret r => Ok r
  | Throw e => Err e
  | Log _ k => act_outcome k
  end.

(** A middleware body that returns or throws without calling [next()]. *)
Inductive no_next : MwAct → Prop :=
| no_next_ret r : no_next (MRet r)
| no_next_throw e : no_next (MThrow e)
| no_next_log line k : no_next k → no_next (MLog line k).

(** A middleware body that calls [next()] at most once. *)
Inductive at_most_once : MwAct → Prop :=
| once_ret r : at_most_once (MRet r)
| once_throw e : at_most_once (MThrow e)
| once_log line k : at_most_once k → at_most_once (MLog line k)
| once_next onResult onThrow :
    (∀ r, no_next (onResult r)) → (∀ e, no_next (onThrow e)) →
    at_most_once (MNext onResult onThrow).

(** Whether no id of [defs] is a name every object inherits. *)
Definition plain_ids (defs : list CommandDefinition) : bool :=
  forallb (λ d, negb (inherited (cmd_id d))) defs.

(** The own properties after [for (const cmd of cmds) cleaned[cmd.id] = cmd]
    when every assignment wrote one. *)
Definition insert_all (defs : list CommandDefinition) (cmds : gmap string CommandDefinition)
  : gmap string CommandDefinition :=
  foldl (λ acc cmd, <[cmd_id cmd := cmd]> acc) cmds defs.

(** The store [registerForOwner] writes when [owners[owner]] is the own
    list or [undefined] and every assignment wrote an own property. *)
Definition replaced (owner : string) (cmds : list CommandDefinition) (st : RegistryState)
  : RegistryState :=
  {| commands := insert_all cmds (delete_ids (default [] (owners st !! owner)) (commands st));
     owners := <[owner := map cmd_id cmds]> (owners st) |}.

(** The store [unregisterForOwner] leaves when [owners[owner]] is the own
    list or [undefined]. *)
Definition released (owner : string) (st : RegistryState) : RegistryState :=
  let ids := default [] (owners st !! owner) in
  if Nat.eqb (length ids) 0 then st
  else {| commands := delete_ids ids (commands st);
          owners := delete owner (owners st) |}.

End Observations.
Export Observations.

(** ** Definitions and registries used as concrete instances *)

Module Fixtures.

(** [makeCommand] of the test suite: a definition with only the required
    fields. *)
Definition makeCommand (id : string)
    (handler : JsVal → CommandContext → Act CommandResult) : CommandDefinition :=
  {| cmd_id := id; label := id; category := "Test"; description := None;
     schema := None; keybinding := None; when := None;
     requiresConfirmation := None; tags := None; metadata := None;
     isVisible := None; isEnabled := None; inputComponent := None;
     keywords := None; cmd_execute := handler |}.

(** [makeCommand(id, { when })]. *)
Definition gated (id w : string)
    (handler : JsVal → CommandContext → Act CommandResult) : CommandDefinition :=
  {| cmd_id := id; label := id; category := "Test"; description := None;
     schema := None; keybinding := None; when := Some w;
     requiresConfirmation := None; tags := None; metadata := None;
     isVisible := None; isEnabled := None; inputComponent := None;
     keywords := None; cmd_execute := handler |}.

(** [makeCommand(id, { isEnabled: () => false })]. *)
Definition switchedOff (id : string)
    (handler : JsVal → CommandContext → Act CommandResult) : CommandDefinition :=
  {| cmd_id := id; label := id; category := "Test"; description := None;
     schema := None; keybinding := None; when := None;
     requiresConfirmation := None; tags := None; metadata := None;
     isVisible := None; isEnabled := Some (λ _, Ok false); inputComponent := None;
     keywords := None; cmd_execute := handler |}.

Definition ok : CommandResult := {| success := true; message := None; data := None |}.

(** [async () => ({ success: true })]. *)
Definition succeed : JsVal → CommandContext → Act CommandResult :=
  λ _ _, Ret ok.

(** [async () => { throw new Error('boom') }]. *)
Definition boom : JsVal → CommandContext → Act CommandResult :=
  λ _ _, Throw (JsError "boom").

(** [async () => { throw { toString: 'x' } }]: the value thrown is no
    [Error], and its [toString] is not a function. *)
Definition unprintable : JsVal → CommandContext → Act CommandResult :=
  λ _ _, Throw (JsThrown (JObj [("toString", JStr "x")])).


(** [async (params) => ({ success: true, data: params })]. *)
Definition echo : JsVal → CommandContext → Act CommandResult :=
  λ params _, Ret {| success := true; message := None; data := Some params |}.

(** [createRegistry()] and [createRegistry({ middleware })]. *)
Definition noConfig : RegistryConfig :=
  {| middleware := None; evaluateWhen := None; contextProvider := None |}.
Definition withMiddleware (mws : list CommandMiddleware) : RegistryConfig :=
  {| middleware := Some mws; evaluateWhen := None; contextProvider := None |}.

(** [createRegistry({ evaluateWhen: (clause) => clause === 'ok' })]. *)
Definition onlyOk : RegistryConfig :=
  {| middleware := None;
     evaluateWhen := Some (λ clause, Ok (String.eqb clause "ok"));
     contextProvider := None |}.

(** [createRegistry({ contextProvider: () => ctx })]. *)
Definition withProvider (ctx : CommandContext) : RegistryConfig :=
  {| middleware := None; evaluateWhen := None; contextProvider := Some (λ _, Ok ctx) |}.

(** The middleware of the ordering test:
    [order.push(name + '-before'); const result = await next();
     order.push(name + '-after'); return result]. *)
Definition wrapping (name : string) : CommandMiddleware :=
  λ _ _ _, MLog (name +:+ "-before")
             (MNext (λ result, MLog (name +:+ "-after") (MRet result)) MThrow).

(** [async () => ({ success: false, message: 'blocked' })]. *)
Definition blocker : CommandMiddleware := λ _ _ _, MRet (fail "blocked").

(** [async (c, p, ctx, next) => { await next(); return next(); }]. *)
Definition twice : CommandMiddleware := λ _ _ _, MNext (λ _, call_next) MThrow.

(** [async () => { order.push('handler'); return { success: true } }]. *)
Definition logging_handler : JsVal → CommandContext → Act CommandResult :=
  λ _ _, Log "handler" (Ret ok).

(** A definition with [metadata: { requiresConfirmation: flag }] and, when
    [shorthand] is given, the top-level [requiresConfirmation] as well. *)
Definition confirmable (id : string) (shorthand flag : option bool)
    (handler : JsVal → CommandContext → Act CommandResult) : CommandDefinition :=
  {| cmd_id := id; label := id; category := "Test"; description := None;
     schema := None; keybinding := None; when := None;
     requiresConfirmation := shorthand; tags := None;
     metadata := Some {| readOnly := None; idempotent := None; riskLevel := None;
                         meta_requiresConfirmation := flag |};
     isVisible := None; isEnabled := None; inputComponent := None;
     keywords := None; cmd_execute := handler |}.

(** The confirm predicates [async () => false] and [async () => true]. *)
Definition decline : CommandDefinition → Act bool := λ _, Ret false.
Definition accept : CommandDefinition → Act bool := λ _, Ret true.

(** A schema in the manner of [z.object({ name: z.string().default('anon') })]:
    a missing name is filled in, a name that is not a string is an issue at
    path [name], anything but an object is an issue at the root. *)
Definition nameWithDefault : ZodType :=
  {| safeParse := λ v,
       match v with
       | JObj fields =>
           match get_prop v "name" with
           | JUndefined => ParseOk (JObj [("name", JStr "anon")])
           | JStr s => ParseOk (JObj [("name", JStr s)])
           | _ => ParseFail {| zod_message := "Expected string";
                               issues := [{| path := ["name"];
                                             issue_message := "Expected string" |}] |}
           end
       | _ => ParseFail {| zod_message := "Expected object";
                           issues := [{| path := [];
                                         issue_message := "Expected object" |}] |}
       end |}.

(** [makeCommand(id, { schema })]. *)
Definition withSchema (id : string) (s : ZodType)
    (handler : JsVal → CommandContext → Act CommandResult) : CommandDefinition :=
  {| cmd_id := id; label := id; category := "Test"; description := None;
     schema := Some s; keybinding := None; when := None;
     requiresConfirmation := None; tags := None; metadata := None;
     isVisible := None; isEnabled := None; inputComponent := None;
     keywords := None; cmd_execute := handler |}.

(** The store after registering [defs] in a new registry. *)
Definition registered (defs : list CommandDefinition) : RegistryState :=
  (registerAll defs initialState).2.

End Fixtures.
Export Fixtures.

(** ** command-registry.ts: the size getter *)

Module RegistrySize.

(** [get size() { return Object.keys(getCommands()).length }]. *)
Definition registry_size (st : RegistryState) : nat := size (commands st).

End RegistrySize.
Export RegistrySize.

(** ** middleware-pipeline.ts: the logging middleware and the default stack *)

Module DefaultPipeline.

Section Clock.
(** What [(performance.now() - start).toFixed(1)] renders during the call:
    the clock decides it. *)
Variable duration : string.

(** [loggingMiddleware]; of each [console.log] the first argument is the
    line logged. The second line is written after [await next()] has
    returned, so not when it throws. *)
Definition loggingMiddleware : CommandMiddleware :=
  λ command params context,
    MLog ("[wrapex] Executing: " +:+ cmd_id command)
      (MNext (λ result,
                MLog ("[wrapex] Completed: " +:+ cmd_id command
                      +:+ " (" +:+ duration +:+ "ms)")
                     (MRet result))
             MThrow).

(** [createDefaultMiddleware()]. *)
Definition createDefaultMiddleware : list CommandMiddleware :=
  [errorBoundaryMiddleware; loggingMiddleware; validationMiddleware].

End Clock.

End DefaultPipeline.
Export DefaultPipeline.

(** ** A chain seen from one position further out *)

Module Outer.

(** The call record of a middleware when one more middleware is configured
    in front of the array. *)
Definition shift_event (ev : Event) : Event :=
  match ev with
  | EvMiddleware i p c => EvMiddleware (S i) p c
  | other => other
  end.

(** The state of a pipeline over the longer array that corresponds to [st]
    over the shorter one, [pre] being the events before the chain was
    entered. *)
Definition outer (pre : list Event) (st : PipeState) : PipeState :=
  {| index := S (index st); trace := pre ++ map shift_event (trace st) |}.

Definition outer_result (pre : list Event) (r : option (Outcome CommandResult * PipeState))
  : option (Outcome CommandResult * PipeState) :=
  match r with
  | Some (o, st') => Some (o, outer pre st')
  | None => None
  end.

End Outer.
Export Outer.

(** ** adapters/ai-tools-adapter.ts and adapters/mcp-adapter.ts *)

Module Adapters.

(** [s.replace(/x/g, y)] for one code unit [x] and one code unit [y]. *)
Fixpoint replace_all (x y : ascii) (s : string) : string :=
  match s with
  | EmptyString => EmptyString
  | String c s' => String (if Ascii.eqb c x then y else c) (replace_all x y s')
  end.

(** Whether the code unit [x] does not occur in [s]. *)
Fixpoint lacks (x : ascii) (s : string) : bool :=
  match s with
  | EmptyString => true
  | String c s' => negb (Ascii.eqb c x) && lacks x s'
  end.

(** [command.id.replace(/\./g, '_')]. *)
Definition toToolName (id : string) : string := replace_all "." "_" id.

(** [command.tags?.includes(t)]; [undefined] is falsy. *)
Definition tags_include (command : CommandDefinition) (t : string) : bool :=
  match tags command with
  | Some l => existsb (String.eqb t) l
  | None => false
  end.

(** [filterTags && !filterTags.some((t) => command.tags?.includes(t))]: the
    test under which the loops skip a command. An array is truthy, also
    when it is empty. *)
Definition skipped_by_tags (filterTags : option (list string))
    (command : CommandDefinition) : bool :=
  match filterTags with
  | Some ts => negb (existsb (tags_include command) ts)
  | None => false
  end.

(** [{ source: s, invocation: { surface: s }, store: undefined }], the
    overrides the adapters execute with. *)
Definition surface_overrides (surface : string) : CommandContext :=
  {[ "source" := JStr surface;
     "invocation" := JObj [("surface", JStr surface)];
     "store" := JUndefined ]}.

Record AnthropicTool : Type := {
  tool_name : string;
  tool_description : string;
  input_schema : JsVal
}.

(** [toAnthropicTools], given the array [registry.listAvailable()]
    returned. *)
Definition toAnthropicTools (available : list CommandDefinition)
    (toJsonSchema : ZodType → JsVal) (filterTags : option (list string))
  : list AnthropicTool :=
  foldl (λ tools command,
           match schema command with
           | None => tools
           | Some s =>
               if skipped_by_tags filterTags command then tools
               else tools ++ [{| tool_name := toToolName (cmd_id command);
                                 tool_description := default (label command) (description command);
                                 input_schema := toJsonSchema s |}]
           end) [] available.

(** A tool of [toVercelAiTools]: [execute_id] is the [command.id] its
    [execute] closure holds. *)
Record VercelAiTool : Type := {
  vercel_description : string;
  vercel_parameters : ZodType;
  execute_id : string
}.

(** The object [toVercelAiTools] builds: its own properties, keyed by
    tool name, and its prototype when an assignment replaced it. *)
Record VercelAiTools : Type := {
  own_tools : gmap string VercelAiTool;
  tools_prototype : option VercelAiTool
}.

(** [tools[toolName] = tool], an assignment on an object that starts out
    as [{}]: under ['__proto__'] it runs the inherited setter, which adds
    no property and makes [tool] the prototype. *)
Definition assign_tool (toolName : string) (tool : VercelAiTool) (tools : VercelAiTools)
  : VercelAiTools :=
  if String.eqb toolName "__proto__"
  then {| own_tools := own_tools tools; tools_prototype := Some tool |}
  else {| own_tools := <[toolName := tool]> (own_tools tools);
          tools_prototype := tools_prototype tools |}.

(** [toVercelAiTools], given the array [registry.listAvailable()]
    returned. *)
Definition toVercelAiTools (available : list CommandDefinition)
    (filterTags : option (list string)) : VercelAiTools :=
  foldl (λ tools command,
           match schema command with
           | None => tools
           | Some s =>
               if skipped_by_tags filterTags command then tools
               else assign_tool (toToolName (cmd_id command))
                        {| vercel_description := default (label command) (description command);
                           vercel_parameters := s;
                           execute_id := cmd_id command |} tools
           end) {| own_tools := ∅; tools_prototype := None |} available.

Section OnRegistry.
Variables (config : RegistryConfig) (st : RegistryState).

(** The [execute] closure of a tool of [toVercelAiTools]. *)
Definition vercel_execute (tool : VercelAiTool) (params : JsVal)
  : option (Outcome CommandResult * list Event) :=
  execute config st (execute_id tool) params (Some (surface_overrides "ai")).

(** [executeAiToolCall(registry, toolName, params)]. *)
Definition executeAiToolCall (toolName : string) (params : JsVal)
  : option (Outcome CommandResult * list Event) :=
  execute config st (replace_all "_" "." toolName) params (Some (surface_overrides "ai")).

End OnRegistry.

(** What an MCP tool handler returns. *)
Record McpToolResult : Type := { content_text : string; isError : bool }.

(** One call [server.tool(name, description, schema, handler)]:
    [handler_id] is the [command.id] the handler closure holds. *)
Record McpTool : Type := {
  mcp_name : string;
  mcp_description : string;
  mcp_schema : JsVal;
  handler_id : string
}.

Record McpAdapterOptions : Type := {
  filterTags : option (list string);
  namePrefix : option string;
  toToolName_option : option (string → string);
  toJsonSchema_option : option (ZodType → JsVal)
}.

(** [{ type: 'object' }]. *)
Definition object_schema : JsVal := JObj [("type", JStr "object")].

(** [registerCommandsAsMcpTools], given the array [registry.list()]
    returned: the calls of [server.tool] in order, and the count
    returned. *)
Definition registerCommandsAsMcpTools (listed : list CommandDefinition)
    (options : McpAdapterOptions) : list McpTool * nat :=
  foldl (λ '(calls, count) command,
           match schema command with
           | None => (calls, count)
           | Some s =>
               if skipped_by_tags (filterTags options) command then (calls, count)
               else
                 (calls ++ [{| mcp_name := default EmptyString (namePrefix options)
                                           +:+ default toToolName (toToolName_option options)
                                                 (cmd_id command);
                               mcp_description := default (label command) (description command);
                               mcp_schema := match toJsonSchema_option options with
                                             | Some f => f s
                                             | None => object_schema
                                             end;
                               handler_id := cmd_id command |}],
                  S count)
           end) ([], 0) listed.

Section McpHandler.
Variables (config : RegistryConfig) (st : RegistryState).
(** [JSON.stringify(result, null, 2)]: the text, or what it throws (on
    data that holds a cycle or a BigInt, or from a [toJSON] method). *)
Variable stringify : CommandResult → Outcome string.

(** The handler of a registered MCP tool. *)
Definition mcp_handler (tool : McpTool) (params : JsVal)
  : option (Outcome McpToolResult * list Event) :=
  match execute config st (handler_id tool) params (Some (surface_overrides "mcp")) with
  | Some (Ok result, tr) =>
      match stringify result with
      | Ok text => Some (Ok {| content_text := text; isError := negb (success result) |}, tr)
      | Err e => Some (Err e, tr)
      end
  | Some (Err e, tr) => Some (Err e, tr)
  | None => None
  end.

End McpHandler.

End Adapters.
Export Adapters.

(** ** templates: the parameter collector utilities *)

Module ParamCollector.

Section Collector.
(** JavaScript numbers; the collector only copies them. *)
Variable number : Type.

(** An entry of [_def.checks] of a [ZodNumber]. *)
Record ZodCheck : Type := { kind : string; value : option number }.

(** A Zod schema, as far as the collector looks into it: its class, its
    [description], and for the classes it unwraps or reads, their parts.
    [shape] is the list [Object.entries(shape)] gives; [defaultValue] is
    what [_def.defaultValue()] returns. *)
Inductive ZodTypeAny : Type :=
| ZodString (description : option string)
| ZodNumber (description : option string) (checks : option (list ZodCheck))
| ZodBoolean (description : option string)
| ZodEnum (description : option string) (options : list string)
| ZodArray (description : option string)
| ZodObject (description : option string) (shape : list (string * ZodTypeAny))
| ZodRecord (description : option string)
| ZodTuple (description : option string)
| ZodUnion (description : option string)
| ZodOther (description : option string)
| ZodOptional (description : option string) (inner : ZodTypeAny)
| ZodDefault (description : option string) (inner : ZodTypeAny) (defaultValue : JsVal)
| ZodEffects (description : option string) (inner : ZodTypeAny).

(** [schema.description]. *)
Definition schema_description (schema : ZodTypeAny) : option string :=
  match schema with
  | ZodString d | ZodNumber d _ | ZodBoolean d | ZodEnum d _ | ZodArray d
  | ZodObject d _ | ZodRecord d | ZodTuple d | ZodUnion d | ZodOther d
  | ZodOptional d _ | ZodDefault d _ _ | ZodEffects d _ => d
  end.

Inductive FieldType : Type := ft_string | ft_number | ft_boolean | ft_enum | ft_json.

(** The [validation] object: a key is present once it was assigned, also
    when the value assigned is [undefined]. *)
Record Validation : Type := {
  v_min : option (option number);
  v_max : option (option number)
}.

Record FieldDescriptor : Type := {
  name : string;
  type : FieldType;
  required : bool;
  field_description : string;
  defaultValue_of : JsVal;
  enumValues : option (list string);
  validation : option Validation;
  zodSchema : ZodTypeAny
}.

Inductive CollectionPattern : Type := immediate | inline | form | delegate.

Inductive HintType : Type := focus_panel | inline_input.

Record PaletteHint : Type := {
  hint_type : HintType;
  panel : option string;
  section : option string;
  livePreview : option bool
}.

Record CommandLike : Type := {
  like_id : string;
  like_schema : option ZodTypeAny;
  paletteHint : option PaletteHint
}.

Fixpoint unwrapSchema (schema : ZodTypeAny) : ZodTypeAny :=
  match schema with
  | ZodEffects _ inner => unwrapSchema inner
  | other => other
  end.

Fixpoint unwrapOptional (schema : ZodTypeAny) : ZodTypeAny :=
  match schema with
  | ZodOptional _ inner => unwrapOptional inner
  | ZodDefault _ inner _ => unwrapOptional inner
  | ZodEffects _ inner => unwrapOptional inner
  | other => other
  end.

Fixpoint isFieldOptional (schema : ZodTypeAny) : bool :=
  match schema with
  | ZodOptional _ _ => true
  | ZodDefault _ _ _ => true
  | ZodEffects _ inner => isFieldOptional inner
  | _ => false
  end.

Definition classifyFieldType (schema : ZodTypeAny) : FieldType :=
  match unwrapOptional schema with
  | ZodNumber _ _ => ft_number
  | ZodBoolean _ => ft_boolean
  | ZodEnum _ _ => ft_enum
  | ZodString _ => ft_string
  | _ => ft_json
  end.

Definition extractEnumValues (schema : ZodTypeAny) : option (list string) :=
  match unwrapOptional schema with
  | ZodEnum _ options => Some options
  | _ => None
  end.

(** The loop of [extractValidation] over the checks. *)
Definition apply_check (validation : Validation) (check : ZodCheck) : Validation :=
  let validation :=
    if String.eqb (kind check) "min"
    then {| v_min := Some (value check); v_max := v_max validation |}
    else validation in
  if String.eqb (kind check) "max"
  then {| v_min := v_min validation; v_max := Some (value check) |}
  else validation.

Definition extractValidation (schema : ZodTypeAny) : option Validation :=
  match unwrapOptional schema with
  | ZodNumber _ checks =>
      match checks with
      | None => None
      | Some l =>
          let validation := foldl apply_check {| v_min := None; v_max := None |} l in
          match v_min validation, v_max validation with
          | None, None => None
          | _, _ => Some validation
          end
      end
  | _ => None
  end.

(** [extractDefault]; [undefined] when there is none. *)
Definition extractDefault (schema : ZodTypeAny) : JsVal :=
  match schema with
  | ZodDefault _ _ defaultValue => defaultValue
  | _ => JUndefined
  end.

Definition describeField (name : string) (schema : ZodTypeAny) : FieldDescriptor :=
  {| name := name;
     type := classifyFieldType schema;
     required := negb (isFieldOptional schema);
     field_description := default name (schema_description schema);
     defaultValue_of := extractDefault schema;
     enumValues := extractEnumValues schema;
     validation := extractValidation schema;
     zodSchema := unwrapOptional schema |}.

Definition isParameterFree (schema : option ZodTypeAny) : bool :=
  match schema with
  | None => true
  | Some schema =>
      match unwrapSchema schema with
      | ZodObject _ shape =>
          if Nat.eqb (length shape) 0 then true
          else forallb (λ entry, isFieldOptional entry.2) shape
      | _ => false
      end
  end.

Definition introspectSchema (schema : ZodTypeAny) : list FieldDescriptor :=
  match unwrapSchema schema with
  | ZodObject _ shape => map (λ entry, describeField entry.1 entry.2) shape
  | _ => []
  end.

(** [field.defaultValue !== undefined]. *)
Definition is_undefined (v : JsVal) : bool :=
  match v with
  | JUndefined => true
  | _ => false
  end.

(** The object [buildDefaultParams] builds: its own properties, and its
    prototype when an assignment replaced it. *)
Record DefaultParams : Type := {
  own_params : gmap string JsVal;
  params_prototype : option JsVal
}.

(** [params[name] = v], an assignment on an object that starts out as
    [{}]: under ['__proto__'] it runs the inherited setter, which adds no
    property; an object or [null] becomes the prototype, any other value is
    dropped. *)
Definition assign_param (k : string) (v : JsVal) (params : DefaultParams) : DefaultParams :=
  if String.eqb k "__proto__"
  then match v with
       | JObj _ | JNull => {| own_params := own_params params; params_prototype := Some v |}
       | _ => params
       end
  else {| own_params := <[k := v]> (own_params params);
          params_prototype := params_prototype params |}.

Definition buildDefaultParams (fields : list FieldDescriptor) : DefaultParams :=
  foldl (λ params field,
           if negb (is_undefined (defaultValue_of field))
           then assign_param (name field) (defaultValue_of field) params
           else params) {| own_params := ∅; params_prototype := None |} fields.

(** [command.paletteHint?.type === 'focus-panel']. *)
Definition hinted_focus_panel (command : CommandLike) : bool :=
  match paletteHint command with
  | Some {| hint_type := focus_panel |} => true
  | _ => false
  end.

(** [selectCollectionPattern]. Past the [isParameterFree] test the
    schema is there: [command.schema!] on a missing schema is not
    reached. *)
Definition selectCollectionPattern (command : CommandLike) : CollectionPattern :=
  if hinted_focus_panel command then delegate
  else if isParameterFree (like_schema command) then immediate
  else
    match like_schema command with
    | None => immediate
    | Some schema =>
        let fields := introspectSchema schema in
        let requiredFields := List.filter required fields in
        if Nat.eqb (length requiredFields) 0 then immediate
        else if Nat.eqb (length requiredFields) 1 && Nat.leb (length fields) 2 then inline
        else form
    end.

End Collector.

Arguments ZodString {number} description.
Arguments ZodNumber {number} description checks.
Arguments ZodBoolean {number} description.
Arguments ZodEnum {number} description options.
Arguments ZodArray {number} description.
Arguments ZodObject {number} description shape.
Arguments ZodRecord {number} description.
Arguments ZodTuple {number} description.
Arguments ZodUnion {number} description.
Arguments ZodOther {number} description.
Arguments ZodOptional {number} description inner.
Arguments ZodDefault {number} description inner defaultValue.
Arguments ZodEffects {number} description inner.
Arguments unwrapSchema {number} schema.
Arguments unwrapOptional {number} schema.
Arguments isFieldOptional {number} schema.
Arguments classifyFieldType {number} schema.
Arguments extractEnumValues {number} schema.
Arguments extractValidation {number} schema.
Arguments extractDefault {number} schema.
Arguments describeField {number} name schema.
Arguments isParameterFree {number} schema.
Arguments introspectSchema {number} schema.
Arguments buildDefaultParams {number} fields.
Arguments hinted_focus_panel {number} command.
Arguments selectCollectionPattern {number} command.
Arguments name {number} f.
Arguments type {number} f.
Arguments required {number} f.
Arguments field_description {number} f.
Arguments defaultValue_of {number} f.
Arguments enumValues {number} f.
Arguments validation {number} f.
Arguments zodSchema {number} f.
Arguments like_id {number} c.
Arguments like_schema {number} c.
Arguments paletteHint {number} c.

End ParamCollector.

(** ** templates/test-generator.ts: the names of the generated files *)

Module TestGenerator.

(** [id.replace(/\./g, '-') + '.test.ts']. *)
Definition commandIdToFilename (id : string) : string :=
  replace_all "." "-" id +:+ ".test.ts".

(** [parts[parts.length - 1]] for [parts = id.split('.')]. *)
Definition commandIdToVarName (id : string) : string :=
  List.last (WhenClause.split id ".") EmptyString.

End TestGenerator.
Export TestGenerator.

(** ** src/command-registry.ts: the registry over a [Map] *)

Module MapRegistry.

(** [Map<string, CommandDefinition>]: the entries in insertion order. *)
Definition Commands : Type := list (string * CommandDefinition).

(** [commands.has(id)]. *)
Definition map_has (commands : Commands) (id : string) : bool :=
  existsb (λ entry, String.eqb entry.1 id) commands.

(** [commands.get(id)]. *)
Fixpoint map_get (commands : Commands) (id : string) : option CommandDefinition :=
  match commands with
  | [] => None
  | (k, v) :: rest => if String.eqb k id then Some v else map_get rest id
  end.

(** [commands.set(id, v)]: a key that is there keeps its place. *)
Fixpoint map_set (commands : Commands) (id : string) (v : CommandDefinition) : Commands :=
  match commands with
  | [] => [(id, v)]
  | (k, w) :: rest => if String.eqb k id then (k, v) :: rest else (k, w) :: map_set rest id v
  end.

(** [commands.delete(id)]: whether the key was there, and the map
    without it. *)
Definition map_delete (commands : Commands) (id : string) : bool * Commands :=
  (map_has commands id, List.filter (λ entry, negb (String.eqb entry.1 id)) commands).

Definition register (command : CommandDefinition) (commands : Commands)
  : Outcome unit * Commands :=
  if map_has commands (cmd_id command)
  then (Err (already_registered (cmd_id command)), commands)
  else (Ok tt, map_set commands (cmd_id command) command).

(** [for (const cmd of cmds) this.register(cmd)]: the first throw ends
    the loop, and the map stays as the loop left it. *)
Fixpoint registerAll (cmds : list CommandDefinition) (commands : Commands)
  : Outcome unit * Commands :=
  match cmds with
  | [] => (Ok tt, commands)
  | cmd :: rest =>
      match register cmd commands with
      | (Ok _, commands') => registerAll rest commands'
      | (Err e, commands') => (Err e, commands')
      end
  end.

Definition unregister (id : string) (commands : Commands) : bool * Commands :=
  map_delete commands id.

Definition get (commands : Commands) (id : string) : option CommandDefinition :=
  map_get commands id.

(** [list()]: [Array.from(commands.values())]. *)
Definition list_values (commands : Commands) : list CommandDefinition := map snd commands.

Definition size (commands : Commands) : nat := length commands.

Section OnConfig.
Variable config : RegistryConfig.

Definition isAvailable (commands : Commands) (id : string) : Outcome bool :=
  match map_get commands id with
  | None => Ok false
  | Some cmd => if negb (str_truthy (when cmd)) then Ok true
                else the_evaluateWhen config (default EmptyString (when cmd))
  end.

(** [list.filter(test)]: the first call of [test] that throws ends it. *)
Fixpoint filter_throwing {A} (test : A → Outcome bool) (l : list A) : Outcome (list A) :=
  match l with
  | [] => Ok []
  | a :: rest =>
      match test a with
      | Err e => Err e
      | Ok keep =>
          match filter_throwing test rest with
          | Err e => Err e
          | Ok kept => Ok (if keep then a :: kept else kept)
          end
      end
  end.

Definition listAvailable (commands : Commands) : Outcome (list CommandDefinition) :=
  filter_throwing (λ cmd, if negb (str_truthy (when cmd)) then Ok true
                          else the_evaluateWhen config (default EmptyString (when cmd)))
                  (list_values commands).

(** [buildContext] of this registry merges and does nothing else. *)
Definition buildContext (overrides : option CommandContext) : CommandContext :=
  default ∅ overrides ∪ the_contextProvider config tt
    ∪ {[ "store" := JUndefined; "source" := JStr "unknown" ]}.

(** [execute] of this registry: no [isEnabled] test. [runMiddleware] is
    the same function in both files. *)
Definition execute (commands : Commands) (id : string) (params : JsVal)
    (contextOverrides : option CommandContext)
  : option (Outcome CommandResult * list Event) :=
  match map_get commands id with
  | None => Some (Ok (unknown_command id), [])
  | Some command =>
      match when_rejected config command with
      | Err e => Some (Err e, [])
      | Ok true => Some (Ok (not_available id (default EmptyString (when command))), [])
      | Ok false =>
          match call_contextProvider config with
          | Err e => Some (Err e, [])
          | Ok _ =>
              let context :=
                buildContext (Some (default ∅ contextOverrides
                                      ∪ {[ "source" := JStr "unknown" ]})) in
              match runMiddleware config command (params_or_empty params) context with
              | Some (Ok r, tr) => Some (Ok r, tr)
              | Some (Err err, tr) =>
                  match error_text err with
                  | Ok text => Some (Ok (failed id text), tr)
                  | Err e => Some (Err e, tr)
                  end
              | None => None
              end
          end
      end
  end.

End OnConfig.

(** The store of the other registry that holds the same commands. *)
Definition as_store (commands : Commands) (owners : gmap string (list string))
  : RegistryState :=
  {| CommandRegistry.commands := list_to_map commands; CommandRegistry.owners := owners |}.

End MapRegistry.

(** * Properties *)

(** ** Substrings of the messages *)

Section Contains.
Implicit Types n s a post : string.

Lemma append_cons c a s : String c a +:+ s = String c (a +:+ s).
Proof. reflexivity. Qed.

Lemma append_nil_l s : EmptyString +:+ s = s.
Proof. reflexivity. Qed.

Lemma append_nil_r s : s +:+ EmptyString = s.
Proof. induction s as [|c s IH]; [done|by rewrite append_cons, IH]. Qed.

Lemma append_assoc' a s post : (a +:+ s) +:+ post = a +:+ s +:+ post.
Proof. induction a as [|c a IH]; [done|by rewrite !append_cons, IH]. Qed.

Lemma length_append' a s : String.length (a +:+ s) = String.length a + String.length s.
Proof. induction a as [|c a IH]; [done|]. rewrite append_cons. simpl. by rewrite IH. Qed.

Lemma contains_here n post : contains n (n +:+ post).
Proof. by exists EmptyString, post. Qed.

Lemma contains_skip n a s : contains n s → contains n (a +:+ s).
Proof.
  intros (pre & post & ->). exists (a +:+ pre), post.
  by rewrite append_assoc'.
Qed.

Lemma contains_refl n : contains n n.
Proof.
  exists EmptyString, EmptyString. by rewrite append_nil_l, append_nil_r.
Qed.
End Contains.


(** ** The store: registration, ownership *)

Section StoreLemmas.
Implicit Types (m : gmap string CommandDefinition) (ids : list string)
  (defs : list CommandDefinition) (st : RegistryState).

Lemma obj_get_own {A} (own : gmap string A) k a :
  own !! k = Some a → obj_get own k = Some (Own a).
Proof. unfold obj_get. by intros ->. Qed.

Lemma obj_get_plain {A} (own : gmap string A) k :
  inherited k = false → obj_get own k = Own <$> own !! k.
Proof. unfold obj_get. intros ->. by destruct (own !! k). Qed.

Lemma obj_get_None {A} (own : gmap string A) k :
  obj_get own k = None ↔ own !! k = None ∧ inherited k = false.
Proof.
  unfold obj_get. destruct (own !! k); [split; [done|by intros []]|].
  destruct (inherited k); split; try done; by intros [].
Qed.



Lemma plain_ids_elem defs i :
  plain_ids defs = true → i ∈ map cmd_id defs → inherited i = false.
Proof.
  unfold plain_ids. induction defs as [|d defs IH]; simpl; intros H Hi.
  - by apply elem_of_nil in Hi.
  - apply andb_true_iff in H as [Hd H]. apply negb_true_iff in Hd.
    apply elem_of_cons in Hi as [->|Hi]; [done|by apply IH].
Qed.

Lemma plain_not_proto k : inherited k = false → String.eqb k "__proto__" = false.
Proof.
  intros H. destruct (String.eqb k "__proto__") eqn:E; [|done].
  apply String.eqb_eq in E as ->. by vm_compute in H.
Qed.

Lemma lookup_delete_ids ids m k :
  delete_ids ids m !! k = if decide (k ∈ ids) then None else m !! k.
Proof.
  unfold delete_ids. revert m. induction ids as [|i ids IH]; intros m; simpl.
  - destruct (decide (k ∈ [])) as [H|_]; [by apply elem_of_nil in H | done].
  - rewrite IH.
    destruct (decide (k ∈ ids)) as [Hin|Hnin], (decide (k ∈ i :: ids)) as [Hin'|Hnin'];
      try done.
    + exfalso. apply Hnin'. apply elem_of_cons. by right.
    + apply elem_of_cons in Hin' as [->|?]; [apply lookup_delete_eq|done].
    + apply not_elem_of_cons in Hnin' as [? _]. by apply lookup_delete_ne.
Qed.

(** Past the loop of assignments, when no assignment ran the inherited
    setter, every definition is an own property under its id: a later one
    over an earlier one. *)
Lemma assign_all_plain defs m :
  plain_ids defs = true → assign_all defs m = Some (insert_all defs m).
Proof.
  unfold plain_ids, insert_all. revert m.
  induction defs as [|d defs IH]; intros m H; simpl in *; [done|].
  apply andb_true_iff in H as [Hd H]. apply negb_true_iff in Hd.
  unfold assign. rewrite (plain_not_proto _ Hd). by apply IH.
Qed.

Lemma lookup_insert_all_notin defs m k :
  k ∉ map cmd_id defs → insert_all defs m !! k = m !! k.
Proof.
  unfold insert_all. revert m. induction defs as [|d defs IH]; intros m Hk; simpl; [done|].
  simpl in Hk. apply not_elem_of_cons in Hk as [Hne Hk].
  rewrite IH by done. by apply lookup_insert_ne.
Qed.

Lemma lookup_insert_all_in defs m k :
  k ∈ map cmd_id defs →
  ∃ d, d ∈ defs ∧ cmd_id d = k ∧ insert_all defs m !! k = Some d.
Proof.
  revert m. induction defs as [|d defs IH]; intros m Hk; simpl in *.
  - by apply elem_of_nil in Hk.
  - destruct (decide (k ∈ map cmd_id defs)) as [Hin|Hnin].
    + destruct (IH (<[cmd_id d:=d]> m) Hin) as (d' & ? & ? & ?).
      exists d'. split_and!; [apply elem_of_cons; by right|done|done].
    + apply elem_of_cons in Hk as [->|?]; [|done].
      exists d. split_and!; [apply elem_of_cons; by left|done|].
      change (insert_all (d :: defs) m) with (insert_all defs (<[cmd_id d:=d]> m)).
      rewrite lookup_insert_all_notin by done. apply lookup_insert_eq.
Qed.

(** A single definition assigned last is the one read back. *)
Lemma lookup_insert_all_single d m :
  insert_all [d] m !! cmd_id d = Some d.
Proof. unfold insert_all; simpl. apply lookup_insert_eq. Qed.

(** [registerForOwner] under an owner name and with ids that no object
    inherits: the store it writes. *)
Lemma registerForOwner_plain o defs st :
  inherited o = false → plain_ids defs = true →
  registerForOwner o defs st = Some (Ok tt, replaced o defs st).
Proof.
  intros Ho Hd. unfold registerForOwner, replaced.
  rewrite (obj_get_plain _ _ Ho).
  destruct (owners st !! o) as [ids|]; simpl; by rewrite assign_all_plain.
Qed.

Lemma unregisterForOwner_plain o st :
  inherited o = false → unregisterForOwner o st = (Ok tt, released o st).
Proof.
  intros Ho. unfold unregisterForOwner, released.
  rewrite (obj_get_plain _ _ Ho).
  destruct (owners st !! o) as [ids|]; simpl; [|done].
  by destruct (Nat.eqb (length ids) 0).
Qed.

Lemma owners_replaced o defs st :
  owners (replaced o defs st) !! o = Some (map cmd_id defs).
Proof. unfold replaced; simpl. apply lookup_insert_eq. Qed.

End StoreLemmas.

(** What [register] and [get] do on every store: under a name the read
    finds nothing under, [register] adds the definition and [get] returns
    it; otherwise [register] throws and leaves the store as it was. *)
Lemma register_get_spec (st : RegistryState) (d : CommandDefinition) :
  match get st (cmd_id d) with
  | None =>
      ∃ st', register d st = (Ok tt, st') ∧ get st' (cmd_id d) = Some (Own d)
  | Some _ =>
      register d st
      = (Err (JsError ("[wrapex] Command " +:+ dq +:+ cmd_id d +:+ dq
                       +:+ " is already registered.")), st)
  end.
Proof.
  unfold register, get. destruct (obj_get (commands st) (cmd_id d)) eqn:E; [done|].
  eexists. split; [reflexivity|]. cbn [commands].
  apply obj_get_own, lookup_insert_eq.
Qed.

(** C3. A valid definition whose id is ['constructor'], on a registry that
    holds no command: [register] throws the already-registered error and
    the registry stays empty, because the test [commands[command.id]]
    reads the method every object inherits; [get] returns that method, not
    a definition. The registry over a [Map] registers the same definition
    and returns it. *)
Theorem register_inherited_id_rejected :
  let d := makeCommand "constructor" succeed in
  defineCommand d = Ok d
  ∧ registry_size initialState = 0
  ∧ register d initialState
    = (Err (JsError ("[wrapex] Command " +:+ dq +:+ "constructor" +:+ dq
                     +:+ " is already registered.")), initialState)
  ∧ get initialState "constructor" = Some (Inherited "constructor")
  ∧ MapRegistry.register d [] = (Ok tt, [("constructor", d)])
  ∧ MapRegistry.get [("constructor", d)] "constructor" = Some d.
Proof. split_and!; reflexivity. Qed.

(** Registration by owner, for an owner name and ids that no object
    inherits. From any store, [registerForOwner o L1] followed by
    [registerForOwner o L2] leaves exactly the ids of [L2] recorded under
    [o]; every id of [L1] that is not an id of [L2] is gone from the
    commands, every id of [L2] is bound to a definition of [L2], and an id
    that is in neither list nor was recorded under [o] before is bound as it
    was. *)
Lemma registerForOwner_replaces_plain (st : RegistryState) (o : string)
    (L1 L2 : list CommandDefinition) :
  inherited o = false → plain_ids L1 = true → plain_ids L2 = true →
  ∃ st1 st2,
    registerForOwner o L1 st = Some (Ok tt, st1)
    ∧ registerForOwner o L2 st1 = Some (Ok tt, st2)
    ∧ owners st2 !! o = Some (map cmd_id L2)
    ∧ (∀ i, i ∈ map cmd_id L1 → i ∉ map cmd_id L2 → get st2 i = None)
    ∧ (∀ i, i ∈ map cmd_id L2 →
         ∃ d, d ∈ L2 ∧ cmd_id d = i ∧ get st2 i = Some (Own d))
    ∧ (∀ i, i ∉ map cmd_id L1 → i ∉ map cmd_id L2 → i ∉ default [] (owners st !! o) →
         get st2 i = get st i).
Proof.
  intros Ho H1 H2.
  exists (replaced o L1 st), (replaced o L2 (replaced o L1 st)).
  split; [by apply registerForOwner_plain|].
  split; [by apply registerForOwner_plain|].
  split_and!.
  - apply owners_replaced.
  - intros i Hi1 Hi2. unfold get. apply obj_get_None.
    split; [|by apply (plain_ids_elem L1)].
    unfold replaced at 1. cbn [commands owners].
    rewrite owners_replaced. cbn [default from_option id].
    rewrite lookup_insert_all_notin by done.
    rewrite lookup_delete_ids. by rewrite decide_True.
  - intros i Hi2. unfold get.
    unfold replaced at 1. cbn [commands].
    destruct (lookup_insert_all_in L2
                (delete_ids (default [] (owners (replaced o L1 st) !! o))
                            (commands (replaced o L1 st))) i Hi2)
      as (d & Hd & Hid & Hl).
    exists d. split_and!; [done|done|]. by apply obj_get_own.
  - intros i Hi1 Hi2 H0. unfold get, obj_get. f_equal.
    unfold replaced at 1. cbn [commands owners].
    rewrite owners_replaced. cbn [default from_option id].
    rewrite lookup_insert_all_notin by done.
    rewrite lookup_delete_ids, decide_False by done.
    unfold replaced. cbn [commands].
    rewrite lookup_insert_all_notin by done.
    rewrite lookup_delete_ids. by rewrite decide_False.
Qed.

(** The scenario of the specification: [x] and [y] are gone, [z] is
    there. *)
Example registerForOwner_x_y_then_z :
  ∃ st1 st2,
    registerForOwner "o" [makeCommand "x" succeed; makeCommand "y" succeed] initialState
    = Some (Ok tt, st1)
    ∧ registerForOwner "o" [makeCommand "z" succeed] st1 = Some (Ok tt, st2)
    ∧ get st2 "x" = None ∧ get st2 "y" = None
    ∧ get st2 "z" = Some (Own (makeCommand "z" succeed))
    ∧ owners st2 !! "o" = Some ["z"].
Proof. do 2 eexists. split_and!; reflexivity. Qed.

(** C5. On a registry that holds nothing, with nothing recorded under any
    owner: [unregisterForOwner('constructor')] throws a TypeError, because
    [owners[owner] ?? []] reads the method every object inherits, which is
    not nullish and not iterable; [registerForOwner('constructor', ..)]
    throws for the same reason, each time it is called, and registers
    nothing. Under the owner name ['o'] the first is a no-op and the second
    registers. *)
Theorem owner_inherited_name_throws :
  let x := makeCommand "x" succeed in
  let y := makeCommand "y" succeed in
  let z := makeCommand "z" succeed in
  owners initialState = ∅
  ∧ unregisterForOwner "constructor" initialState
    = (Err (JsError "ids is not iterable"), initialState)
  ∧ registerForOwner "constructor" [x; y] initialState
    = Some (Err (JsError "oldIds is not iterable"), initialState)
  ∧ registerForOwner "constructor" [z] initialState
    = Some (Err (JsError "oldIds is not iterable"), initialState)
  ∧ get initialState "z" = None
  ∧ unregisterForOwner "o" initialState = (Ok tt, initialState)
  ∧ (∃ st1, registerForOwner "o" [z] initialState = Some (Ok tt, st1)
            ∧ get st1 "z" = Some (Own z)).
Proof. split_and!; try reflexivity. eexists. split; reflexivity. Qed.

(** [unregisterForOwner] on an owner name the read finds nothing under
    returns and leaves the store as it was. *)
Lemma unregisterForOwner_unknown_owner (st : RegistryState) (o : string) :
  owners st !! o = None → inherited o = false →
  unregisterForOwner o st = (Ok tt, st).
Proof.
  intros E Ho. unfold unregisterForOwner. rewrite (obj_get_plain _ _ Ho), E. done.
Qed.

(** For an owner name and an id that no object inherits: when the id of
    [d] is already bound (whoever registered it), [registerForOwner o [d]]
    rebinds it to [d] and records it under [o], and [unregisterForOwner o]
    then removes the id from the registry. *)
Lemma registerForOwner_displaces_plain (st : RegistryState) (o : string)
    (d : CommandDefinition) :
  inherited o = false → inherited (cmd_id d) = false →
  ∃ st1 st2,
    registerForOwner o [d] st = Some (Ok tt, st1)
    ∧ get st1 (cmd_id d) = Some (Own d)
    ∧ owners st1 !! o = Some [cmd_id d]
    ∧ unregisterForOwner o st1 = (Ok tt, st2)
    ∧ get st2 (cmd_id d) = None.
Proof.
  intros Ho Hd.
  assert (plain_ids [d] = true) as Hp.
  { unfold plain_ids. simpl. by rewrite Hd. }
  exists (replaced o [d] st), (released o (replaced o [d] st)).
  split_and!.
  - by apply registerForOwner_plain.
  - unfold get, replaced. cbn [commands].
    apply obj_get_own, lookup_insert_all_single.
  - apply owners_replaced.
  - by apply unregisterForOwner_plain.
  - unfold get. apply obj_get_None. split; [|done].
    unfold released. rewrite owners_replaced.
    cbn [default from_option id map length Nat.eqb commands].
    rewrite lookup_delete_ids. rewrite decide_True; [done|].
    apply elem_of_cons. by left.
Qed.

(** C10. The definition [d0] is registered under the id ['doc.save'].
    [registerForOwner('valueOf', [d])], with [d] of the same id, throws a
    TypeError, because [owners[owner] ?? []] reads the method every object
    inherits: the id stays bound to [d0] and nothing is recorded under the
    owner. [unregisterForOwner('valueOf')] then returns at once, the
    method having [length] [0], and the id is still bound to [d0]. *)
Theorem registerForOwner_inherited_owner_rejects :
  let d0 := makeCommand "doc.save" succeed in
  let d := makeCommand "doc.save" boom in
  let st := registered [d0] in
  get st "doc.save" = Some (Own d0)
  ∧ registerForOwner "valueOf" [d] st
    = Some (Err (JsError "oldIds is not iterable"), st)
  ∧ owners st !! "valueOf" = None
  ∧ unregisterForOwner "valueOf" st = (Ok tt, st)
  ∧ (∃ st1, registerForOwner "panel" [d] st = Some (Ok tt, st1)
            ∧ get st1 "doc.save" = Some (Own d)).
Proof. split_and!; try reflexivity. eexists. split; reflexivity. Qed.

(** ** The pipeline: termination and what a call can observe *)

Section Pipeline.
Variable config : RegistryConfig.
Variables (command : CommandDefinition) (params : JsVal) (context : CommandContext).

Lemma run_act_total {R} (p : Act R) tr : ∃ o tr', run_act p tr = (o, tr').
Proof. destruct (run_act p tr) as [o tr']. eauto. Qed.

(** How an async function ends does not depend on the events before it. *)
Lemma run_act_outcome {R} (p : Act R) tr :
  run_act p tr = ((run_act p []).1, tr ++ (run_act p []).2).
Proof.
  revert tr. induction p as [r|e|line k IH]; intros tr; simpl.
  - by rewrite app_nil_r.
  - by rewrite app_nil_r.
  - rewrite (IH (tr ++ [EvLog line])), (IH [EvLog line]). simpl.
    by rewrite <- app_assoc.
Qed.


(** A middleware body terminates when [next] does; the shared index never
    goes down. *)
Lemma run_mw_total (nxt : Step) (i0 : nat) :
  (∀ st, i0 ≤ index st → ∃ o st', nxt st = Some (o, st') ∧ index st ≤ index st') →
  ∀ p st, i0 ≤ index st →
    ∃ o st', run_mw nxt p st = Some (o, st') ∧ index st ≤ index st'.
Proof.
  intros Hnxt. induction p as [r|e|line k IH|onResult IHr onThrow IHt]; intros st Hi; simpl.
  - eauto.
  - eauto.
  - destruct (IH {| index := index st; trace := trace st ++ [EvLog line] |}) as (o & st' & E & ?);
      [done|]. eauto.
  - destruct (Hnxt st Hi) as (o & st1 & E & Hle). rewrite E.
    destruct o as [r|e].
    + destruct (IHr r st1) as (o' & st' & E' & ?); [lia|]. exists o', st'. split; [done|lia].
    + destruct (IHt e st1) as (o' & st' & E' & ?); [lia|]. exists o', st'. split; [done|lia].
Qed.

(** [next] terminates as soon as the fuel covers the middlewares left. *)
Lemma next_total (fuel : nat) :
  ∀ st, length (the_middleware config) - index st < fuel →
    ∃ o st', next config fuel command params context st = Some (o, st')
             ∧ index st ≤ index st'.
Proof.
  induction fuel as [|fuel IH]; intros st Hf; simpl; [lia|].
  - destruct (the_middleware config !! index st) as [mw|] eqn:E.
    + destruct (run_mw_total (next config fuel command params context) (S (index st)))
        with (p := mw command params context)
             (st := {| index := S (index st);
                       trace := trace st ++ [EvMiddleware (index st) params context] |})
        as (o & st' & E' & Hle).
      * intros st1 H1. apply IH. apply lookup_lt_Some in E. unfold CommandMiddleware in *. lia.
      * done.
      * exists o, st'. split; [done|]. simpl in Hle. lia.
    + destruct (run_act (cmd_execute command params context)
                  (trace st ++ [EvHandler (cmd_id command) params context])) as [o tr].
      eexists _, _. split; [reflexivity|]. done.
Qed.

(** The promise [runMiddleware] returns always settles. *)
Lemma runMiddleware_total :
  ∃ o tr, runMiddleware config command params context = Some (o, tr).
Proof.
  unfold runMiddleware.
  destruct (next_total (S (length (the_middleware config))) {| index := 0; trace := [] |})
    as (o & st' & E & _); [simpl; lia|].
  rewrite E. eauto.
Qed.

(** Any property of events that holds of log lines and of the call records
    of this very call holds of every event of the call. *)
Section TraceInvariant.
Variable P : Event → Prop.
Hypothesis P_log : ∀ line, P (EvLog line).
Hypothesis P_mw : ∀ i, P (EvMiddleware i params context).
Hypothesis P_handler : P (EvHandler (cmd_id command) params context).

Lemma run_act_invariant {R} (p : Act R) tr o tr' :
  Forall P tr → run_act p tr = (o, tr') → Forall P tr'.
Proof.
  revert tr. induction p as [r|e|line k IH]; intros tr Htr E; simpl in E.
  - by inversion E; subst.
  - by inversion E; subst.
  - apply (IH (tr ++ [EvLog line])); [|done].
    apply Forall_app. split; [done|]. by apply Forall_singleton.
Qed.

Lemma run_mw_invariant (nxt : Step) :
  (∀ st o st', Forall P (trace st) → nxt st = Some (o, st') → Forall P (trace st')) →
  ∀ p st o st', Forall P (trace st) → run_mw nxt p st = Some (o, st') →
    Forall P (trace st').
Proof.
  intros Hnxt. induction p as [r|e|line k IH|onResult IHr onThrow IHt];
    intros st o st' Htr E; simpl in E.
  - by inversion E; subst.
  - by inversion E; subst.
  - eapply IH; [|exact E]. simpl.
    apply Forall_app. split; [done|]. by apply Forall_singleton.
  - destruct (nxt st) as [[[r|e] st1]|] eqn:E1; [| |done].
    + eapply IHr; [|exact E]. by eapply Hnxt.
    + eapply IHt; [|exact E]. by eapply Hnxt.
Qed.

Lemma next_invariant (fuel : nat) :
  ∀ st o st', Forall P (trace st) →
    next config fuel command params context st = Some (o, st') →
    Forall P (trace st').
Proof.
  induction fuel as [|fuel IH]; intros st o st' Htr E; simpl in E; [done|].
  destruct (the_middleware config !! index st) as [mw|].
  - eapply (run_mw_invariant _ IH); [|exact E]. simpl.
    apply Forall_app. split; [done|]. by apply Forall_singleton.
  - destruct (run_act _ _) as [o1 tr1] eqn:E1. inversion E; subst; simpl.
    eapply run_act_invariant; [|exact E1].
    apply Forall_app. split; [done|]. by apply Forall_singleton.
Qed.

Lemma runMiddleware_invariant o tr :
  runMiddleware config command params context = Some (o, tr) → Forall P tr.
Proof.
  unfold runMiddleware.
  destruct (next _ _ _ _ _ _) as [[o1 st1]|] eqn:E; [|done].
  intros E'; inversion E'; subst.
  eapply next_invariant; [|exact E]. simpl. constructor.
Qed.
End TraceInvariant.

End Pipeline.

(** ** [execute]: the guards, the chain and the catch *)


(** The promise [execute] returns settles: it is fulfilled or rejected.
    (Under an inherited name this is shown of a registry without
    middleware.) *)
Lemma execute_settles config st id params overrides :
  (∀ k, get st id = Some (Inherited k) → the_middleware config = []) →
  ∃ o tr, execute config st id params overrides = Some (o, tr).
Proof.
  intros Hin. unfold execute. destruct (get st id) as [[command|k]|]; [| |eauto].
  - destruct (when_rejected config command) as [[|]|]; [eauto| |eauto].
    destruct (call_contextProvider config); [|eauto].
    destruct (enabled_rejected command _) as [[|]|]; [eauto| |eauto].
    destruct (runMiddleware_total config command (params_or_empty params)
                (execute_context config overrides)) as (o & tr & ->).
    destruct o as [res|err]; [eauto|]. destruct (error_text err); eauto.
  - destruct (call_contextProvider config); [|eauto]. rewrite (Hin k eq_refl). eauto.
Qed.




(** The test of the suite: the handler throws, and the result carries its
    text. *)
Example execute_boom :
  ∃ tr, execute noConfig (registered [makeCommand "test.throw" boom])
          "test.throw" JUndefined None
        = Some (Ok (failed "test.throw" "boom"), tr).
Proof. eexists. vm_compute. reflexivity. Qed.



(** The early returns on concrete registries. *)
Example execute_unknown :
  execute noConfig initialState "no.such.command" JUndefined None
  = Some (Ok (unknown_command "no.such.command"), []).
Proof. reflexivity. Qed.

Example execute_when_rejected :
  execute onlyOk (registered [gated "test.gated" "false" succeed])
    "test.gated" JUndefined None
  = Some (Ok (not_available "test.gated" "false"), []).
Proof. vm_compute. reflexivity. Qed.

Example execute_disabled :
  execute noConfig (registered [switchedOff "test.off" succeed])
    "test.off" JUndefined None
  = Some (Ok (disabled "test.off"), []).
Proof. vm_compute. reflexivity. Qed.

(** An id that is no command and yet not unknown: under a name every
    object inherits the read finds the inherited value and the first guard
    passes; with no middleware configured the call of the missing handler
    throws inside the [try]. *)
Example execute_inherited_name :
  get initialState "toString" = Some (Inherited "toString")
  ∧ execute noConfig initialState "toString" JUndefined None
    = Some (Ok {| success := false;
                  message := Some ("Command " +:+ dq +:+ "toString" +:+ dq
                                   +:+ " failed: command.execute is not a function");
                  data := None |}, []).
Proof. split; reflexivity. Qed.

(** ** The execution context *)

(** Every middleware and the handler are called with the params [execute]
    was given (or the empty object) and with the one context [execute]
    built. *)
Lemma execute_call_records config st id params overrides o tr :
  execute config st id params overrides = Some (o, tr) →
  Forall (called_with (params_or_empty params) (execute_context config overrides)) tr.
Proof.
  unfold execute. destruct (get st id) as [[command|k]|].
  3: { intros E; inversion E; constructor. }
  2: { destruct (call_contextProvider config); [|intros E; inversion E; constructor].
       destruct (the_middleware config); [|done]. intros E; inversion E; constructor. }
  destruct (when_rejected config command) as [[|]|];
    [intros E; inversion E; constructor| |intros E; inversion E; constructor].
  destruct (call_contextProvider config); [|intros E; inversion E; constructor].
  destruct (enabled_rejected command _) as [[|]|];
    [intros E; inversion E; constructor| |intros E; inversion E; constructor].
  destruct (runMiddleware _ _ _ _) as [[o1 tr1]|] eqn:Hrun; [|done].
  intros E.
  assert (tr = tr1) as ->.
  { destruct o1 as [res|err]; [by inversion E|]. destruct (error_text err); by inversion E. }
  eapply runMiddleware_invariant; [| | |exact Hrun]; simpl; done.
Qed.

Lemma is_unknown_true v : is_unknown v = true → v = JStr "unknown".
Proof.
  destruct v as [| | |s|]; simpl; try done.
  intros H. apply String.eqb_eq in H. by subst.
Qed.

Lemma is_unknown_false v : v ≠ JStr "unknown" → is_unknown v = false.
Proof.
  intros H. destruct (is_unknown v) eqn:E; [|done].
  by apply is_unknown_true in E.
Qed.

Lemma the_contextProvider_returned config provided :
  call_contextProvider config = Ok provided → the_contextProvider config tt = provided.
Proof. unfold the_contextProvider. by intros ->. Qed.

(** The merge, key by key: the overrides, else the provider's output, else
    the two defaults. *)
Lemma lookup_merge_context config (X : CommandContext) k :
  merge_context config (Some X) !! k
  = match X !! k with
    | Some v => Some v
    | None =>
        match the_contextProvider config tt !! k with
        | Some v => Some v
        | None =>
            if String.eqb k "store" then Some JUndefined
            else if String.eqb k "source" then Some (JStr "unknown")
            else None
        end
    end.
Proof.
  unfold merge_context. cbn [default from_option id].
  rewrite !lookup_union.
  assert (({[ "store" := JUndefined; "source" := JStr "unknown" ]} : CommandContext) !! k
          = if String.eqb k "store" then Some JUndefined
            else if String.eqb k "source" then Some (JStr "unknown")
            else None) as ->.
  { destruct (String.eqb k "store") eqn:E1.
    { apply String.eqb_eq in E1 as ->. reflexivity. }
    apply String.eqb_neq in E1.
    rewrite lookup_insert_ne by done.
    destruct (String.eqb k "source") eqn:E2.
    { apply String.eqb_eq in E2 as ->. reflexivity. }
    apply String.eqb_neq in E2.
    by rewrite lookup_singleton_ne. }
  destruct (X !! k), (the_contextProvider config tt !! k),
    (String.eqb k "store"), (String.eqb k "source"); reflexivity.
Qed.

(** The merge itself: a key of the overrides has the value the overrides
    give it. *)
Lemma merge_context_override config (X : CommandContext) k v :
  X !! k = Some v → merge_context config (Some X) !! k = Some v.
Proof. intros H. by rewrite lookup_merge_context, H. Qed.

(** The sync step only ever writes [source] (when it is 'unknown') and
    [invocation] (when it is falsy). *)
Lemma sync_source_keeps (merged : CommandContext) k v :
  merged !! k = Some v →
  (k = "source" → v ≠ JStr "unknown") →
  (k = "invocation" → truthy v = true) →
  sync_source merged !! k = Some v.
Proof.
  intros Hk Hs Hi. unfold sync_source.
  destruct (truthy (read merged "invocation") && is_unknown (read merged "source")) eqn:C1.
  - apply andb_true_iff in C1 as [_ Hu].
    destruct (decide (k = "source")) as [->|Hne].
    + exfalso. apply Hs; [done|].
      apply is_unknown_true in Hu. unfold read in Hu. by rewrite Hk in Hu.
    + by rewrite lookup_insert_ne.
  - destruct (negb (is_unknown (read merged "source")) && negb (truthy (read merged "invocation")))
      eqn:C2; [|done].
    apply andb_true_iff in C2 as [_ Ht].
    destruct (decide (k = "invocation")) as [->|Hne].
    + exfalso. specialize (Hi eq_refl). unfold read in Ht. rewrite Hk in Ht. simpl in Ht.
      by rewrite Hi in Ht.
    + by rewrite lookup_insert_ne.
Qed.

(** The sync step leaves every other key as it is. *)
Lemma sync_source_other (merged : CommandContext) k :
  k ≠ "source" → k ≠ "invocation" → sync_source merged !! k = merged !! k.
Proof.
  intros Hs Hi. unfold sync_source.
  destruct (_ && _); [by rewrite lookup_insert_ne|].
  destruct (_ && _); [by rewrite lookup_insert_ne|done].
Qed.

(** C9, as the code has it. The context every middleware and the handler of
    an [execute] call receive is the one built for that call from the
    provider's output and the call's overrides. Of every key but [source]
    and [invocation] it holds the overrides' value, else the provider's,
    else [store: undefined]. The [source] is first the overrides' (the
    provider's is never read), ['unknown'] without one, and the
    [invocation] first the overrides', else the provider's; then the two
    are synchronised: a [source] equal to ['unknown'] becomes
    [invocation.surface] when the invocation is truthy, and a falsy or
    missing invocation becomes [{ surface: source }] when the source is
    not ['unknown']. So the overrides' value of a key is the final one
    unless it is a [source] equal to ['unknown'] or a falsy
    [invocation]. *)
Theorem execute_context_overrides (config : RegistryConfig) (st : RegistryState)
    (id : string) (params : JsVal) (contextOverrides provided : CommandContext) :
  call_contextProvider config = Ok provided →
  let ctx := execute_context config (Some contextOverrides) in
  let src := default (JStr "unknown") (contextOverrides !! "source") in
  let inv := match contextOverrides !! "invocation" with
             | Some v => Some v
             | None => provided !! "invocation"
             end in
  (∀ o tr, execute config st id params (Some contextOverrides) = Some (o, tr) →
     Forall (called_with (params_or_empty params) ctx) tr)
  ∧ (∀ k, k ≠ "source" → k ≠ "invocation" →
       ctx !! k = match contextOverrides !! k with
                  | Some v => Some v
                  | None =>
                      match provided !! k with
                      | Some v => Some v
                      | None => if String.eqb k "store" then Some JUndefined else None
                      end
                  end)
  ∧ (truthy (default JUndefined inv) = true → src = JStr "unknown" →
       ctx !! "source" = Some (get_prop (default JUndefined inv) "surface")
       ∧ ctx !! "invocation" = inv)
  ∧ (truthy (default JUndefined inv) = false → src ≠ JStr "unknown" →
       ctx !! "source" = Some src
       ∧ ctx !! "invocation" = Some (JObj [("surface", src)]))
  ∧ (truthy (default JUndefined inv) = true → src ≠ JStr "unknown" →
       ctx !! "source" = Some src ∧ ctx !! "invocation" = inv)
  ∧ (truthy (default JUndefined inv) = false → src = JStr "unknown" →
       ctx !! "source" = Some src ∧ ctx !! "invocation" = inv)
  ∧ (∀ k v, contextOverrides !! k = Some v →
       (k = "source" → v ≠ JStr "unknown") →
       (k = "invocation" → truthy v = true) →
       ctx !! k = Some v).
Proof.
  intros Hprov ctx src inv.
  pose proof (the_contextProvider_returned _ _ Hprov) as Hthe.
  set (merged := merge_context config
                   (Some (contextOverrides ∪ {[ "source" := JStr "unknown" ]}))).
  assert (merged !! "source" = Some src) as Hsrc.
  { unfold merged, src. rewrite lookup_merge_context, lookup_union.
    destruct (contextOverrides !! "source"); reflexivity. }
  assert (merged !! "invocation" = inv) as Hinv.
  { unfold merged, inv. rewrite lookup_merge_context, lookup_union, Hthe.
    destruct (contextOverrides !! "invocation"); [reflexivity|].
    rewrite lookup_singleton_ne by done. simpl.
    by destruct (provided !! "invocation"). }
  assert (read merged "source" = src) as Hrs by (unfold read; by rewrite Hsrc).
  assert (read merged "invocation" = default JUndefined inv) as Hri
    by (unfold read; by rewrite Hinv).
  assert (ctx = sync_source merged) as Hctx by reflexivity.
  split_and!.
  - intros o tr. apply execute_call_records.
  - intros k Hks Hki. rewrite Hctx, sync_source_other by done.
    unfold merged. rewrite lookup_merge_context, lookup_union, Hthe.
    rewrite lookup_singleton_ne by done.
    destruct (contextOverrides !! k); [reflexivity|]. simpl.
    destruct (provided !! k); [reflexivity|].
    destruct (String.eqb k "store"); [reflexivity|].
    apply String.eqb_neq in Hks. by rewrite Hks.
  - intros Ht Hu. rewrite Hctx. unfold sync_source. rewrite Hri, Hrs, Ht, Hu. simpl.
    split; [apply lookup_insert_eq|]. by rewrite lookup_insert_ne.
  - intros Ht Hu. rewrite Hctx. unfold sync_source.
    rewrite Hri, Hrs, Ht, (is_unknown_false _ Hu). simpl.
    split; [by rewrite lookup_insert_ne|apply lookup_insert_eq].
  - intros Ht Hu. rewrite Hctx. unfold sync_source.
    rewrite Hri, Hrs, Ht, (is_unknown_false _ Hu). simpl. done.
  - intros Ht Hu. rewrite Hctx. unfold sync_source. rewrite Hri, Hrs, Ht, Hu. simpl.
    by rewrite Hsrc, Hinv, Hu.
  - intros k v H Hs Hi. rewrite Hctx.
    apply sync_source_keeps; [|done|done].
    apply merge_context_override. by apply lookup_union_Some_l.
Qed.

Lemma execute_context_overrides_witness :
  let ctx := execute_context (withProvider {[ "appVersion" := JStr "1.0";
                                              "theme" := JStr "dark" ]})
               (Some {[ "source" := JStr "palette"; "theme" := JStr "light" ]}) in
  ctx !! "theme" = Some (JStr "light")
  ∧ ctx !! "appVersion" = Some (JStr "1.0")
  ∧ ctx !! "store" = Some JUndefined
  ∧ ctx !! "source" = Some (JStr "palette")
  ∧ ctx !! "invocation" = Some (JObj [("surface", JStr "palette")]).
Proof.
  destruct (execute_context_overrides
              (withProvider {[ "appVersion" := JStr "1.0"; "theme" := JStr "dark" ]})
              initialState "any" JUndefined
              {[ "source" := JStr "palette"; "theme" := JStr "light" ]}
              {[ "appVersion" := JStr "1.0"; "theme" := JStr "dark" ]} eq_refl)
    as (_ & Hother & _ & Hsync & _).
  split_and!.
  - by apply Hother.
  - by apply Hother.
  - by apply Hother.
  - by apply Hsync.
  - by apply Hsync.
Defined.

(** C9 fails as stated: the provider and the overrides both give [source];
    the overrides give 'unknown'; the context ends with the surface of the
    provider's invocation. *)
Lemma execute_context_source_rewritten :
  let provided : CommandContext :=
    {[ "source" := JStr "palette";
       "invocation" := JObj [("surface", JStr "shortcut")] ]} in
  let contextOverrides : CommandContext := {[ "source" := JStr "unknown" ]} in
  call_contextProvider (withProvider provided) = Ok provided
  ∧ provided !! "source" = Some (JStr "palette")
  ∧ contextOverrides !! "source" = Some (JStr "unknown")
  ∧ execute_context (withProvider provided) (Some contextOverrides) !! "source"
    = Some (JStr "shortcut").
Proof. split_and!; vm_compute; reflexivity. Qed.

(** The test of the suite: the provider gives [appVersion], the call gives
    [source]; the context has both, and the invocation made from the
    source. *)
Example execute_context_injects :
  let ctx := execute_context (withProvider {[ "appVersion" := JStr "1.0" ]})
               (Some {[ "source" := JStr "palette" ]}) in
  ctx !! "source" = Some (JStr "palette")
  ∧ ctx !! "appVersion" = Some (JStr "1.0")
  ∧ ctx !! "invocation" = Some (JObj [("surface", JStr "palette")]).
Proof. split_and!; vm_compute; reflexivity. Qed.

(** ** The middleware chain *)

Section Chain.
Variables (command : CommandDefinition) (params : JsVal) (context : CommandContext).

Lemma logs_app tr1 tr2 : logs (tr1 ++ tr2) = logs tr1 ++ logs tr2.
Proof. unfold logs. apply omap_app. Qed.

Lemma logs_map_EvLog ls : logs (map EvLog ls) = ls.
Proof.
  induction ls as [|l ls IH]; [done|].
  change (l :: logs (map EvLog ls) = l :: ls). by f_equal.
Qed.

Lemma handler_calls_app tr1 tr2 :
  handler_calls (tr1 ++ tr2) = handler_calls tr1 + handler_calls tr2.
Proof. unfold handler_calls. by rewrite List.filter_app, length_app. Qed.

Lemma handler_calls_map_EvLog ls : handler_calls (map EvLog ls) = 0.
Proof. induction ls as [|l ls IH]; [done|exact IH]. Qed.

Lemma run_act_spec {R} (p : Act R) tr :
  run_act p tr = (act_outcome p, tr ++ map EvLog (act_logs p)).
Proof.
  revert tr. induction p as [r|e|line k IH]; intros tr; simpl.
  - by rewrite app_nil_r.
  - by rewrite app_nil_r.
  - rewrite IH. by rewrite <- app_assoc.
Qed.

(** A body that never calls [next()] only logs: the shared index stays. *)
Lemma run_mw_no_next (nxt : Step) p st :
  no_next p →
  ∃ o ls, run_mw nxt p st
          = Some (o, {| index := index st; trace := trace st ++ map EvLog ls |}).
Proof.
  intros Hp. revert st. induction Hp as [r|e|line k Hk IH]; intros st; simpl.
  - exists (Ok r), []. simpl. rewrite app_nil_r. by destruct st.
  - exists (Err e), []. simpl. rewrite app_nil_r. by destruct st.
  - destruct (IH {| index := index st; trace := trace st ++ [EvLog line] |}) as (o & ls & E).
    exists o, (line :: ls). rewrite E. simpl. by rewrite <- app_assoc.
Qed.

(** The chain of the ordering test, started at any position: the lines
    logged are the before-lines of the middlewares left, the lines of the
    handler, and the after-lines in reverse; the handler runs once. *)
Lemma next_wrapping (suf pre : list string) :
  ∀ fuel st, index st = length pre → length suf < fuel →
    ∃ st',
      next (withMiddleware (map wrapping (pre ++ suf))) fuel command params context st
      = Some (act_outcome (cmd_execute command params context), st')
      ∧ logs (trace st')
        = logs (trace st) ++ map (λ n, n +:+ "-before") suf
            ++ act_logs (cmd_execute command params context)
            ++ match act_outcome (cmd_execute command params context) with
               | Ok _ => rev (map (λ n, n +:+ "-after") suf)
               | Err _ => []
               end
      ∧ handler_calls (trace st') = handler_calls (trace st) + 1.
Proof.
  revert pre. induction suf as [|n suf IH]; intros pre fuel st Hi Hf;
    (destruct fuel as [|fuel]; [lia|]); simpl next.
  - unfold the_middleware. simpl. rewrite app_nil_r.
    destruct (_ !! index st) as [mw|] eqn:E.
    { apply lookup_lt_Some in E. rewrite length_map in E. lia. }
    rewrite run_act_spec. eexists. split; [reflexivity|]. simpl.
    rewrite !logs_app, !handler_calls_app, logs_map_EvLog, handler_calls_map_EvLog.
    change (logs [EvHandler (cmd_id command) params context]) with (@nil string).
    change (handler_calls [EvHandler (cmd_id command) params context]) with 1.
    rewrite !app_nil_r. split; [|lia].
    by destruct (act_outcome _); rewrite ?app_nil_r.
  - unfold the_middleware. simpl.
    destruct (_ !! index st) as [mw|] eqn:E.
    2: { apply lookup_ge_None in E. rewrite length_map, length_app in E. simpl in E. lia. }
    assert (mw = wrapping n) as ->.
    { rewrite map_app, Hi in E. rewrite lookup_app_r in E by (rewrite length_map; lia).
      rewrite length_map, Nat.sub_diag in E. simpl in E. by inversion E. }
    simpl.
    destruct (IH (pre ++ [n]) fuel
                {| index := S (index st);
                   trace := (trace st ++ [EvMiddleware (index st) params context])
                              ++ [EvLog (n +:+ "-before")] |})
      as (st' & E' & Hl & Hc).
    { simpl. rewrite length_app. simpl. lia. }
    { simpl in Hf. lia. }
    rewrite <- app_assoc in E'. simpl in E'. rewrite E'.
    cbn [trace] in Hl, Hc. rewrite !logs_app in Hl. rewrite !handler_calls_app in Hc.
    change (logs [EvMiddleware (index st) params context]) with (@nil string) in Hl.
    change (logs [EvLog (n +:+ "-before")]) with [n +:+ "-before"] in Hl.
    change (handler_calls [EvMiddleware (index st) params context]) with 0 in Hc.
    change (handler_calls [EvLog (n +:+ "-before")]) with 0 in Hc.
    destruct (act_outcome (cmd_execute command params context)) as [r|e].
    + eexists. split; [reflexivity|]. cbn [trace].
      rewrite logs_app, handler_calls_app, Hl, Hc.
      change (logs [EvLog (n +:+ "-after")]) with [n +:+ "-after"].
      change (handler_calls [EvLog (n +:+ "-after")]) with 0.
      split; [|lia]. simpl. rewrite ?app_nil_r, <- ?app_assoc. simpl.
      by rewrite <- ?app_assoc.
    + eexists. split; [reflexivity|]. rewrite Hl, Hc.
      split; [|lia]. simpl. rewrite ?app_nil_r, <- ?app_assoc. by simpl.
Qed.

End Chain.

Section ShortCircuit.
Variable config : RegistryConfig.
Variables (command : CommandDefinition) (params : JsVal) (context : CommandContext).

(** A body that calls [next()] at most once adds no handler call of its own
    to those [next()] makes. *)
Lemma run_mw_at_most_once (nxt : Step) (i : nat) p :
  at_most_once p →
  (∀ st, index st = i →
     ∃ o st', nxt st = Some (o, st')
              ∧ handler_calls (trace st') = handler_calls (trace st)) →
  ∀ st, index st = i →
    ∃ o st', run_mw nxt p st = Some (o, st')
             ∧ handler_calls (trace st') = handler_calls (trace st).
Proof.
  intros Hp Hnxt. induction Hp as [r|e|line k Hk IH|onResult onThrow Hr Ht];
    intros st Hi; simpl.
  - eauto.
  - eauto.
  - destruct (IH {| index := index st; trace := trace st ++ [EvLog line] |} Hi)
      as (o & st' & E & Hc).
    exists o, st'. split; [done|]. rewrite Hc. simpl.
    rewrite handler_calls_app. change (handler_calls [EvLog line]) with 0. lia.
  - destruct (Hnxt st Hi) as (o & st1 & E & Hc). rewrite E.
    destruct o as [r|e].
    + destruct (run_mw_no_next nxt (onResult r) st1 (Hr r)) as (o' & ls & E').
      rewrite E'. eexists _, _. split; [reflexivity|]. simpl.
      rewrite handler_calls_app, handler_calls_map_EvLog. lia.
    + destruct (run_mw_no_next nxt (onThrow e) st1 (Ht e)) as (o' & ls & E').
      rewrite E'. eexists _, _. split; [reflexivity|]. simpl.
      rewrite handler_calls_app, handler_calls_map_EvLog. lia.
Qed.

(** Started anywhere before a middleware that never calls [next()], among
    middlewares that call it at most once, the chain does not reach the
    handler. *)
Lemma next_short_circuit (m : CommandMiddleware) (mws2 suf : list CommandMiddleware) :
  Forall (λ mw : CommandMiddleware, at_most_once (mw command params context)) suf →
  no_next (m command params context) →
  ∀ pre fuel st,
    the_middleware config = (pre ++ suf) ++ m :: mws2 →
    index st = length pre → length suf < fuel →
    ∃ o st', next config fuel command params context st = Some (o, st')
             ∧ handler_calls (trace st') = handler_calls (trace st).
Proof.
  intros Hsuf Hm. induction Hsuf as [|mw suf Hmw Hsuf IH]; intros pre fuel st Hcfg Hi Hf;
    (destruct fuel as [|fuel]; [lia|]); simpl next; rewrite Hcfg.
  - rewrite app_nil_r, Hi. rewrite list_lookup_middle by done.
    destruct (run_mw_no_next (next config fuel command params context)
                (m command params context)
                {| index := S (length pre);
                   trace := trace st ++ [EvMiddleware (length pre) params context] |} Hm)
      as (o & ls & E).
    rewrite E. eexists _, _. split; [reflexivity|]. simpl.
    rewrite !handler_calls_app, handler_calls_map_EvLog.
    change (handler_calls [EvMiddleware (length pre) params context]) with 0. lia.
  - rewrite <- app_assoc, Hi. simpl. rewrite list_lookup_middle by done.
    destruct (run_mw_at_most_once (next config fuel command params context)
                (S (length pre)) (mw command params context) Hmw) with
      (st := {| index := S (length pre);
                trace := trace st ++ [EvMiddleware (length pre) params context] |})
      as (o & st' & E & Hc).
    + intros st1 H1. apply (IH (pre ++ [mw])).
      * rewrite Hcfg. by rewrite <- !app_assoc.
      * rewrite length_app. simpl. lia.
      * simpl in Hf. lia.
    + done.
    + exists o, st'. split; [done|]. rewrite Hc. simpl.
      rewrite handler_calls_app.
      change (handler_calls [EvMiddleware (length pre) params context]) with 0. lia.
Qed.

End ShortCircuit.

Section ArrayOrder.
Variable config : RegistryConfig.
Variables (command : CommandDefinition) (params : JsVal) (context : CommandContext).
Let n := length (the_middleware config).

Lemma positions_app tr1 tr2 : positions (tr1 ++ tr2) = positions tr1 ++ positions tr2.
Proof. unfold positions. apply omap_app. Qed.

Lemma positions_map_EvLog ls : positions (map EvLog ls) = [].
Proof. induction ls as [|l ls IH]; [done|exact IH]. Qed.

Lemma in_array_order_logs st ls :
  in_array_order n st →
  in_array_order n {| index := index st; trace := trace st ++ map EvLog ls |}.
Proof.
  intros (Hp & Hi & Hh). unfold in_array_order. simpl.
  rewrite positions_app, positions_map_EvLog, app_nil_r.
  rewrite handler_calls_app, handler_calls_map_EvLog, Nat.add_0_r. done.
Qed.

Lemma run_mw_array_order (nxt : Step) :
  (∀ st o st', in_array_order n st → nxt st = Some (o, st') → in_array_order n st') →
  ∀ p st o st', in_array_order n st → run_mw nxt p st = Some (o, st') →
    in_array_order n st'.
Proof.
  intros Hnxt. induction p as [r|e|line k IH|onResult IHr onThrow IHt];
    intros st o st' Hst E; simpl in E.
  - by inversion E; subst.
  - by inversion E; subst.
  - eapply IH; [|exact E]. apply (in_array_order_logs st [line] Hst).
  - destruct (nxt st) as [[[r|e] st1]|] eqn:E1; [| |done].
    + eapply IHr; [|exact E]. by eapply Hnxt.
    + eapply IHt; [|exact E]. by eapply Hnxt.
Qed.

Lemma next_array_order (fuel : nat) :
  ∀ st o st', in_array_order n st →
    next config fuel command params context st = Some (o, st') →
    in_array_order n st'.
Proof.
  induction fuel as [|fuel IH]; intros st o st' Hst E; simpl in E; [done|].
  destruct Hst as (Hp & Hi & Hh). unfold n in *.
  destruct (the_middleware config !! index st) as [mw|] eqn:Hmw.
  - eapply (run_mw_array_order _ IH); [|exact E].
    apply lookup_lt_Some in Hmw. unfold in_array_order, CommandMiddleware in *.
    cbn [trace index].
    rewrite positions_app, Hp, handler_calls_app, Nat.add_0_r.
    change (positions [EvMiddleware (index st) params context]) with [index st].
    split_and!; [by rewrite seq_S|lia|intros H; specialize (Hh H); lia].
  - apply lookup_ge_None in Hmw. unfold CommandMiddleware in *.
    rewrite run_act_spec in E. inversion E; subst; clear E.
    rewrite <- app_assoc.
    unfold in_array_order. simpl.
    rewrite positions_app, Hp. simpl. rewrite positions_map_EvLog, app_nil_r.
    split_and!; [done|done|lia].
Qed.

(** From the first call on, the middlewares are invoked at positions
    [0], [1], ... in this order, each at most once, and the handler is
    invoked only once every middleware of the array has been invoked. *)
Lemma runMiddleware_array_order o tr :
  runMiddleware config command params context = Some (o, tr) →
  positions tr = seq 0 (length (positions tr))
  ∧ length (positions tr) ≤ length (the_middleware config)
  ∧ (0 < handler_calls tr → length (positions tr) = length (the_middleware config)).
Proof.
  unfold runMiddleware.
  destruct (next _ _ _ _ _ _) as [[o1 st1]|] eqn:E; [|done].
  intros E'; inversion E'; subst; clear E'.
  assert (in_array_order n {| index := 0; trace := [] |}) as H0.
  { split_and!; [done|apply Nat.le_0_l|]. unfold handler_calls. simpl. lia. }
  destruct (next_array_order _ _ _ _ H0 E) as (Hp & Hi & Hh).
  rewrite Hp, length_seq. done.
Qed.

End ArrayOrder.

(** C4, as the code has it. The chain calls the middlewares in array order,
    the first one outermost and the handler innermost. For every configured
    list: the middlewares are invoked at positions 0, 1, ... in this order,
    each at most once, and the handler is invoked only once every middleware
    of the list has been invoked. With the wrapping middlewares of the
    ordering test, for any list of names, the lines logged are every
    before-line in order, the handler's lines, then every after-line in
    reverse order, and the handler runs once. And the handler is never
    invoked when some middleware returns without calling [next()], provided
    the middlewares configured before it call [next()] at most once. *)
Theorem middleware_chain (command : CommandDefinition) (params : JsVal)
    (context : CommandContext) :
  (∀ config o tr,
     runMiddleware config command params context = Some (o, tr) →
     positions tr = seq 0 (length (positions tr))
     ∧ length (positions tr) ≤ length (the_middleware config)
     ∧ (0 < handler_calls tr → length (positions tr) = length (the_middleware config)))
  ∧ (∀ names : list string,
     ∃ tr,
       runMiddleware (withMiddleware (map wrapping names)) command params context
       = Some (act_outcome (cmd_execute command params context), tr)
       ∧ logs tr
         = map (λ n, n +:+ "-before") names
             ++ act_logs (cmd_execute command params context)
             ++ match act_outcome (cmd_execute command params context) with
                | Ok _ => rev (map (λ n, n +:+ "-after") names)
                | Err _ => []
                end
       ∧ handler_calls tr = 1)
  ∧ (∀ config (mws1 mws2 : list CommandMiddleware) (m : CommandMiddleware),
       middleware config = Some (mws1 ++ m :: mws2) →
       Forall (λ mw : CommandMiddleware, at_most_once (mw command params context)) mws1 →
       no_next (m command params context) →
       ∃ o tr, runMiddleware config command params context = Some (o, tr)
               ∧ handler_calls tr = 0).
Proof.
  split_and!.
  - intros config o tr. apply runMiddleware_array_order.
  - intros names. unfold runMiddleware.
    destruct (next_wrapping command params context names []
                (S (length (the_middleware (withMiddleware (map wrapping names)))))
                {| index := 0; trace := [] |}) as (st' & E & Hl & Hc).
    + done.
    + unfold the_middleware. simpl. rewrite length_map. lia.
    + change ([] ++ names) with names in E. rewrite E.
      exists (trace st'). split; [done|]. split; [exact Hl|exact Hc].
  - intros config mws1 mws2 m Hcfg H1 Hm. unfold runMiddleware.
    destruct (next_short_circuit config command params context m mws2 mws1 H1 Hm []
                (S (length (the_middleware config))) {| index := 0; trace := [] |})
      as (o & st' & E & Hc).
    + unfold the_middleware. by rewrite Hcfg.
    + done.
    + unfold the_middleware. rewrite Hcfg. simpl. rewrite length_app. lia.
    + rewrite E. exists o, (trace st'). split; [done|exact Hc].
Qed.

(** The ordering test of the suite: A outside, B inside. *)
Example middleware_order_A_B :
  ∃ tr, runMiddleware (withMiddleware [wrapping "A"; wrapping "B"])
          (makeCommand "test.mw" logging_handler) (JObj []) ∅ = Some (Ok ok, tr)
        ∧ logs tr = ["A-before"; "B-before"; "handler"; "B-after"; "A-after"].
Proof. eexists. split; vm_compute; reflexivity. Qed.

(** C4 fails as stated: the second middleware returns without calling
    [next()], and the handler is invoked all the same, because the first
    middleware calls [next()] a second time and the shared index has moved
    past the second middleware. *)
Lemma handler_reached_past_blocker :
  no_next (blocker (makeCommand "test.blocked" succeed) (JObj []) ∅)
  ∧ runMiddleware (withMiddleware [twice; blocker])
      (makeCommand "test.blocked" succeed) (JObj []) ∅
    = Some (Ok ok, [EvMiddleware 0 (JObj []) ∅; EvMiddleware 1 (JObj []) ∅;
                    EvHandler "test.blocked" (JObj []) ∅])
  ∧ handler_calls [EvMiddleware 0 (JObj []) ∅; EvMiddleware 1 (JObj []) ∅;
                   EvHandler "test.blocked" (JObj []) ∅] = 1.
Proof. split_and!; [constructor|reflexivity|reflexivity]. Qed.

(** ** The stock middlewares *)

Section StockMiddlewares.
Variables (command : CommandDefinition) (params : JsVal) (context : CommandContext).

(** Awaiting an async function: its lines are logged, then the body goes on
    with its value or rethrows. *)
Lemma run_mw_await {A} (nxt : Step) (p : Act A) (k : A → MwAct) st :
  run_mw nxt (await p k) st
  = match act_outcome p with
    | Ok a => run_mw nxt (k a)
                {| index := index st; trace := trace st ++ map EvLog (act_logs p) |}
    | Err e => Some (Err e, {| index := index st;
                               trace := trace st ++ map EvLog (act_logs p) |})
    end.
Proof.
  revert st. induction p as [a|e|line p IH]; intros st; simpl.
  - rewrite app_nil_r. by destruct st.
  - rewrite app_nil_r. by destruct st.
  - rewrite IH. simpl. by rewrite <- app_assoc.
Qed.

(** The confirmation middleware looks at the top-level
    [requiresConfirmation] field only: when that field is truthy and the
    predicate answers false, the result is exactly the cancelled result and
    [next()] is not called; when the predicate answers true, the middleware
    goes on with [next()]; when the field is not truthy the body is just
    [return next()], in which the predicate does not occur. *)
Lemma confirmation_by_shorthand (confirmFn : CommandDefinition → Act bool) (nxt : Step) st :
  (flag_truthy (requiresConfirmation command) = true →
   act_outcome (confirmFn command) = Ok false →
   run_mw nxt (createConfirmationMiddleware confirmFn command params context) st
   = Some (Ok cancelled,
           {| index := index st;
              trace := trace st ++ map EvLog (act_logs (confirmFn command)) |}))
  ∧ (flag_truthy (requiresConfirmation command) = true →
     act_outcome (confirmFn command) = Ok true →
     run_mw nxt (createConfirmationMiddleware confirmFn command params context) st
     = run_mw nxt call_next
         {| index := index st;
            trace := trace st ++ map EvLog (act_logs (confirmFn command)) |})
  ∧ (flag_truthy (requiresConfirmation command) = false →
     createConfirmationMiddleware confirmFn command params context = call_next).
Proof.
  unfold createConfirmationMiddleware. split_and!.
  - intros -> H. by rewrite run_mw_await, H.
  - intros -> H. by rewrite run_mw_await, H.
  - by intros ->.
Qed.

Lemma contains_concat (sep x : string) (l : list string) :
  x ∈ l → contains x (String.concat sep l).
Proof.
  induction l as [|y l IH]; intros Hx; [by apply elem_of_nil in Hx|].
  apply elem_of_cons in Hx as [->|Hx].
  - destruct l as [|z l]; simpl; [apply contains_refl|apply contains_here].
  - destruct l as [|z l]; [by apply elem_of_nil in Hx|].
    change (String.concat sep (y :: z :: l)) with (y +:+ sep +:+ String.concat sep (z :: l)).
    do 2 apply contains_skip. by apply IH.
Qed.

(** The configurable validation middleware: without a schema the body is
    [return next()]; a rejected value is thrown as the [ZodError] by default
    and returned as a failure that shows each issue's path and message with
    [catchErrors]; an accepted value leads to [return next()], and the
    parsed value is not used. *)
Lemma validation_policies (config : ValidationConfig) :
  (schema command = None →
   createValidationMiddleware config command params context = call_next)
  ∧ (∀ s error, schema command = Some s → safeParse s params = ParseFail error →
       default false (catchErrors config) = false →
       createValidationMiddleware config command params context = MThrow (JsZodError error))
  ∧ (∀ s error, schema command = Some s → safeParse s params = ParseFail error →
       default false (catchErrors config) = true →
       createValidationMiddleware config command params context
       = MRet (validation_failed (cmd_id command) (issues error))
       ∧ ∀ i msg, i ∈ issues error →
           message (validation_failed (cmd_id command) (issues error)) = Some msg →
           contains (String.concat "." (path i) +:+ ": " +:+ issue_message i) msg)
  ∧ (∀ s parsed, schema command = Some s → safeParse s params = ParseOk parsed →
       createValidationMiddleware config command params context = call_next).
Proof.
  unfold createValidationMiddleware, parse. split_and!.
  - by intros ->.
  - intros s error -> -> ->. done.
  - intros s error -> -> ->. split; [done|].
    intros i msg Hi Hmsg. inversion Hmsg; subst.
    do 5 apply contains_skip. unfold render_issues. apply contains_concat.
    apply list_elem_of_In, in_map_iff. exists i. split; [done|by apply list_elem_of_In].
  - intros s parsed -> ->. by destruct (default false (catchErrors config)).
Qed.

(** With the error boundary outermost, what the rest of the chain throws
    comes back as a failure; the chain itself only throws the TypeError of
    a conversion [String(err)] that finds no string. *)
Lemma errorBoundary_outermost config (rest : list CommandMiddleware) :
  the_middleware config = errorBoundaryMiddleware :: rest →
  ∃ o tr, runMiddleware config command params context = Some (o, tr)
          ∧ ∀ e, o = Err e → e = JsError "Cannot convert object to primitive value".
Proof.
  intros H. unfold runMiddleware. simpl. rewrite H. simpl.
  destruct (next_total config command params context (length (the_middleware config))
              {| index := 1; trace := [EvMiddleware 0 params context] |})
    as (o & st' & E & _).
  { rewrite H. simpl. lia. }
  rewrite H in E. simpl in E. rewrite E. destruct o as [res|err]; simpl.
  { eexists _, _. split; [reflexivity|]. by intros e. }
  unfold error_text. destruct err as [msg|ze|v]; simpl;
    try (eexists _, _; split; [reflexivity|]; by intros e).
  destruct (js_String v); simpl; eexists _, _; (split; [reflexivity|]); intros e He;
    [done|by inversion He].
Qed.

(** The error boundary around a handler that throws an [Error]. *)
Lemma errorBoundary_handler_throws config msg :
  the_middleware config = [errorBoundaryMiddleware] →
  act_outcome (cmd_execute command params context) = Err (JsError msg) →
  ∃ tr, runMiddleware config command params context
        = Some (Ok {| success := false; message := Some msg; data := None |}, tr).
Proof.
  intros H Hthrow. unfold runMiddleware. simpl. rewrite H. simpl. rewrite H. simpl.
  rewrite run_act_spec, Hthrow. simpl. eauto.
Qed.

Lemma call_next_once : at_most_once call_next.
Proof. apply once_next; intros; constructor. Qed.

Lemma await_once {A} (p : Act A) (k : A → MwAct) :
  (∀ a, at_most_once (k a)) → at_most_once (await p k).
Proof.
  intros Hk. induction p as [a|e|line p IH]; simpl; [apply Hk|constructor|by constructor].
Qed.

(** The stock middlewares call [next()] at most once, so among them a
    middleware that returns without calling [next()] does keep the handler
    from running. *)
Lemma stock_middlewares_once (confirmFn : CommandDefinition → Act bool)
    (config : ValidationConfig) :
  at_most_once (errorBoundaryMiddleware command params context)
  ∧ at_most_once (validationMiddleware command params context)
  ∧ at_most_once (createValidationMiddleware config command params context)
  ∧ at_most_once (createConfirmationMiddleware confirmFn command params context).
Proof.
  split_and!.
  - apply once_next; intros; [constructor|].
    destruct (error_text e); repeat constructor.
  - unfold validationMiddleware. destruct (schema command) as [s|]; [|apply call_next_once].
    destruct (parse s params); [apply call_next_once|constructor].
  - unfold createValidationMiddleware.
    destruct (schema command) as [s|]; [|apply call_next_once].
    destruct (default false (catchErrors config)).
    + destruct (safeParse s params); [apply call_next_once|constructor].
    + destruct (parse s params); [apply call_next_once|constructor].
  - unfold createConfirmationMiddleware.
    destruct (flag_truthy _); [|apply call_next_once].
    apply await_once. intros [|]; [apply call_next_once|constructor].
Qed.

End StockMiddlewares.

(** C7 at its failing input. The definition sets the confirmation flag in
    its metadata, which [resolveMetadata] resolves to true; the confirm
    predicate answers false; the confirmation middleware calls [next()] and
    the handler runs. *)
Theorem confirmation_ignores_metadata :
  meta_requiresConfirmation
    (resolveMetadata (confirmable "doc.delete" None (Some true) succeed)) = Some true
  ∧ execute (withMiddleware [createConfirmationMiddleware decline])
      (registered [confirmable "doc.delete" None (Some true) succeed])
      "doc.delete" JUndefined None
    = Some (Ok ok,
            [EvMiddleware 0 (JObj []) (execute_context noConfig None);
             EvHandler "doc.delete" (JObj []) (execute_context noConfig None)]).
Proof. split; vm_compute; reflexivity. Qed.

(** The other way round: the metadata says no confirmation, which wins in
    [resolveMetadata], and the shorthand says yes; the middleware prompts and
    cancels. *)
Example confirmation_prompts_against_metadata :
  meta_requiresConfirmation
    (resolveMetadata (confirmable "doc.open" (Some true) (Some false) succeed)) = Some false
  ∧ execute (withMiddleware [createConfirmationMiddleware decline])
      (registered [confirmable "doc.open" (Some true) (Some false) succeed])
      "doc.open" JUndefined None
    = Some (Ok cancelled, [EvMiddleware 0 (JObj []) (execute_context noConfig None)]).
Proof. split; vm_compute; reflexivity. Qed.

(** The scenario of the specification, with the top-level field: the
    predicate declines, the result is exactly the cancelled result and the
    handler is not invoked. *)
Example confirmation_declined :
  execute (withMiddleware [createConfirmationMiddleware decline])
    (registered [confirmable "doc.delete" (Some true) None succeed])
    "doc.delete" JUndefined None
  = Some (Ok {| success := false; message := Some "Cancelled by user."; data := None |},
          [EvMiddleware 0 (JObj []) (execute_context noConfig None)]).
Proof. vm_compute. reflexivity. Qed.

(** C8 at its failing input. The schema accepts the empty object and
    returns it with the default filled in; under either failure policy the
    handler is called with the empty object it was sent, not with the parsed
    value. *)
Theorem validated_value_dropped :
  safeParse nameWithDefault (JObj []) = ParseOk (JObj [("name", JStr "anon")])
  ∧ ∀ catch : option bool,
      execute (withMiddleware [createValidationMiddleware {| catchErrors := catch |}])
        (registered [withSchema "user.greet" nameWithDefault echo])
        "user.greet" JUndefined None
      = Some (Ok {| success := true; message := None; data := Some (JObj []) |},
              [EvMiddleware 0 (JObj []) (execute_context noConfig None);
               EvHandler "user.greet" (JObj []) (execute_context noConfig None)]).
Proof.
  split; [reflexivity|]. intros [[|]|]; vm_compute; reflexivity.
Qed.

(** ** The reference when-clause evaluator *)

Section WhenClauseLemmas.
Import WhenClause.
Variable context : gmap string bool.

Lemma split_from_nonempty sep skip acc s : split_from sep skip acc s ≠ [].
Proof.
  revert skip acc. induction s as [|c s IH]; intros skip acc; cbn [split_from]; [done|].
  destruct skip; [|apply IH]. destruct (startsWith (String c s) sep); [done|apply IH].
Qed.











Example evaluateWhen_inherited_key :
  evaluateWhen ∅ "constructor" = Some (WInherited "constructor").
Proof. reflexivity. Qed.

(** A ['!'] in front: the negation of the flag named by the rest, whatever
    the rest is. *)
Lemma evaluateWhen_negated rest :
  evaluateWhen context ("!" +:+ rest)
  = Some (WBool (negb (passes (lookup_flag context rest)))).
Proof.
  change ("!" +:+ rest) with (String "!" rest).
  unfold evaluateWhen. cbn [String.length evaluateWhen_fuel startsWith].
  by destruct rest.
Qed.

(** A clause that does not start with ['!'] and holds neither separator is
    looked up as a key: [false] when it is absent and no name every object
    inherits. *)
Lemma evaluateWhen_bare key :
  startsWith key "!" = false → includes key "&&" = false → includes key "||" = false →
  evaluateWhen context key = Some (lookup_flag context key)
  ∧ (context !! key = None → inherited key = false →
     lookup_flag context key = WBool false).
Proof.
  intros H1 H2 H3. unfold evaluateWhen. simpl. rewrite H1, H2, H3.
  split; [done|]. unfold lookup_flag. by intros -> ->.
Qed.

End WhenClauseLemmas.

Section WhenClauseKeys.
Import WhenClause.
Variable context : gmap string bool.

Lemma key_char_differs c d : key_char c = true → key_char d = false → Ascii.eqb d c = false.
Proof.
  intros Hc Hd. destruct (Ascii.eqb d c) eqn:E; [|done].
  apply Ascii.eqb_eq in E. subst. congruence.
Qed.

(** No separator starts inside a key. *)
Lemma startsWith_in_key c a rest d sep :
  is_key (String c a) = true → key_char d = false →
  startsWith (String c a +:+ rest) (String d sep) = false.
Proof.
  cbn [is_key]. intros [Hc _]%andb_true_iff Hd.
  rewrite append_cons. cbn [startsWith]. by rewrite (key_char_differs c d).
Qed.

Lemma split_from_key a d sep acc rest :
  is_key a = true → key_char d = false →
  split_from (String d sep) 0 acc (a +:+ rest)
  = split_from (String d sep) 0 (acc +:+ a) rest.
Proof.
  intros Ha Hd. revert acc. induction a as [|c a IH]; intros acc.
  - by rewrite append_nil_l, append_nil_r.
  - rewrite append_cons. cbn [split_from].
    rewrite <- append_cons, (startsWith_in_key c a rest d sep Ha Hd).
    cbn [is_key] in Ha. apply andb_true_iff in Ha as [_ Ha].
    rewrite (IH Ha). f_equal. rewrite append_assoc'. by rewrite append_cons, append_nil_l.
Qed.

Lemma split_from_key_end a d sep acc :
  is_key a = true → key_char d = false →
  split_from (String d sep) 0 acc a = [acc +:+ a].
Proof.
  intros Ha Hd. rewrite <- (append_nil_r a) at 1.
  by rewrite split_from_key.
Qed.

Lemma includes_key a d sep rest :
  is_key a = true → key_char d = false →
  includes (a +:+ rest) (String d sep) = includes rest (String d sep).
Proof.
  intros Ha Hd. induction a as [|c a IH]; [done|].
  rewrite append_cons. cbn [includes].
  rewrite <- append_cons, (startsWith_in_key c a rest d sep Ha Hd).
  cbn [is_key] in Ha. apply andb_true_iff in Ha as [_ Ha]. by rewrite (IH Ha).
Qed.

Lemma includes_key_end a d sep :
  is_key a = true → key_char d = false → includes a (String d sep) = false.
Proof.
  intros Ha Hd. rewrite <- (append_nil_r a). by rewrite includes_key.
Qed.

Lemma startsWith_key_bang a : is_key a = true → startsWith a "!" = false.
Proof.
  destruct a as [|c a]; [done|]. intros Ha.
  rewrite <- (append_nil_r (String c a)). by apply startsWith_in_key.
Qed.

Lemma key_char_not_space c : key_char c = true → is_space c = false.
Proof.
  unfold key_char. intros H. repeat apply andb_true_iff in H as [H _].
  by apply negb_true_iff in H.
Qed.

Lemma trimEnd_key a : is_key a = true → trimEnd a = a.
Proof.
  induction a as [|c a IH]; [done|]. cbn [is_key]. intros [Hc Ha]%andb_true_iff.
  cbn [trimEnd]. rewrite (IH Ha). destruct a; [|done].
  by rewrite (key_char_not_space c Hc).
Qed.

Lemma trim_key a : is_key a = true → trim a = a.
Proof.
  intros Ha. unfold trim. destruct a as [|c a]; [done|].
  cbn [trimStart]. pose proof Ha as Ha'. cbn [is_key] in Ha'.
  apply andb_true_iff in Ha' as [Hc _]. rewrite (key_char_not_space c Hc).
  by apply trimEnd_key.
Qed.

Lemma trimEnd_key_space a : is_key a = true → trimEnd (a +:+ " ") = a.
Proof.
  induction a as [|c a IH]; [done|]. cbn [is_key]. intros [Hc Ha]%andb_true_iff.
  rewrite append_cons. cbn [trimEnd]. rewrite (IH Ha). destruct a; [|done].
  by rewrite (key_char_not_space c Hc).
Qed.

Lemma trim_key_space a : is_key a = true → trim (a +:+ " ") = a.
Proof.
  intros Ha. unfold trim. destruct a as [|c a]; [done|].
  rewrite append_cons. cbn [trimStart]. pose proof Ha as Ha'. cbn [is_key] in Ha'.
  apply andb_true_iff in Ha' as [Hc _]. rewrite (key_char_not_space c Hc).
  rewrite <- append_cons. by apply trimEnd_key_space.
Qed.

Lemma trim_space_key b : is_key b = true → trim (" " +:+ b) = b.
Proof. intros Hb. change (trim (" " +:+ b)) with (trim b). by apply trim_key. Qed.

(** A key is looked up. *)
Lemma evaluateWhen_fuel_key fuel k :
  is_key k = true → evaluateWhen_fuel context (S fuel) k = Some (lookup_flag context k).
Proof.
  intros Hk. cbn [evaluateWhen_fuel].
  rewrite (startsWith_key_bang k Hk).
  by rewrite !includes_key_end.
Qed.

(** Two keys joined by [" && "] or by [" || "]: the conjunction and the
    disjunction of their flags. *)
Lemma evaluateWhen_two_keys a b :
  is_key a = true → is_key b = true →
  evaluateWhen context (a +:+ " && " +:+ b)
  = Some (WBool (passes (lookup_flag context a) && passes (lookup_flag context b)))
  ∧ evaluateWhen context (a +:+ " || " +:+ b)
    = Some (WBool (passes (lookup_flag context a) || passes (lookup_flag context b))).
Proof.
  intros Ha Hb.
  assert (∀ rest, startsWith (a +:+ String " " rest) "!" = false) as Hbang.
  { intros rest. destruct a as [|c a]; [done|]. by apply startsWith_in_key. }
  split; unfold evaluateWhen.
  - change (" && " +:+ b) with (String " " (String "&" (String "&" (String " " b)))).
    rewrite length_append'. cbn [String.length evaluateWhen_fuel]. rewrite Hbang.
    rewrite (includes_key a "&" "&") by done.
    cbn [includes startsWith Ascii.eqb Bool.eqb andb orb].
    unfold split. rewrite (split_from_key a "&" "&") by done.
    cbn [split_from startsWith Ascii.eqb Bool.eqb andb String.length Nat.sub].
    rewrite (split_from_key_end b "&" "&") by done.
    cbn [foldr]. rewrite !append_nil_l.
    rewrite (trim_key_space a Ha), (trim_space_key b Hb). rewrite Nat.add_succ_r.
    rewrite !evaluateWhen_fuel_key by done.
    by destruct (passes (lookup_flag context a)), (passes (lookup_flag context b)).
  - change (" || " +:+ b) with (String " " (String "|" (String "|" (String " " b)))).
    rewrite length_append'. cbn [String.length evaluateWhen_fuel]. rewrite Hbang.
    rewrite (includes_key a "&" "&") by done.
    cbn [includes startsWith Ascii.eqb Bool.eqb andb orb].
    rewrite (includes_key_end b "&" "&") by done.
    rewrite (includes_key a "|" "|") by done.
    cbn [includes startsWith Ascii.eqb Bool.eqb andb orb].
    unfold split. rewrite (split_from_key a "|" "|") by done.
    cbn [split_from startsWith Ascii.eqb Bool.eqb andb String.length Nat.sub].
    rewrite (split_from_key_end b "|" "|") by done.
    cbn [foldr]. rewrite !append_nil_l.
    rewrite (trim_key_space a Ha), (trim_space_key b Hb). rewrite Nat.add_succ_r.
    rewrite !evaluateWhen_fuel_key by done.
    by destruct (passes (lookup_flag context a)), (passes (lookup_flag context b)).
Qed.

End WhenClauseKeys.

(** C6 at its failing input. With [a] true and [b] false, the sub-expressions
    [!a] and [b] are both false, and so is their conjunction written with
    [b] first; written with [!a] first, the clause starts with ['!'], the
    negation test comes before the split, the whole rest is looked up as one
    key, which is absent, and the clause evaluates to true. The same happens
    with ['||']. *)
Theorem evaluateWhen_negation_first :
  let context : gmap string bool := {[ "a" := true; "b" := false ]} in
  WhenClause.evaluateWhen context "!a" = Some false
  ∧ WhenClause.evaluateWhen context "b" = Some false
  ∧ WhenClause.evaluateWhen context "b && !a" = Some false
  ∧ WhenClause.evaluateWhen context "!a && b" = Some true
  ∧ WhenClause.evaluateWhen context "b || !a" = Some false
  ∧ WhenClause.evaluateWhen context "!a || b" = Some true.
Proof. split_and!; vm_compute; reflexivity. Qed.

(** A registry made without an evaluator takes every when-clause as
    satisfied: a registered command is available, and the when-check of
    [execute] passes, whatever its [when] string. *)
Lemma no_evaluator_permissive config st id command :
  evaluateWhen config = None → get st id = Some (Own command) →
  isAvailable config st id = Ok true ∧ when_rejected config command = Ok false.
Proof.
  unfold isAvailable, when_rejected, the_evaluateWhen. intros -> ->. simpl.
  split; by destruct (str_truthy (when command)).
Qed.

(** * Further properties of the code *)

(** ** The store: bulk registration, removal, owners *)

Section StoreMore.
Implicit Types (m : gmap string CommandDefinition) (defs : list CommandDefinition)
  (st : RegistryState).




(** On a key of the batch, what the loop of assignments binds does not
    depend on the map it started from. *)
Lemma lookup_insert_all_same defs m1 m2 k :
  k ∈ map cmd_id defs → insert_all defs m1 !! k = insert_all defs m2 !! k.
Proof.
  revert m1 m2. induction defs as [|d defs IH]; intros m1 m2 Hk; simpl in *.
  - by apply elem_of_nil in Hk.
  - change (insert_all (d :: defs) m1) with (insert_all defs (<[cmd_id d:=d]> m1)).
    change (insert_all (d :: defs) m2) with (insert_all defs (<[cmd_id d:=d]> m2)).
    destruct (decide (k ∈ map cmd_id defs)) as [Hin|Hnin]; [by apply IH|].
    apply elem_of_cons in Hk as [->|?]; [|done].
    by rewrite !lookup_insert_all_notin, !lookup_insert_eq.
Qed.


End StoreMore.


(** A batch that holds a definition whose id is ['constructor'] is
    rejected on a registry that holds nothing, and nothing is
    registered. *)
Example registerAll_inherited_id :
  registerAll [makeCommand "a" succeed; makeCommand "constructor" succeed] initialState
  = (Err (already_registered "constructor"), initialState).
Proof. reflexivity. Qed.


(** On a registry that holds nothing, [unregister('constructor')] answers
    [true]. *)
Example unregister_inherited_id :
  unregister "constructor" initialState = (true, initialState).
Proof. reflexivity. Qed.





Lemma replaced_twice (o : string) (defs : list CommandDefinition) (st : RegistryState) :
  replaced o defs (replaced o defs st) = replaced o defs st.
Proof.
  unfold replaced at 1. rewrite owners_replaced.
  cbn [default from_option id].
  unfold replaced. cbn [commands owners]. f_equal.
  - apply map_eq. intros k.
    destruct (decide (k ∈ map cmd_id defs)) as [Hin|Hnin].
    + by apply lookup_insert_all_same.
    + rewrite !lookup_insert_all_notin by done.
      rewrite (lookup_delete_ids (map cmd_id defs)), decide_False by done.
      by rewrite lookup_insert_all_notin.
  - apply insert_insert_eq.
Qed.

(** X5. [registerForOwner] is idempotent, as its interface says, for an
    owner name and ids that no object inherits: doing the same
    registration twice succeeds twice, and after the second every id is
    bound as after the first, the owner records are the same and so is the
    size. (The order of the keys, which [list()] shows, is no part of
    this: the second call deletes the ids and adds them again.) *)
Theorem registerForOwner_idempotent (o : string) (defs : list CommandDefinition)
    (st : RegistryState) :
  inherited o = false → plain_ids defs = true →
  ∃ st1 st2,
    registerForOwner o defs st = Some (Ok tt, st1)
    ∧ registerForOwner o defs st1 = Some (Ok tt, st2)
    ∧ (∀ i, get st2 i = get st1 i)
    ∧ owners st2 = owners st1
    ∧ registry_size st2 = registry_size st1.
Proof.
  intros Ho Hd. exists (replaced o defs st), (replaced o defs (replaced o defs st)).
  split; [by apply registerForOwner_plain|].
  split; [by apply registerForOwner_plain|].
  rewrite replaced_twice. done.
Qed.

Lemma registerForOwner_idempotent_witness :
  ∃ st1 st2,
    registerForOwner "panel" [makeCommand "x" succeed; makeCommand "y" succeed]
      (registered [makeCommand "x" boom]) = Some (Ok tt, st1)
    ∧ registerForOwner "panel" [makeCommand "x" succeed; makeCommand "y" succeed] st1
      = Some (Ok tt, st2)
    ∧ (∀ i, get st2 i = get st1 i)
    ∧ owners st2 = owners st1
    ∧ registry_size st2 = registry_size st1.
Proof.
  apply (registerForOwner_idempotent "panel"
           [makeCommand "x" succeed; makeCommand "y" succeed]
           (registered [makeCommand "x" boom])); reflexivity.
Defined.





(** Registering an empty batch under an owner leaves an empty record that
    [unregisterForOwner] does not remove. *)
Lemma registerForOwner_empty_record (o : string) (st : RegistryState) :
  inherited o = false →
  ∃ st1 st2, registerForOwner o [] st = Some (Ok tt, st1)
             ∧ unregisterForOwner o st1 = (Ok tt, st2)
             ∧ owners st2 !! o = Some [].
Proof.
  intros Ho. exists (replaced o [] st), (released o (replaced o [] st)).
  split; [by apply registerForOwner_plain|].
  split; [by apply unregisterForOwner_plain|].
  unfold released. rewrite owners_replaced. cbn [default from_option id].
  cbn [map length Nat.eqb]. apply owners_replaced.
Qed.

(** ** Availability and the when-guard of [execute] *)

Section TraceGrows.
Variable config : RegistryConfig.
Variables (command : CommandDefinition) (params : JsVal) (context : CommandContext).

Lemma run_act_grows {R} (p : Act R) tr o tr' :
  run_act p tr = (o, tr') → length tr ≤ length tr'.
Proof.
  rewrite run_act_spec. intros H; inversion H; subst. rewrite length_app. lia.
Qed.

Lemma run_mw_grows (nxt : Step) :
  (∀ st o st', nxt st = Some (o, st') → length (trace st) ≤ length (trace st')) →
  ∀ p st o st', run_mw nxt p st = Some (o, st') → length (trace st) ≤ length (trace st').
Proof.
  intros Hnxt. induction p as [r|e|line k IH|onResult IHr onThrow IHt];
    intros st o st' E; simpl in E.
  - by inversion E; subst.
  - by inversion E; subst.
  - apply IH in E. simpl in E. rewrite length_app in E. simpl in E. lia.
  - destruct (nxt st) as [[[r|e] st1]|] eqn:E1; [| |done].
    + apply Hnxt in E1. apply IHr in E. lia.
    + apply Hnxt in E1. apply IHt in E. lia.
Qed.

Lemma next_grows (fuel : nat) :
  ∀ st o st', next config fuel command params context st = Some (o, st') →
    length (trace st) < length (trace st').
Proof.
  induction fuel as [|fuel IH]; intros st o st' E; simpl in E; [done|].
  destruct (the_middleware config !! index st) as [mw|].
  - eapply run_mw_grows in E.
    + simpl in E. rewrite length_app in E. simpl in E. lia.
    + intros st1 o1 st1' E1. apply IH in E1. lia.
  - destruct (run_act _ _) as [o1 tr1] eqn:E1. apply run_act_grows in E1.
    inversion E; subst. simpl. rewrite length_app in E1. simpl in E1. lia.
Qed.

(** A run of the chain is always observed: at least one call is recorded. *)
Lemma runMiddleware_observed o tr :
  runMiddleware config command params context = Some (o, tr) → tr ≠ [].
Proof.
  unfold runMiddleware. destruct (next _ _ _ _ _ _) as [[o1 st1]|] eqn:E; [|done].
  intros H; inversion H; subst. apply next_grows in E. simpl in E.
  intros Hnil. rewrite Hnil in E. simpl in E. lia.
Qed.

End TraceGrows.

(** X8. [isAvailable] and the when-guard of [execute] agree. For an id
    under which the read of the store finds nothing, [isAvailable] is false;
    under a name every object inherits it is true, whatever the evaluator
    says. For a registered id, [isAvailable] is false exactly when
    [execute] stops at the when-guard, that is, returns the not-available
    failure with nothing invoked; and when [isAvailable] throws, what the
    evaluator threw, [execute] is rejected with the same error. *)
Theorem isAvailable_iff_when_guard (config : RegistryConfig) (st : RegistryState)
    (id : string) (params : JsVal) (overrides : option CommandContext) :
  match get st id with
  | None => isAvailable config st id = Ok false
  | Some (Inherited _) => isAvailable config st id = Ok true
  | Some (Own command) =>
      (isAvailable config st id = Ok false
       ↔ execute config st id params overrides
         = Some (Ok (not_available id (default EmptyString (when command))), []))
      ∧ (∀ e, isAvailable config st id = Err e →
           execute config st id params overrides = Some (Err e, []))
  end.
Proof.
  unfold isAvailable, execute. destruct (get st id) as [[command|k]|]; [|done|done].
  assert (∀ tail : option (Outcome CommandResult * list Event),
            tail = match call_contextProvider config with
                   | Err e => Some (Err e, [])
                   | Ok _ =>
                       match enabled_rejected command (execute_context config overrides) with
                       | Err e => Some (Err e, [])
                       | Ok true => Some (Ok (disabled id), [])
                       | Ok false =>
                           match runMiddleware config command (params_or_empty params)
                                   (execute_context config overrides) with
                           | Some (Ok r, tr) => Some (Ok r, tr)
                           | Some (Err err, tr) =>
                               match error_text err with
                               | Ok text => Some (Ok (failed id text), tr)
                               | Err e => Some (Err e, tr)
                               end
                           | None => None
                           end
                       end
                   end →
            tail ≠ Some (Ok (not_available id (default EmptyString (when command))), []))
    as Htail.
  { intros tail -> H.
    destruct (call_contextProvider config); [|done].
    destruct (enabled_rejected command _) as [[|]|]; [| |done].
    - inversion H as [Hmsg]. repeat apply String.app_inj in Hmsg.
      cbv in Hmsg. discriminate.
    - destruct (runMiddleware _ _ _ _) as [[[res|err] tr]|] eqn:E; [| |done].
      + apply runMiddleware_observed in E. by inversion H; subst.
      + apply runMiddleware_observed in E.
        destruct (error_text err); by inversion H; subst. }
  unfold when_rejected. destruct (str_truthy (when command)); simpl.
  - destruct (the_evaluateWhen config _) as [[|]|]; simpl.
    + split; [|done]. split; [done|]. intros H. exfalso. by eapply Htail.
    + done.
    + split; [done|]. by intros e' [= ->].
  - split; [|done]. split; [done|]. intros H. exfalso. by eapply Htail.
Qed.

(** On a registry that holds nothing and whose evaluator rejects every
    clause, ['constructor'] is available. *)
Example isAvailable_inherited_id :
  isAvailable {| middleware := None; evaluateWhen := Some (λ _, Ok false);
                 contextProvider := None |} initialState "constructor"
  = Ok true.
Proof. reflexivity. Qed.

(** ** The execution context: what [buildContext] guarantees *)

Lemma merge_context_keys config overrides :
  is_Some (merge_context config overrides !! "store")
  ∧ is_Some (merge_context config overrides !! "source").
Proof.
  unfold merge_context. split.
  - apply lookup_union_is_Some. right. by eexists.
  - apply lookup_union_is_Some. right. by eexists.
Qed.

Lemma read_insert_eq (m : CommandContext) k v : read (<[k:=v]> m) k = v.
Proof. unfold read. by rewrite lookup_insert_eq. Qed.

Lemma read_insert_ne (m : CommandContext) k j v : k ≠ j → read (<[k:=v]> m) j = read m j.
Proof. intros H. unfold read. by rewrite lookup_insert_ne. Qed.

(** X9. Every context [buildContext] returns has a [store] and a [source]
    key; if its [source] is not 'unknown' it has a truthy [invocation]; and
    the sync of [source] and [invocation] has nothing left to do on it
    (running it again changes nothing). *)
Theorem buildContext_synced (config : RegistryConfig) (overrides : option CommandContext) :
  let ctx := buildContext config overrides in
  is_Some (ctx !! "store")
  ∧ is_Some (ctx !! "source")
  ∧ (is_unknown (read ctx "source") = false → truthy (read ctx "invocation") = true)
  ∧ sync_source ctx = ctx.
Proof.
  intros ctx. unfold ctx, buildContext.
  destruct (merge_context_keys config overrides) as [Hstore Hsource].
  generalize dependent (merge_context config overrides). intros merged Hstore Hsource.
  unfold sync_source.
  destruct (truthy (read merged "invocation")) eqn:Hinv,
           (is_unknown (read merged "source")) eqn:Hsrc; cbn [andb negb].
  - rewrite ?read_insert_eq.
    rewrite !(read_insert_ne _ "source" "invocation") by done.
    rewrite Hinv. cbn [andb negb]. split_and!.
    + by rewrite lookup_insert_ne.
    + rewrite lookup_insert_eq. by eexists.
    + done.
    + destruct (is_unknown (get_prop (read merged "invocation") "surface")); cbn [andb negb].
      * apply insert_insert_eq.
      * done.
  - rewrite Hinv, Hsrc. cbn [andb negb]. split_and!; done.
  - rewrite Hinv, Hsrc. cbn [andb negb]. split_and!; done.
  - rewrite ?read_insert_eq.
    rewrite !(read_insert_ne _ "invocation" "source") by done.
    rewrite Hsrc. cbn [andb negb truthy]. split_and!.
    + by rewrite lookup_insert_ne.
    + by rewrite lookup_insert_ne.
    + done.
    + done.
Qed.

(** X10. A [source] given by the context provider never reaches a command
    through [execute]: when the caller's overrides do not name [source],
    the context's [source] is the surface of the merged [invocation] when
    there is a truthy one, and 'unknown' otherwise, whatever [source] the
    provider returned. *)
Theorem execute_drops_provider_source (config : RegistryConfig)
    (overrides : option CommandContext) :
  default ∅ overrides !! "source" = None →
  read (execute_context config overrides) "source"
  = let invocation := read (default ∅ overrides ∪ the_contextProvider config tt) "invocation" in
    if truthy invocation then get_prop invocation "surface" else JStr "unknown".
Proof.
  intros Hnone. unfold execute_context, buildContext.
  set (merged := merge_context config _).
  assert (read merged "source" = JStr "unknown") as Hsrc.
  { unfold merged, merge_context, read. cbn [default from_option id].
    erewrite lookup_union_Some_l; [done|]. apply lookup_union_Some_l.
    rewrite lookup_union_r by done. apply lookup_singleton_eq. }
  assert (read merged "invocation"
          = read (default ∅ overrides ∪ the_contextProvider config tt) "invocation") as Hinv.
  { unfold merged, merge_context, read. cbn [default from_option id]. f_equal.
    rewrite <- !(assoc_L (∪)).
    destruct (default ∅ overrides !! "invocation") as [v|] eqn:E.
    - by rewrite !(lookup_union_Some_l _ _ _ v).
    - rewrite !(lookup_union_r (default ∅ overrides)) by done.
      rewrite (lookup_union_r {[ "source" := JStr "unknown" ]})
        by (by apply lookup_singleton_ne).
      destruct (the_contextProvider config tt !! "invocation") as [v|] eqn:E'.
      + by rewrite (lookup_union_Some_l _ _ _ v).
      + rewrite lookup_union_r by done. by rewrite lookup_insert_ne, lookup_singleton_ne. }
  cbv zeta. rewrite <- Hinv. unfold sync_source. rewrite Hsrc.
  change (is_unknown (JStr "unknown")) with true.
  destruct (truthy (read merged "invocation")); simpl.
  - apply read_insert_eq.
  - exact Hsrc.
Qed.

Lemma execute_drops_provider_source_witness :
  read (execute_context (withProvider {[ "source" := JStr "palette" ]}) None) "source"
  = let invocation :=
      read (default ∅ None ∪ the_contextProvider (withProvider {[ "source" := JStr "palette" ]}) tt)
        "invocation" in
    if truthy invocation then get_prop invocation "surface" else JStr "unknown".
Proof.
  apply (execute_drops_provider_source (withProvider {[ "source" := JStr "palette" ]}) None).
  reflexivity.
Defined.

(** ** The chain: composition, and how often the handler runs *)

Section InFront.
Variables (config config' : RegistryConfig) (m : CommandMiddleware).
Hypothesis Hcfg : the_middleware config' = m :: the_middleware config.
Variables (command : CommandDefinition) (params : JsVal) (context : CommandContext).

Lemma shift_event_logs ls : map shift_event (map EvLog ls) = map EvLog ls.
Proof. induction ls as [|l ls IH]; [done|]. simpl. by rewrite IH. Qed.

Lemma outer_push pre st ev :
  {| index := index (outer pre st); trace := trace (outer pre st) ++ [shift_event ev] |}
  = outer pre {| index := index st; trace := trace st ++ [ev] |}.
Proof. unfold outer. simpl. by rewrite map_app, app_assoc. Qed.

Lemma run_mw_outer (nxt nxt' : Step) pre :
  (∀ st, nxt' (outer pre st) = outer_result pre (nxt st)) →
  ∀ p st, run_mw nxt' p (outer pre st) = outer_result pre (run_mw nxt p st).
Proof.
  intros Hnxt. induction p as [r|e|line k IH|onResult IHr onThrow IHt]; intros st; simpl.
  - done.
  - done.
  - rewrite <- IH. f_equal. apply (outer_push pre st (EvLog line)).
  - rewrite Hnxt. destruct (nxt st) as [[[r|e] st1]|]; simpl; [apply IHr|apply IHt|done].
Qed.

(** With one more middleware in front, the rest of the chain runs as it
    does without it, one position further out. *)
Lemma next_outer pre fuel :
  ∀ st, next config' fuel command params context (outer pre st)
        = outer_result pre (next config fuel command params context st).
Proof.
  induction fuel as [|fuel IH]; intros st; [done|]. cbn [next].
  rewrite Hcfg. change ((m :: the_middleware config) !! index (outer pre st))
    with (the_middleware config !! index st).
  destruct (the_middleware config !! index st) as [mw|].
  - rewrite <- (run_mw_outer _ _ pre IH). f_equal.
    unfold outer. simpl. by rewrite map_app, app_assoc.
  - rewrite !run_act_spec. simpl. unfold outer. simpl. do 2 f_equal.
    rewrite !map_app, shift_event_logs. simpl. by rewrite !app_assoc.
Qed.

End InFront.

Lemma next_S (config : RegistryConfig) (fuel : nat) (command : CommandDefinition)
    (params : JsVal) (context : CommandContext) (st : PipeState) :
  next config (S fuel) command params context st
  = match the_middleware config !! index st with
    | Some mw =>
        run_mw (next config fuel command params context)
               (mw command params context)
               {| index := S (index st);
                  trace := trace st ++ [EvMiddleware (index st) params context] |}
    | None =>
        let '(o, tr) :=
          run_act (cmd_execute command params context)
                  (trace st ++ [EvHandler (cmd_id command) params context]) in
        Some (o, {| index := index st; trace := tr |})
    end.
Proof. reflexivity. Qed.

(** X11. [errorBoundaryMiddleware] in front of any array of middlewares:
    the chain runs the rest as it runs without the boundary, one position
    further out. A result comes back unchanged. An error thrown anywhere
    in the rest comes back, after one logged line, as the failure whose
    message is the message of a thrown [Error] and otherwise the string the
    thrown value converts to. A thrown object whose [toString] is not
    callable converts to none: the boundary then logs nothing and throws
    the TypeError of the conversion. *)
Theorem errorBoundary_in_front (config config' : RegistryConfig)
    (command : CommandDefinition) (params : JsVal) (context : CommandContext) :
  the_middleware config' = errorBoundaryMiddleware :: the_middleware config →
  let failure (text : string) : CommandResult :=
    {| success := false; message := Some text; data := None |} in
  let front (tr : list Event) : list Event :=
    EvMiddleware 0 params context :: map shift_event tr in
  let logged (tr : list Event) : list Event :=
    front tr ++ [EvLog ("[wrapex] Error in " +:+ dq +:+ cmd_id command +:+ dq +:+ ":")] in
  ∃ o tr,
    runMiddleware config command params context = Some (o, tr)
    ∧ runMiddleware config' command params context
      = Some (match o with
              | Ok r => (Ok r, front tr)
              | Err (JsError msg) => (Ok (failure msg), logged tr)
              | Err (JsZodError e) => (Ok (failure (zod_message e)), logged tr)
              | Err (JsThrown JUndefined) => (Ok (failure "undefined"), logged tr)
              | Err (JsThrown JNull) => (Ok (failure "null"), logged tr)
              | Err (JsThrown (JBool true)) => (Ok (failure "true"), logged tr)
              | Err (JsThrown (JBool false)) => (Ok (failure "false"), logged tr)
              | Err (JsThrown (JStr text)) => (Ok (failure text), logged tr)
              | Err (JsThrown (JObj fields)) =>
                  match assoc "toString" fields with
                  | None => (Ok (failure "[object Object]"), logged tr)
                  | Some _ =>
                      (Err (JsError "Cannot convert object to primitive value"), front tr)
                  end
              end).
Proof.
  intros H failure front logged.
  destruct (runMiddleware_total config command params context) as (o & tr & E).
  exists o, tr. split; [done|]. unfold runMiddleware in *.
  rewrite H. cbn [length]. rewrite next_S, H.
  change ((errorBoundaryMiddleware :: the_middleware config) !! index {| index := 0; trace := [] |})
    with (Some errorBoundaryMiddleware).
  unfold errorBoundaryMiddleware. cbn [run_mw index trace].
  change {| index := 1; trace := [] ++ [EvMiddleware 0 params context] |}
    with (outer [EvMiddleware 0 params context] {| index := 0; trace := [] |}).
  rewrite (next_outer config config' _ H).
  destruct (next config _ _ _ _ _) as [[o1 st1]|]; [|done].
  inversion E; subst.
  destruct o as [res|[msg|e|[| |[|]|text|fields]]]; try done.
  cbn [outer_result error_text js_String].
  by destruct (assoc "toString" fields).
Qed.

Lemma errorBoundary_in_front_witness :
  runMiddleware (withMiddleware [errorBoundaryMiddleware])
    (makeCommand "test.boom" boom) (JObj []) ∅
  = Some (Ok {| success := false; message := Some "boom"; data := None |},
          [EvMiddleware 0 (JObj []) ∅; EvHandler "test.boom" (JObj []) ∅;
           EvLog ("[wrapex] Error in " +:+ dq +:+ "test.boom" +:+ dq +:+ ":")]).
Proof.
  destruct (errorBoundary_in_front noConfig (withMiddleware [errorBoundaryMiddleware])
              (makeCommand "test.boom" boom) (JObj []) ∅ eq_refl)
    as (o & tr & Hrun & Hfront).
  vm_compute in Hrun. inversion Hrun; subst o tr. exact Hfront.
Defined.

(** The boundary does not catch what it cannot print. *)
Example errorBoundary_unprintable :
  runMiddleware (withMiddleware [errorBoundaryMiddleware])
    (makeCommand "test.throw" unprintable) (JObj []) ∅
  = Some (Err (JsError "Cannot convert object to primitive value"),
          [EvMiddleware 0 (JObj []) ∅; EvHandler "test.throw" (JObj []) ∅]).
Proof. reflexivity. Qed.

(** X12. The confirmation middleware in front of any array of middlewares.
    When the top-level [requiresConfirmation] is not truthy the predicate is
    not called and the rest of the chain runs; when it is truthy the
    predicate is awaited first: if it answers true the rest of the chain
    runs, if it answers false the result is the cancelled result, and if it
    throws the chain throws that error; in the last two cases no later
    middleware and no handler is invoked. *)
Theorem confirmation_in_front (confirmFn : CommandDefinition → Act bool)
    (config config' : RegistryConfig)
    (command : CommandDefinition) (params : JsVal) (context : CommandContext) :
  the_middleware config' = createConfirmationMiddleware confirmFn :: the_middleware config →
  ∃ o tr,
    runMiddleware config command params context = Some (o, tr)
    ∧ runMiddleware config' command params context
      = Some (if flag_truthy (requiresConfirmation command)
              then
                let asked := EvMiddleware 0 params context
                               :: map EvLog (act_logs (confirmFn command)) in
                match act_outcome (confirmFn command) with
                | Ok true => (o, asked ++ map shift_event tr)
                | Ok false => (Ok cancelled, asked)
                | Err err => (Err err, asked)
                end
              else (o, EvMiddleware 0 params context :: map shift_event tr)).
Proof.
  intros H.
  destruct (runMiddleware_total config command params context) as (o & tr & E).
  exists o, tr. split; [done|]. unfold runMiddleware in *.
  rewrite H. cbn [length]. rewrite next_S, H.
  change ((createConfirmationMiddleware confirmFn :: the_middleware config)
            !! index {| index := 0; trace := [] |})
    with (Some (createConfirmationMiddleware confirmFn)).
  unfold createConfirmationMiddleware. cbn [index trace].
  destruct (flag_truthy (requiresConfirmation command)).
  - rewrite run_mw_await. cbn [index trace].
    destruct (act_outcome (confirmFn command)) as [[|]|err]; [|done|done].
    unfold call_next. cbn [run_mw].
    replace {| index := 1;
               trace := ([] ++ [EvMiddleware 0 params context])
                          ++ map EvLog (act_logs (confirmFn command)) |}
      with (outer (EvMiddleware 0 params context :: map EvLog (act_logs (confirmFn command)))
              {| index := 0; trace := [] |})
      by (unfold outer; simpl; by rewrite app_nil_r).
    rewrite (next_outer config config' _ H).
    destruct (next config _ _ _ _ _) as [[o1 st1]|]; [|done].
    inversion E; subst. by destruct o.
  - unfold call_next. cbn [run_mw].
    change {| index := 1; trace := [] ++ [EvMiddleware 0 params context] |}
      with (outer [EvMiddleware 0 params context] {| index := 0; trace := [] |}).
    rewrite (next_outer config config' _ H).
    destruct (next config _ _ _ _ _) as [[o1 st1]|]; [|done].
    inversion E; subst. by destruct o.
Qed.

Lemma confirmation_in_front_witness :
  ∃ o tr,
    runMiddleware noConfig (confirmable "doc.delete" (Some true) None succeed) (JObj []) ∅
    = Some (o, tr)
    ∧ runMiddleware (withMiddleware [createConfirmationMiddleware decline])
        (confirmable "doc.delete" (Some true) None succeed) (JObj []) ∅
      = Some (if flag_truthy
                   (requiresConfirmation (confirmable "doc.delete" (Some true) None succeed))
              then
                let asked :=
                  EvMiddleware 0 (JObj []) ∅
                    :: map EvLog (act_logs (decline
                                    (confirmable "doc.delete" (Some true) None succeed))) in
                match act_outcome (decline (confirmable "doc.delete" (Some true) None succeed)) with
                | Ok true => (o, asked ++ map shift_event tr)
                | Ok false => (Ok cancelled, asked)
                | Err err => (Err err, asked)
                end
              else (o, EvMiddleware 0 (JObj []) ∅ :: map shift_event tr)).
Proof.
  apply (confirmation_in_front decline noConfig
           (withMiddleware [createConfirmationMiddleware decline])).
  reflexivity.
Defined.

(** X13. The default stack, error boundary then logging then validation,
    on any definition, params and context, whatever the clock reads. The
    three middlewares are entered in this order and the first log line is
    written. If the schema rejects the params, the handler is not invoked
    and the result is the failure carrying the message of the [ZodError].
    Otherwise the handler is invoked, once, with the params as given; its
    result comes back unchanged after the second log line; what it throws
    comes back, the second log line not being written, as the failure that
    carries the message of a thrown [Error] and otherwise the string the
    thrown value converts to; and when the thrown value converts to none,
    the chain throws the TypeError of the conversion. *)
Theorem default_stack (duration : string) (config : RegistryConfig)
    (command : CommandDefinition) (params : JsVal) (context : CommandContext) :
  the_middleware config = createDefaultMiddleware duration →
  let entered := [EvMiddleware 0 params context; EvMiddleware 1 params context;
                  EvLog ("[wrapex] Executing: " +:+ cmd_id command);
                  EvMiddleware 2 params context] in
  let completed := EvLog ("[wrapex] Completed: " +:+ cmd_id command
                          +:+ " (" +:+ duration +:+ "ms)") in
  let caught := EvLog ("[wrapex] Error in " +:+ dq +:+ cmd_id command +:+ dq +:+ ":") in
  let failure (text : string) : CommandResult :=
    {| success := false; message := Some text; data := None |} in
  let handler := cmd_execute command params context in
  let invoked := entered ++ EvHandler (cmd_id command) params context
                   :: map EvLog (act_logs handler) in
  let handled :=
    match act_outcome handler with
    | Ok r => (Ok r, invoked ++ [completed])
    | Err (JsError msg) => (Ok (failure msg), invoked ++ [caught])
    | Err (JsZodError e) => (Ok (failure (zod_message e)), invoked ++ [caught])
    | Err (JsThrown JUndefined) => (Ok (failure "undefined"), invoked ++ [caught])
    | Err (JsThrown JNull) => (Ok (failure "null"), invoked ++ [caught])
    | Err (JsThrown (JBool true)) => (Ok (failure "true"), invoked ++ [caught])
    | Err (JsThrown (JBool false)) => (Ok (failure "false"), invoked ++ [caught])
    | Err (JsThrown (JStr text)) => (Ok (failure text), invoked ++ [caught])
    | Err (JsThrown (JObj fields)) =>
        match assoc "toString" fields with
        | None => (Ok (failure "[object Object]"), invoked ++ [caught])
        | Some _ => (Err (JsError "Cannot convert object to primitive value"), invoked)
        end
    end in
  runMiddleware config command params context
  = Some match schema command with
         | Some s =>
             match safeParse s params with
             | ParseFail error => (Ok (failure (zod_message error)), entered ++ [caught])
             | ParseOk _ => handled
             end
         | None => handled
         end.
Proof.
  intros H. cbv zeta. unfold runMiddleware. rewrite H.
  unfold createDefaultMiddleware at 1. cbn [length].
  rewrite next_S, H. cbn [createDefaultMiddleware lookup list_lookup index trace].
  unfold errorBoundaryMiddleware at 1. cbn [run_mw].
  rewrite next_S, H. cbn [createDefaultMiddleware lookup list_lookup index trace].
  unfold loggingMiddleware at 1. cbn [run_mw index trace].
  rewrite next_S, H. cbn [createDefaultMiddleware lookup list_lookup index trace].
  unfold validationMiddleware at 1, parse.
  assert (run_mw (next config 1 command params context) call_next
            {| index := 3;
               trace := ((([] ++ [EvMiddleware 0 params context])
                            ++ [EvMiddleware 1 params context])
                           ++ [EvLog ("[wrapex] Executing: " +:+ cmd_id command)])
                          ++ [EvMiddleware 2 params context] |}
          = Some (act_outcome (cmd_execute command params context),
                  {| index := 3;
                     trace := [EvMiddleware 0 params context; EvMiddleware 1 params context;
                               EvLog ("[wrapex] Executing: " +:+ cmd_id command);
                               EvMiddleware 2 params context]
                              ++ EvHandler (cmd_id command) params context
                              :: map EvLog (act_logs (cmd_execute command params context)) |}))
    as Hcall.
  { unfold call_next. cbn [run_mw]. rewrite next_S, H.
    cbn [createDefaultMiddleware lookup list_lookup index trace].
    rewrite run_act_spec. by destruct (act_outcome _). }
  assert (∀ body : MwAct,
            body = call_next →
            run_mw (next config 1 command params context) body
              {| index := 3;
                 trace := ((([] ++ [EvMiddleware 0 params context])
                              ++ [EvMiddleware 1 params context])
                             ++ [EvLog ("[wrapex] Executing: " +:+ cmd_id command)])
                            ++ [EvMiddleware 2 params context] |}
            = Some (act_outcome (cmd_execute command params context),
                    {| index := 3;
                       trace := [EvMiddleware 0 params context; EvMiddleware 1 params context;
                                 EvLog ("[wrapex] Executing: " +:+ cmd_id command);
                                 EvMiddleware 2 params context]
                                ++ EvHandler (cmd_id command) params context
                                :: map EvLog (act_logs (cmd_execute command params context)) |}))
    as Hbody by (by intros body ->).
  destruct (schema command) as [s|].
  - destruct (safeParse s params) as [parsed|error].
    + rewrite Hbody by reflexivity.
      destruct (act_outcome (cmd_execute command params context))
        as [res|[msg|e|[| |[|]|text|fields]]];
        cbn [run_mw index trace error_text js_String]; rewrite <- ?app_assoc; try done.
      destruct (assoc "toString" fields);
        cbn [run_mw index trace]; by rewrite <- ?app_assoc.
    + reflexivity.
  - rewrite Hbody by reflexivity.
    destruct (act_outcome (cmd_execute command params context))
      as [res|[msg|e|[| |[|]|text|fields]]];
      cbn [run_mw index trace error_text js_String]; rewrite <- ?app_assoc; try done.
    destruct (assoc "toString" fields);
      cbn [run_mw index trace]; by rewrite <- ?app_assoc.
Qed.

Lemma default_stack_witness :
  runMiddleware (withMiddleware (createDefaultMiddleware "0.1"))
    (makeCommand "test.boom" boom) (JObj []) ∅
  = Some (Ok {| success := false; message := Some "boom"; data := None |},
          [EvMiddleware 0 (JObj []) ∅; EvMiddleware 1 (JObj []) ∅;
           EvLog "[wrapex] Executing: test.boom"; EvMiddleware 2 (JObj []) ∅;
           EvHandler "test.boom" (JObj []) ∅;
           EvLog ("[wrapex] Error in " +:+ dq +:+ "test.boom" +:+ dq +:+ ":")]).
Proof.
  apply (default_stack "0.1" (withMiddleware (createDefaultMiddleware "0.1"))
           (makeCommand "test.boom" boom) (JObj []) ∅).
  reflexivity.
Defined.

Section AtMostOnce.
Variable config : RegistryConfig.
Variables (command : CommandDefinition) (params : JsVal) (context : CommandContext).

(** A body that calls [next()] at most once invokes the handler no more
    often than that one [next()] does. *)
Lemma run_mw_once_bound (nxt : Step) (i : nat) p :
  at_most_once p →
  (∀ st, index st = i →
     ∃ o st', nxt st = Some (o, st')
              ∧ handler_calls (trace st') ≤ handler_calls (trace st) + 1) →
  ∀ st, index st = i →
    ∃ o st', run_mw nxt p st = Some (o, st')
             ∧ handler_calls (trace st') ≤ handler_calls (trace st) + 1.
Proof.
  intros Hp Hnxt. induction Hp as [r|e|line k Hk IH|onResult onThrow Hr Ht];
    intros st Hi; simpl.
  - eexists _, _. split; [reflexivity|lia].
  - eexists _, _. split; [reflexivity|lia].
  - destruct (IH {| index := index st; trace := trace st ++ [EvLog line] |} Hi)
      as (o & st' & E & Hc).
    exists o, st'. split; [done|]. simpl in Hc.
    rewrite handler_calls_app in Hc. change (handler_calls [EvLog line]) with 0 in Hc. lia.
  - destruct (Hnxt st Hi) as (o & st1 & E & Hc). rewrite E.
    destruct o as [r|e].
    + destruct (run_mw_no_next nxt (onResult r) st1 (Hr r)) as (o' & ls & E').
      rewrite E'. eexists _, _. split; [reflexivity|]. simpl.
      rewrite handler_calls_app, handler_calls_map_EvLog. lia.
    + destruct (run_mw_no_next nxt (onThrow e) st1 (Ht e)) as (o' & ls & E').
      rewrite E'. eexists _, _. split; [reflexivity|]. simpl.
      rewrite handler_calls_app, handler_calls_map_EvLog. lia.
Qed.

Lemma next_once_bound (suf : list CommandMiddleware) :
  Forall (λ mw : CommandMiddleware, at_most_once (mw command params context)) suf →
  ∀ pre fuel st,
    the_middleware config = pre ++ suf →
    index st = length pre → length suf < fuel →
    ∃ o st', next config fuel command params context st = Some (o, st')
             ∧ handler_calls (trace st') ≤ handler_calls (trace st) + 1.
Proof.
  intros Hsuf. induction Hsuf as [|mw suf Hmw Hsuf IH]; intros pre fuel st Hcfg Hi Hf;
    (destruct fuel as [|fuel]; [lia|]); rewrite next_S, Hcfg.
  - rewrite app_nil_r.
    destruct (pre !! index st) as [mw|] eqn:E.
    { apply lookup_lt_Some in E. unfold CommandMiddleware in *. lia. }
    rewrite run_act_spec. eexists _, _. split; [reflexivity|]. simpl.
    rewrite !handler_calls_app, handler_calls_map_EvLog.
    change (handler_calls [EvHandler (cmd_id command) params context]) with 1. lia.
  - rewrite Hi, list_lookup_middle by done.
    destruct (run_mw_once_bound (next config fuel command params context)
                (S (length pre)) (mw command params context) Hmw) with
      (st := {| index := S (length pre);
                trace := trace st ++ [EvMiddleware (length pre) params context] |})
      as (o & st' & E & Hc).
    + intros st1 H1. apply (IH (pre ++ [mw])).
      * rewrite Hcfg. by rewrite <- app_assoc.
      * rewrite length_app. simpl. lia.
      * simpl in Hf. lia.
    + done.
    + exists o, st'. split; [done|]. simpl in Hc.
      rewrite handler_calls_app in Hc.
      change (handler_calls [EvMiddleware (length pre) params context]) with 0 in Hc. lia.
Qed.

End AtMostOnce.

(** X14. When every configured middleware calls [next()] at most once for
    the call at hand, the chain settles and the handler is invoked at most
    once. *)
Theorem handler_at_most_once (config : RegistryConfig)
    (command : CommandDefinition) (params : JsVal) (context : CommandContext) :
  Forall (λ mw : CommandMiddleware, at_most_once (mw command params context))
         (the_middleware config) →
  ∃ o tr, runMiddleware config command params context = Some (o, tr)
          ∧ handler_calls tr ≤ 1.
Proof.
  intros H. unfold runMiddleware.
  destruct (next_once_bound config command params context (the_middleware config) H []
              (S (length (the_middleware config))) {| index := 0; trace := [] |})
    as (o & st' & E & Hc); [done|done|lia|].
  rewrite E. exists o, (trace st'). split; [done|]. simpl in Hc. exact Hc.
Qed.

Lemma handler_at_most_once_witness :
  ∃ o tr,
    runMiddleware
      (withMiddleware [errorBoundaryMiddleware; createConfirmationMiddleware accept;
                       validationMiddleware])
      (withSchema "user.greet" nameWithDefault echo) (JObj []) ∅ = Some (o, tr)
    ∧ handler_calls tr ≤ 1.
Proof.
  apply (handler_at_most_once
           (withMiddleware [errorBoundaryMiddleware; createConfirmationMiddleware accept;
                            validationMiddleware])).
  destruct (stock_middlewares_once (withSchema "user.greet" nameWithDefault echo)
              (JObj []) ∅ accept {| catchErrors := None |}) as (Hb & Hv & _ & Hc).
  constructor; [exact Hb|]. constructor; [exact Hc|]. constructor; [exact Hv|].
  constructor.
Defined.

(** X15. Without [catchErrors], or with [catchErrors: false], the middleware
    [createValidationMiddleware] makes behaves as [validationMiddleware] on
    every definition, params and context. *)
Theorem createValidationMiddleware_default (config : ValidationConfig)
    (command : CommandDefinition) (params : JsVal) (context : CommandContext) :
  default false (catchErrors config) = false →
  createValidationMiddleware config command params context
  = validationMiddleware command params context.
Proof.
  intros H. unfold createValidationMiddleware, validationMiddleware. rewrite H.
  destruct (schema command) as [s|]; [|done]. by destruct (parse s params).
Qed.

Lemma createValidationMiddleware_default_witness :
  createValidationMiddleware {| catchErrors := None |}
    (withSchema "user.greet" nameWithDefault echo) (JStr "Ada") ∅
  = validationMiddleware (withSchema "user.greet" nameWithDefault echo) (JStr "Ada") ∅.
Proof.
  apply (createValidationMiddleware_default {| catchErrors := None |}). reflexivity.
Defined.

(** ** define-command.ts: the resolved policy metadata *)

(** X16. Resolved metadata is complete: a definition that carries the
    resolved metadata of another definition as its own [metadata] resolves
    to exactly that metadata, whatever its top-level [requiresConfirmation]
    says, so resolving twice gives what resolving once gives. *)
Theorem resolveMetadata_closed (def def' : CommandDefinition) :
  metadata def' = Some (resolveMetadata def) →
  resolveMetadata def' = resolveMetadata def.
Proof.
  intros H. unfold resolveMetadata, meta_field. rewrite H. reflexivity.
Qed.

Lemma resolveMetadata_closed_witness :
  resolveMetadata
    {| cmd_id := "doc.open"; label := "Open"; category := "Doc"; description := None;
       schema := None; keybinding := None; when := None;
       requiresConfirmation := Some true; tags := None;
       metadata := Some (resolveMetadata (makeCommand "doc.open" succeed));
       isVisible := None; isEnabled := None; inputComponent := None;
       keywords := None; cmd_execute := succeed |}
  = resolveMetadata (makeCommand "doc.open" succeed).
Proof.
  apply (resolveMetadata_closed (makeCommand "doc.open" succeed)). reflexivity.
Defined.

(** ** The AI tools adapter and the MCP adapter *)

Lemma replace_all_lacks x y s : Ascii.eqb y x = false → lacks x (replace_all x y s) = true.
Proof.
  intros Hxy. induction s as [|c s IH]; [done|]. cbn [replace_all lacks].
  rewrite IH, andb_true_r. destruct (Ascii.eqb c x) eqn:E; [by rewrite Hxy|by rewrite E].
Qed.

Lemma replace_all_back x y s :
  lacks y s = true → replace_all y x (replace_all x y s) = s.
Proof.
  induction s as [|c s IH]; [done|]. cbn [replace_all lacks].
  intros [Hc Hs]%andb_true_iff. rewrite (IH Hs). f_equal.
  apply negb_true_iff in Hc.
  destruct (Ascii.eqb c x) eqn:E.
  - rewrite Ascii.eqb_refl. by apply Ascii.eqb_eq in E.
  - by rewrite Hc.
Qed.

(** X17. [executeAiToolCall] turns the underscores of a tool name into
    dots, so it undoes [toolName = id.replace(/\./g, '_')] exactly for the
    ids without an underscore: for such an id the call is
    [registry.execute(id, params, ai overrides)]; for an id that holds an
    underscore the id executed differs from it, and the call returns the
    unknown-command failure for that other id unless it is registered
    too. *)
Theorem executeAiToolCall_round_trip (config : RegistryConfig) (st : RegistryState)
    (id : string) (params : JsVal) :
  (replace_all "_" "." (toToolName id) = id ↔ lacks "_" id = true)
  ∧ (lacks "_" id = true →
     executeAiToolCall config st (toToolName id) params
     = execute config st id params (Some (surface_overrides "ai")))
  ∧ (lacks "_" id = false →
     get st (replace_all "_" "." (toToolName id)) = None →
     executeAiToolCall config st (toToolName id) params
     = Some (Ok (unknown_command (replace_all "_" "." (toToolName id))), [])).
Proof.
  split_and!.
  - split.
    + intros H. rewrite <- H. by apply replace_all_lacks.
    + apply replace_all_back.
  - intros H. unfold executeAiToolCall, toToolName. by rewrite replace_all_back.
  - intros _ H. unfold executeAiToolCall, execute. by rewrite H.
Qed.

Lemma surface_context (config : RegistryConfig) (surface : string) :
  String.eqb surface "unknown" = false →
  execute_context config (Some (surface_overrides surface)) !! "store" = Some JUndefined
  ∧ execute_context config (Some (surface_overrides surface)) !! "source"
    = Some (JStr surface)
  ∧ execute_context config (Some (surface_overrides surface)) !! "invocation"
    = Some (JObj [("surface", JStr surface)]).
Proof.
  intros Hs. unfold execute_context, buildContext.
  set (merged := merge_context config _).
  assert (∀ k v, surface_overrides surface !! k = Some v → merged !! k = Some v) as Hm.
  { intros k v H. unfold merged, merge_context. cbn [default from_option id].
    do 3 apply lookup_union_Some_l. exact H. }
  assert (sync_source merged = merged) as ->.
  { unfold sync_source, read.
    rewrite (Hm "invocation" (JObj [("surface", JStr surface)])) by done.
    rewrite (Hm "source" (JStr surface)) by done.
    cbn [default from_option id truthy is_unknown]. by rewrite Hs. }
  split_and!; by apply Hm.
Qed.

(** X18. A command run through the AI adapter or through an MCP tool
    handler: its middlewares and handler are called with a context whose
    [store] is [undefined], whose [source] is the adapter's surface and
    whose [invocation] is [{ surface }], whatever the registry's context
    provider returns. The call settles (under an inherited name this is
    shown of a registry without middleware). The MCP handler is rejected
    when [execute] is, and when [JSON.stringify] throws on the result; it
    otherwise returns the text of the result, flagged as an error exactly
    when the result is no success. *)
Theorem adapter_calls_context (config : RegistryConfig) (st : RegistryState)
    (stringify : CommandResult → Outcome string) (toolName : string) (tool : McpTool)
    (params : JsVal) :
  (let context := execute_context config (Some (surface_overrides "ai")) in
   context !! "store" = Some JUndefined
   ∧ context !! "source" = Some (JStr "ai")
   ∧ context !! "invocation" = Some (JObj [("surface", JStr "ai")])
   ∧ ((∀ k, get st (replace_all "_" "." toolName) = Some (Inherited k) →
            the_middleware config = []) →
      ∃ o tr, executeAiToolCall config st toolName params = Some (o, tr))
   ∧ (∀ o tr, executeAiToolCall config st toolName params = Some (o, tr) →
        Forall (called_with (params_or_empty params) context) tr))
  ∧ (let context := execute_context config (Some (surface_overrides "mcp")) in
     let executed := execute config st (handler_id tool) params
                       (Some (surface_overrides "mcp")) in
     context !! "store" = Some JUndefined
     ∧ context !! "source" = Some (JStr "mcp")
     ∧ context !! "invocation" = Some (JObj [("surface", JStr "mcp")])
     ∧ ((∀ k, get st (handler_id tool) = Some (Inherited k) → the_middleware config = []) →
        ∃ o tr, mcp_handler config st stringify tool params = Some (o, tr))
     ∧ (∀ o tr, mcp_handler config st stringify tool params = Some (o, tr) →
          Forall (called_with (params_or_empty params) context) tr
          ∧ match o with
            | Ok returned =>
                ∃ r, executed = Some (Ok r, tr)
                     ∧ stringify r = Ok (content_text returned)
                     ∧ isError returned = negb (success r)
            | Err e =>
                executed = Some (Err e, tr)
                ∨ ∃ r, executed = Some (Ok r, tr) ∧ stringify r = Err e
            end)).
Proof.
  split; cbv zeta.
  - destruct (surface_context config "ai") as (H1 & H2 & H3); [done|].
    split_and!; [done|done|done| |].
    + intros Hin. unfold executeAiToolCall. by apply execute_settles.
    + intros o tr E. by eapply execute_call_records.
  - destruct (surface_context config "mcp") as (H1 & H2 & H3); [done|].
    split_and!; [done|done|done| |].
    + intros Hin. unfold mcp_handler.
      destruct (execute_settles config st (handler_id tool) params
                  (Some (surface_overrides "mcp")) Hin) as (o & tr & ->).
      destruct o as [r|e]; [|eauto]. destruct (stringify r); eauto.
    + intros o tr. unfold mcp_handler.
      destruct (execute config st (handler_id tool) params (Some (surface_overrides "mcp")))
        as [[[r|e] tr1]|] eqn:E; [| |done].
      * destruct (stringify r) as [text|e] eqn:Es; intros [= <- <-].
        -- split; [by eapply execute_call_records|]. by exists r.
        -- split; [by eapply execute_call_records|]. right. by exists r.
      * intros [= <- <-]. split; [by eapply execute_call_records|]. by left.
Qed.

Section ToolLists.
Variable toJsonSchema : ZodType → JsVal.

(** Whether the loops of the adapters keep a command. *)
Let kept (ts : option (list string)) (command : CommandDefinition) : bool :=
  match schema command with
  | Some _ => negb (skipped_by_tags ts command)
  | None => false
  end.

Lemma toAnthropicTools_names available ts :
  map tool_name (toAnthropicTools available toJsonSchema ts)
  = map (λ command, toToolName (cmd_id command)) (List.filter (kept ts) available).
Proof.
  unfold toAnthropicTools.
  assert (∀ acc,
            map tool_name
              (foldl (λ tools command,
                        match schema command with
                        | None => tools
                        | Some s =>
                            if skipped_by_tags ts command then tools
                            else tools ++ [{| tool_name := toToolName (cmd_id command);
                                              tool_description :=
                                                default (label command) (description command);
                                              input_schema := toJsonSchema s |}]
                        end) acc available)
            = map tool_name acc
                ++ map (λ command, toToolName (cmd_id command))
                     (List.filter (kept ts) available)) as H.
  { induction available as [|c l IH]; intros acc; cbn [foldl List.filter].
    - by rewrite app_nil_r.
    - rewrite IH. unfold kept at 2. destruct (schema c) as [s|]; [|done].
      destruct (skipped_by_tags ts c); [done|]. cbn [negb map].
      by rewrite map_app, <- app_assoc. }
  apply (H []).
Qed.

Lemma kept_no_tags available : List.filter (kept (Some [])) available = [].
Proof. induction available as [|c l IH]; [done|]. cbn. unfold kept. by destruct (schema c). Qed.

Lemma kept_sublist ts available :
  sublist (List.filter (kept (Some ts)) available) (List.filter (kept None) available).
Proof.
  induction available as [|c l IH]; [constructor|]. cbn [List.filter].
  destruct (kept (Some ts) c) eqn:E1, (kept None c) eqn:E2.
  - by apply sublist_skip.
  - unfold kept in E1, E2. destruct (schema c); [discriminate E2|discriminate E1].
  - by apply sublist_cons.
  - exact IH.
Qed.

Lemma kept_untagged ts available :
  List.filter (kept (Some ts)) available
  = List.filter (kept (Some ts))
      (List.filter (λ command, bool_decide (is_Some (tags command))) available).
Proof.
  induction available as [|c l IH]; [done|]. cbn [List.filter].
  destruct (tags c) as [l'|] eqn:E.
  - replace (bool_decide (is_Some (Some l'))) with true by done.
    cbn [List.filter]. rewrite <- IH. by destruct (kept (Some ts) c).
  - replace (bool_decide (is_Some (@None (list string)))) with false by done.
    rewrite <- IH. replace (kept (Some ts) c) with false; [done|].
    unfold kept. destruct (schema c) as [s|]; [|done].
    unfold skipped_by_tags, tags_include. rewrite E.
    replace (existsb (λ _ : string, false) ts) with false; [done|].
    clear. by induction ts as [|t ts IHts].
Qed.

Let vercel_step (ts : option (list string)) (tools : VercelAiTools)
    (command : CommandDefinition) : VercelAiTools :=
  match schema command with
  | None => tools
  | Some s =>
      if skipped_by_tags ts command then tools
      else assign_tool (toToolName (cmd_id command))
             {| vercel_description := default (label command) (description command);
                vercel_parameters := s;
                execute_id := cmd_id command |} tools
  end.

Lemma vercel_step_kept ts tools c :
  if kept ts c
  then ∃ tool, execute_id tool = cmd_id c
               ∧ vercel_step ts tools c = assign_tool (toToolName (cmd_id c)) tool tools
  else vercel_step ts tools c = tools.
Proof.
  unfold kept, vercel_step. destruct (schema c) as [s|]; [|done].
  destruct (skipped_by_tags ts c); cbn [negb]; [reflexivity|].
  eexists. split; [|reflexivity]. reflexivity.
Qed.

Lemma toVercelAiTools_fold ts available :
  ∀ acc : VercelAiTools,
    let names := map (λ command, toToolName (cmd_id command))
                     (List.filter (kept ts) available) in
    let tools := foldl (vercel_step ts) acc available in
    (∀ n, is_Some (own_tools tools !! n)
          ↔ is_Some (own_tools acc !! n) ∨ (n ≠ "__proto__" ∧ n ∈ names))
    ∧ (is_Some (tools_prototype tools)
       ↔ is_Some (tools_prototype acc) ∨ "__proto__" ∈ names)
    ∧ size (own_tools tools) ≤ size (own_tools acc) + length names
    ∧ ((∀ n tool, own_tools acc !! n = Some tool → toToolName (execute_id tool) = n) →
       ∀ n tool, own_tools tools !! n = Some tool → toToolName (execute_id tool) = n)
    ∧ ((∀ tool, tools_prototype acc = Some tool →
                toToolName (execute_id tool) = "__proto__") →
       ∀ tool, tools_prototype tools = Some tool →
               toToolName (execute_id tool) = "__proto__").
Proof.
  induction available as [|c l IH]; intros acc; cbn [foldl List.filter].
  - cbv zeta. simpl. split_and!; [| |lia|done|done].
    + intros n. split; [by left|]. intros [H|[_ H]]; [done|]. by apply elem_of_nil in H.
    + split; [by left|]. intros [H|H]; [done|]. by apply elem_of_nil in H.
  - pose proof (vercel_step_kept ts acc c) as Hstep.
    destruct (kept ts c); [|rewrite Hstep; apply IH].
    destruct Hstep as (tool0 & Hid & ->).
    destruct (IH (assign_tool (toToolName (cmd_id c)) tool0 acc))
      as (IH1 & IH2 & IH3 & IH4 & IH5).
    cbv zeta in *. cbn [map length]. unfold assign_tool in *.
    destruct (String.eqb (toToolName (cmd_id c)) "__proto__") eqn:Hp.
    + apply String.eqb_eq in Hp. cbn [own_tools tools_prototype] in *.
      split_and!.
      * intros n. rewrite IH1, elem_of_cons. rewrite Hp.
        split; [intros [?|[? ?]]; [by left|right; split; [done|by right]]|].
        intros [?|[Hn [?|?]]]; [by left|done|right; by split].
      * rewrite IH2, elem_of_cons. rewrite Hp.
        split; [intros _; right; by left|]. intros _. left. by eexists.
      * lia.
      * exact IH4.
      * intros Hacc. apply IH5. intros tool [= <-]. by rewrite Hid.
    + apply String.eqb_neq in Hp. cbn [own_tools tools_prototype] in *.
      split_and!.
      * intros n. rewrite IH1, elem_of_cons.
        destruct (decide (n = toToolName (cmd_id c))) as [->|Hn].
        -- rewrite lookup_insert_eq. split; [intros _|intros _; left; by eexists].
           right. split; [done|by left].
        -- rewrite lookup_insert_ne by done. tauto.
      * rewrite IH2, elem_of_cons.
        split; [intros [?|?]; [by left|right; by right]|].
        intros [?|[?|?]]; [by left|done|by right].
      * etrans; [exact IH3|].
        pose proof (map_size_insert (toToolName (cmd_id c)) tool0 (own_tools acc)) as Hsz.
        destruct (own_tools acc !! toToolName (cmd_id c)); cbn [id] in Hsz; lia.
      * intros Hacc. apply IH4. intros n tool.
        destruct (decide (n = toToolName (cmd_id c))) as [->|Hn].
        -- rewrite lookup_insert_eq. intros H. inversion H; subst. by rewrite Hid.
        -- rewrite lookup_insert_ne by done. apply Hacc.
      * exact IH5.
Qed.

End ToolLists.

(** X19. The tag filter of [toAnthropicTools]. The tools are those of the
    available commands that have a schema and pass the filter, in the order
    of the array, under the names [id.replace(/\./g, '_')]. An empty
    [filterTags] array is not the same as no filter: it excludes every
    command. The tools under any filter are a sub-sequence of the tools
    without a filter, and a command without [tags] is excluded by every
    filter. *)
Theorem toAnthropicTools_filter (available : list CommandDefinition)
    (toJsonSchema : ZodType → JsVal) :
  toAnthropicTools available toJsonSchema (Some []) = []
  ∧ (∀ ts, sublist (map tool_name (toAnthropicTools available toJsonSchema (Some ts)))
                   (map tool_name (toAnthropicTools available toJsonSchema None)))
  ∧ map tool_name (toAnthropicTools available toJsonSchema None)
    = map (λ command, toToolName (cmd_id command))
          (List.filter (λ command, bool_decide (is_Some (schema command))) available)
  ∧ (∀ ts,
       map tool_name (toAnthropicTools available toJsonSchema (Some ts))
       = map tool_name
           (toAnthropicTools
              (List.filter (λ command, bool_decide (is_Some (tags command))) available)
              toJsonSchema (Some ts))).
Proof.
  split_and!.
  - pose proof (toAnthropicTools_names toJsonSchema available (Some [])) as H.
    rewrite kept_no_tags in H.
    by destruct (toAnthropicTools available toJsonSchema (Some [])).
  - intros ts. rewrite !toAnthropicTools_names. apply (fmap_sublist _), kept_sublist.
  - rewrite toAnthropicTools_names. f_equal.
    induction available as [|c l IH]; [done|]. cbn [List.filter]. rewrite IH.
    destruct (schema c); done.
  - intros ts. rewrite !toAnthropicTools_names. f_equal. apply kept_untagged.
Qed.

(** X20. [toVercelAiTools] keys its tools by tool name. The own keys of
    the object are exactly the names of the tools [toAnthropicTools] returns
    for the same commands and filter, but for the name ['__proto__']:
    assigning under that name adds no key and makes the tool the prototype
    of the object, which happens exactly when that name is among them.
    There are at most as many own tools as tools there; every own tool sits
    under the tool name of the command its [execute] closure runs, and the
    prototype tool is one of a command whose tool name is ['__proto__'];
    and [executeAiToolCall] on an own key runs the same command as the
    tool's own [execute] whenever that command's id has no underscore. *)
Theorem toVercelAiTools_keys (config : RegistryConfig) (st : RegistryState)
    (available : list CommandDefinition) (toJsonSchema : ZodType → JsVal)
    (ts : option (list string)) :
  let tools := toVercelAiTools available ts in
  let names := map tool_name (toAnthropicTools available toJsonSchema ts) in
  (∀ n, is_Some (own_tools tools !! n) ↔ n ≠ "__proto__" ∧ n ∈ names)
  ∧ (is_Some (tools_prototype tools) ↔ "__proto__" ∈ names)
  ∧ size (own_tools tools) ≤ length names
  ∧ (∀ n tool, own_tools tools !! n = Some tool →
       toToolName (execute_id tool) = n
       ∧ (lacks "_" (execute_id tool) = true →
          ∀ params, executeAiToolCall config st n params
                    = vercel_execute config st tool params))
  ∧ (∀ tool, tools_prototype tools = Some tool →
       toToolName (execute_id tool) = "__proto__").
Proof.
  destruct (toVercelAiTools_fold ts available {| own_tools := ∅; tools_prototype := None |})
    as (H1 & H2 & H3 & H4 & H5).
  cbv zeta in *. cbn [own_tools tools_prototype] in *.
  rewrite toAnthropicTools_names. unfold toVercelAiTools.
  split_and!.
  - intros n. rewrite H1.
    rewrite lookup_empty. split; [intros [[? ?]|H]; [done|exact H]|by right].
  - rewrite H2. split; [intros [[? ?]|H]; [done|exact H]|by right].
  - rewrite map_size_empty in H3. exact H3.
  - intros n tool Hn.
    assert (toToolName (execute_id tool) = n) as Hname.
    { apply (H4 ltac:(intros ? ? H; by rewrite lookup_empty in H) n tool Hn). }
    split; [exact Hname|]. intros Hl params.
    unfold executeAiToolCall, vercel_execute. rewrite <- Hname.
    unfold toToolName. by rewrite replace_all_back.
  - intros tool Ht. by apply H5.
Qed.

(** A command whose id is ['__proto__'] gets no key. *)
Example toVercelAiTools_proto :
  own_tools (toVercelAiTools [withSchema "__proto__" nameWithDefault succeed] None) = ∅
  ∧ execute_id <$> tools_prototype
                     (toVercelAiTools [withSchema "__proto__" nameWithDefault succeed] None)
    = Some "__proto__"
  ∧ map tool_name (toAnthropicTools [withSchema "__proto__" nameWithDefault succeed]
                     (λ _, JNull) None) = ["__proto__"].
Proof. split_and!; reflexivity. Qed.

Section McpTools.
Variable options : McpAdapterOptions.

Let eligible (command : CommandDefinition) : bool :=
  bool_decide (is_Some (schema command))
  && negb (skipped_by_tags (filterTags options) command).

Lemma registerCommandsAsMcpTools_fold listed :
  ∀ calls count,
    ∃ calls',
      foldl (λ '(calls, count) command,
               match schema command with
               | None => (calls, count)
               | Some s =>
                   if skipped_by_tags (filterTags options) command then (calls, count)
                   else
                     (calls ++ [{| mcp_name := default EmptyString (namePrefix options)
                                               +:+ default toToolName (toToolName_option options)
                                                     (cmd_id command);
                                   mcp_description :=
                                     default (label command) (description command);
                                   mcp_schema := match toJsonSchema_option options with
                                                 | Some f => f s
                                                 | None => object_schema
                                                 end;
                                   handler_id := cmd_id command |}],
                      S count)
               end) (calls, count) listed
      = (calls ++ calls', count + length calls')
      ∧ map handler_id calls' = map cmd_id (List.filter eligible listed).
Proof.
  induction listed as [|c l IH]; intros calls count; cbn [foldl List.filter].
  - exists []. by rewrite app_nil_r, Nat.add_0_r.
  - unfold eligible at 1. destruct (schema c) as [s|]; [|apply IH].
    replace (bool_decide (is_Some (Some s))) with true by done. cbn [andb].
    destruct (skipped_by_tags (filterTags options) c); cbn [negb]; [apply IH|].
    edestruct IH as (calls' & -> & Hids).
    eexists (_ :: calls'). rewrite <- app_assoc. cbn [app length map handler_id].
    split; [f_equal; lia|]. by rewrite Hids.
Qed.

Lemma eligible_no_tags listed :
  filterTags options = Some [] → List.filter eligible listed = [].
Proof.
  intros H. induction listed as [|c l IH]; [done|]. cbn [List.filter].
  unfold eligible at 1. rewrite H. cbn. by rewrite andb_false_r.
Qed.

End McpTools.

(** X21. [registerCommandsAsMcpTools] returns the number of tools it
    registered on the server. The tools are registered for the listed
    commands that have a schema and pass the tag filter, in the order of the
    list, and each handler runs its own command, by id, whatever
    [namePrefix] and [toToolName] make of the tool names. The count is at
    most the number of listed commands, and it is zero when [filterTags] is
    an empty array. *)
Theorem registerCommandsAsMcpTools_count (listed : list CommandDefinition)
    (options : McpAdapterOptions) :
  (registerCommandsAsMcpTools listed options).2
  = length (registerCommandsAsMcpTools listed options).1
  ∧ map handler_id (registerCommandsAsMcpTools listed options).1
    = map cmd_id
        (List.filter (λ command,
                        bool_decide (is_Some (schema command))
                        && negb (skipped_by_tags (filterTags options) command)) listed)
  ∧ (registerCommandsAsMcpTools listed options).2 ≤ length listed
  ∧ (filterTags options = Some [] → (registerCommandsAsMcpTools listed options).2 = 0).
Proof.
  unfold registerCommandsAsMcpTools.
  destruct (registerCommandsAsMcpTools_fold options listed [] 0) as (calls & -> & Hids).
  cbn [fst snd app Nat.add]. split_and!.
  - done.
  - exact Hids.
  - rewrite <- (length_map handler_id), Hids, length_map. apply List.filter_length_le.
  - intros H. rewrite <- (length_map handler_id), Hids, length_map.
    by rewrite (eligible_no_tags options listed H).
Qed.

(** ** The parameter collector *)

Section CollectorLemmas.
Import ParamCollector.
Variable number : Type.
Implicit Types (schema : ZodTypeAny number) (command : CommandLike number).

Lemma unwrapOptional_idem schema : unwrapOptional (unwrapOptional schema) = unwrapOptional schema.
Proof. induction schema; try done. Qed.

Lemma isFieldOptional_unwrapOptional schema : isFieldOptional (unwrapOptional schema) = false.
Proof. induction schema; try done. Qed.

Lemma isParameterFree_no_required schema :
  isParameterFree (Some schema) = true →
  List.filter required (introspectSchema schema) = [].
Proof.
  unfold isParameterFree, introspectSchema.
  destruct (unwrapSchema schema) as [| | | | |d shape| | | | | | |]; try done.
  destruct shape as [|entry shape]; [done|]. cbn [length Nat.eqb].
  generalize (entry :: shape). clear. intros l H.
  induction l as [|[n s] l IH]; [done|]. cbn [forallb] in H.
  apply andb_true_iff in H as [H1 H2]. cbn [map List.filter describeField required].
  rewrite H1. cbn [negb]. by apply IH.
Qed.

Lemma introspectSchema_not_object schema :
  (∀ d shape, unwrapSchema schema ≠ ZodObject d shape) →
  isParameterFree (Some schema) = false ∧ introspectSchema schema = [].
Proof.
  intros H. unfold isParameterFree, introspectSchema.
  destruct (unwrapSchema schema) as [| | | | |d shape| | | | | | |]; try done.
  by destruct (H d shape).
Qed.

End CollectorLemmas.

(** X22. [selectCollectionPattern] is decided by the palette hint and the
    number of required fields [introspectSchema] finds: [delegate] under a
    focus-panel hint; otherwise [immediate] without a schema or without a
    required field, [inline] with exactly one required field among at most
    two fields, [form] in every other case. The [isParameterFree] test
    never changes the answer. In particular a schema that is not an object
    (after unwrapping effects) is not parameter-free, and still gives
    [immediate]. *)
Theorem selectCollectionPattern_by_required (number : Type)
    (command : ParamCollector.CommandLike number) :
  ParamCollector.selectCollectionPattern command
  = (if ParamCollector.hinted_focus_panel command then ParamCollector.delegate
     else
       match ParamCollector.like_schema command with
       | None => ParamCollector.immediate
       | Some schema =>
           let fields := ParamCollector.introspectSchema schema in
           let n := length (List.filter ParamCollector.required fields) in
           if Nat.eqb n 0 then ParamCollector.immediate
           else if Nat.eqb n 1 && Nat.leb (length fields) 2 then ParamCollector.inline
           else ParamCollector.form
       end)
  ∧ ∀ schema,
      ParamCollector.like_schema command = Some schema →
      (∀ d shape, ParamCollector.unwrapSchema schema ≠ ParamCollector.ZodObject d shape) →
      ParamCollector.isParameterFree (Some schema) = false
      ∧ (ParamCollector.hinted_focus_panel command = false →
         ParamCollector.selectCollectionPattern command = ParamCollector.immediate).
Proof.
  split.
  - unfold ParamCollector.selectCollectionPattern.
    destruct (ParamCollector.hinted_focus_panel command); [done|].
    destruct (ParamCollector.like_schema command) as [schema|]; [|done].
    destruct (ParamCollector.isParameterFree (Some schema)) eqn:E; [|done].
    cbv zeta. by rewrite (isParameterFree_no_required number schema E).
  - intros schema Hs Hobj.
    destruct (introspectSchema_not_object number schema Hobj) as [H1 H2].
    split; [exact H1|]. intros Hh.
    unfold ParamCollector.selectCollectionPattern. rewrite Hh, Hs, H1. cbv zeta.
    by rewrite H2.
Qed.

(** X23. What [describeField] says of a field under its wrappers. A
    required field has no default value. The [zodSchema] it records is
    fully unwrapped: it is no optional, default or effects schema, and
    unwrapping it again changes nothing. And the type, the enum values and
    the validation of the field are those of the unwrapped schema, so
    wrapping a schema as optional, with a default or in effects changes
    none of them. *)
Theorem describeField_wrappers (number : Type) (name : string)
    (schema : ParamCollector.ZodTypeAny number) :
  let field := ParamCollector.describeField name schema in
  let inner := ParamCollector.describeField name (ParamCollector.zodSchema field) in
  (ParamCollector.required field = true →
   ParamCollector.defaultValue_of field = JUndefined)
  ∧ ParamCollector.unwrapOptional (ParamCollector.zodSchema field)
    = ParamCollector.zodSchema field
  ∧ ParamCollector.isFieldOptional (ParamCollector.zodSchema field) = false
  ∧ ParamCollector.type field = ParamCollector.type inner
  ∧ ParamCollector.enumValues field = ParamCollector.enumValues inner
  ∧ ParamCollector.validation field = ParamCollector.validation inner
  ∧ ParamCollector.required inner = true.
Proof.
  cbv zeta. cbn [ParamCollector.describeField ParamCollector.required
                 ParamCollector.defaultValue_of ParamCollector.zodSchema
                 ParamCollector.type ParamCollector.enumValues ParamCollector.validation].
  unfold ParamCollector.classifyFieldType, ParamCollector.extractEnumValues,
    ParamCollector.extractValidation.
  rewrite !unwrapOptional_idem, isFieldOptional_unwrapOptional.
  split_and!; try done.
  by destruct schema.
Qed.

Section DefaultParams.
Import ParamCollector.
Variable number : Type.

Lemma buildDefaultParams_fold (fields : list (FieldDescriptor number)) :
  ∀ acc : DefaultParams,
    let params :=
      foldl (λ params field,
               if negb (is_undefined (defaultValue_of field))
               then assign_param (name field) (defaultValue_of field) params
               else params) acc fields in
    (∀ k, is_Some (own_params params !! k)
          ↔ is_Some (own_params acc !! k)
            ∨ (k ≠ "__proto__"
               ∧ ∃ f, f ∈ fields ∧ name f = k ∧ is_undefined (defaultValue_of f) = false))
    ∧ ((∀ k v, own_params acc !! k = Some v → is_undefined v = false) →
       ∀ k v, own_params params !! k = Some v → is_undefined v = false)
    ∧ (∀ v, params_prototype params = Some v →
         params_prototype acc = Some v
         ∨ ∃ f, f ∈ fields ∧ name f = "__proto__" ∧ defaultValue_of f = v
                ∧ (v = JNull ∨ ∃ properties, v = JObj properties)).
Proof.
  induction fields as [|f l IH]; intros acc; cbn [foldl]; cbv zeta.
  - split_and!; [|done|by left]. intros k. split; [by left|].
    intros [H|(_ & f & H & _)]; [done|]. by apply elem_of_nil in H.
  - destruct (is_undefined (defaultValue_of f)) eqn:E; cbn [negb].
    + destruct (IH acc) as (IH1 & IH2 & IH3). split_and!; [|exact IH2|].
      * intros k. rewrite IH1. split; intros [H|(Hk & f' & Hf & Hn & Hd)]; auto.
        -- right. split; [done|]. exists f'. split; [by apply elem_of_cons; right|done].
        -- apply elem_of_cons in Hf as [->|Hf]; [congruence|]. right.
           split; [done|]. by exists f'.
      * intros v Hv. destruct (IH3 v Hv) as [?|(f' & Hf & ?)]; [by left|].
        right. exists f'. split; [by apply elem_of_cons; right|done].
    + destruct (IH (assign_param (name f) (defaultValue_of f) acc)) as (IH1 & IH2 & IH3).
      unfold assign_param in *.
      destruct (String.eqb (name f) "__proto__") eqn:Hp.
      * apply String.eqb_eq in Hp.
        assert (own_params
                  match defaultValue_of f with
                  | JNull | JObj _ =>
                      {| own_params := own_params acc;
                         params_prototype := Some (defaultValue_of f) |}
                  | _ => acc
                  end = own_params acc) as Hown by (by destruct (defaultValue_of f)).
        rewrite Hown in IH1, IH2. split_and!; [|exact IH2|].
        -- intros k. rewrite IH1. split; intros [H|(Hk & f' & Hf & Hn & Hd)]; auto.
           ++ right. split; [done|]. exists f'. split; [by apply elem_of_cons; right|done].
           ++ apply elem_of_cons in Hf as [->|Hf]; [congruence|]. right.
              split; [done|]. by exists f'.
        -- intros v Hv. destruct (IH3 v Hv) as [Hacc|(f' & Hf & ?)].
           ++ destruct (defaultValue_of f) as [| | | |properties] eqn:Ed;
                cbn [params_prototype] in Hacc; try (by left).
              ** inversion Hacc; subst. right. exists f.
                 split; [by apply elem_of_cons; left|]. rewrite Ed. split_and!; auto.
              ** inversion Hacc; subst. right. exists f.
                 split; [by apply elem_of_cons; left|]. rewrite Ed. split_and!; eauto.
           ++ right. exists f'. split; [by apply elem_of_cons; right|done].
      * apply String.eqb_neq in Hp. cbn [own_params params_prototype] in *. split_and!.
        -- intros k. rewrite IH1. destruct (decide (k = name f)) as [->|Hk].
           ++ rewrite lookup_insert_eq. split; intros _; [|left; by eexists].
              right. split; [done|]. exists f. split; [by apply elem_of_cons; left|done].
           ++ rewrite lookup_insert_ne by done.
              split; intros [H|(Hk' & f' & Hf & Hn & Hd)]; auto.
              ** right. split; [done|]. exists f'.
                 split; [by apply elem_of_cons; right|done].
              ** apply elem_of_cons in Hf as [->|Hf]; [congruence|]. right.
                 split; [done|]. by exists f'.
        -- intros Hacc. apply IH2. intros k v.
           destruct (decide (k = name f)) as [->|Hk].
           ++ rewrite lookup_insert_eq. intros H. inversion H; subst. exact E.
           ++ rewrite lookup_insert_ne by done. apply Hacc.
        -- intros v Hv. destruct (IH3 v Hv) as [?|(f' & Hf & ?)]; [by left|].
           right. exists f'. split; [by apply elem_of_cons; right|done].
Qed.

End DefaultParams.

(** X24. The params [buildDefaultParams] pre-fills from the fields of a
    schema: a key other than ['__proto__'] is filled exactly when some
    field of that name has a default value other than [undefined]; no
    filled value is [undefined]; under ['__proto__'] no key is filled, and
    the object only gets another prototype from a field of that name
    whose default value is an object or [null]; and a required field never
    has a default value, so it fills nothing. *)
Theorem buildDefaultParams_defaults (number : Type)
    (schema : ParamCollector.ZodTypeAny number) :
  let fields := ParamCollector.introspectSchema schema in
  let params := ParamCollector.buildDefaultParams fields in
  (∀ k, is_Some (ParamCollector.own_params params !! k)
        ↔ k ≠ "__proto__"
          ∧ ∃ f, f ∈ fields ∧ ParamCollector.name f = k
                 ∧ ParamCollector.is_undefined (ParamCollector.defaultValue_of f) = false)
  ∧ (∀ k v, ParamCollector.own_params params !! k = Some v →
            ParamCollector.is_undefined v = false)
  ∧ (∀ v, ParamCollector.params_prototype params = Some v →
          ∃ f, f ∈ fields ∧ ParamCollector.name f = "__proto__"
               ∧ ParamCollector.defaultValue_of f = v
               ∧ (v = JNull ∨ ∃ properties, v = JObj properties))
  ∧ (∀ f, f ∈ fields → ParamCollector.required f = true →
          ParamCollector.is_undefined (ParamCollector.defaultValue_of f) = true).
Proof.
  cbv zeta.
  destruct (buildDefaultParams_fold number (ParamCollector.introspectSchema schema)
              {| ParamCollector.own_params := ∅; ParamCollector.params_prototype := None |})
    as (H1 & H2 & H3). cbv zeta in H1, H2, H3.
  cbn [ParamCollector.own_params ParamCollector.params_prototype] in *.
  split_and!.
  - intros k. unfold ParamCollector.buildDefaultParams. rewrite H1, lookup_empty.
    split; [intros [[? ?]|H]; [done|exact H]|by right].
  - apply H2. intros k v H. by rewrite lookup_empty in H.
  - intros v Hv. by destruct (H3 v Hv) as [?|?].
  - intros f Hf. unfold ParamCollector.introspectSchema in Hf.
    destruct (ParamCollector.unwrapSchema schema) as [| | | | |d shape| | | | | | |];
      try (by apply elem_of_nil in Hf).
    apply list_elem_of_fmap in Hf as ([n s] & -> & _).
    cbn [ParamCollector.describeField ParamCollector.required
         ParamCollector.defaultValue_of fst snd].
    by destruct s.
Qed.

(** ** The test generator: file and variable names *)

Section GeneratedNames.

Lemma lacks_append x a b : lacks x (a +:+ b) = lacks x a && lacks x b.
Proof.
  induction a as [|c a IH]; [done|]. rewrite append_cons. cbn [lacks].
  by rewrite IH, andb_assoc.
Qed.

Lemma last_split_from acc s :
  lacks "." acc = true →
  lacks "." (List.last (WhenClause.split_from "." 0 acc s) EmptyString) = true
  ∧ ∃ prefix,
      acc +:+ s = prefix +:+ List.last (WhenClause.split_from "." 0 acc s) EmptyString
      ∧ (prefix = EmptyString ∨ ∃ p, prefix = p +:+ ".").
Proof.
  revert acc. induction s as [|c s IH]; intros acc Hacc.
  - cbn [WhenClause.split_from List.last]. split; [done|].
    exists EmptyString. split; [by rewrite append_nil_r|by left].
  - cbn [WhenClause.split_from WhenClause.startsWith].
    destruct (Ascii.eqb "." c) eqn:E.
    + apply Ascii.eqb_eq in E. subst c. cbn [andb String.length Nat.sub].
      replace (WhenClause.startsWith s EmptyString) with true by (by destruct s).
      pose proof (split_from_nonempty "." 0 EmptyString s) as Hne.
      destruct (WhenClause.split_from "." 0 EmptyString s) as [|p l] eqn:El; [done|].
      change (List.last (acc :: p :: l) EmptyString) with (List.last (p :: l) EmptyString).
      destruct (IH EmptyString eq_refl) as (H1 & prefix & H2 & H3). rewrite El in H1, H2.
      split; [exact H1|]. exists (acc +:+ "." +:+ prefix). split.
      * rewrite !append_assoc'. f_equal. rewrite append_cons, append_nil_l. f_equal.
        exact H2.
      * right. destruct H3 as [->|(p' & ->)].
        -- exists acc. by rewrite append_nil_r.
        -- exists (acc +:+ "." +:+ p'). by rewrite !append_assoc'.
    + cbn [andb].
      destruct (IH (acc +:+ String c EmptyString)) as (H1 & prefix & H2 & H3).
      { rewrite lacks_append, Hacc. cbn [lacks andb]. rewrite andb_true_r.
        apply negb_true_iff. by rewrite Ascii.eqb_sym. }
      split; [exact H1|]. exists prefix. split; [|exact H3].
      rewrite <- H2. by rewrite append_assoc'.
Qed.

Lemma append_inv_tail (a b t : string) : a +:+ t = b +:+ t → a = b.
Proof.
  revert b. induction a as [|c a IH]; intros b H.
  - destruct b as [|d b]; [done|]. apply (f_equal String.length) in H.
    rewrite append_nil_l, length_append' in H. simpl in H. lia.
  - destruct b as [|d b].
    + apply (f_equal String.length) in H.
      rewrite append_nil_l, length_append' in H. simpl in H. lia.
    + rewrite !append_cons in H. inversion H; subst. f_equal. by apply IH.
Qed.

End GeneratedNames.

(** X25. The names the test generator derives from a command id. The
    variable name is what follows the last dot: it holds no dot, the id is
    a prefix followed by it, the prefix being empty or ending in a dot, and
    an id without a dot is its own variable name. The file name is
    determined by the id when ids hold no hyphen: two such ids with the
    same file name are the same id. *)
Theorem generated_names (id : string) :
  lacks "." (commandIdToVarName id) = true
  ∧ (∃ prefix, id = prefix +:+ commandIdToVarName id
               ∧ (prefix = EmptyString ∨ ∃ p, prefix = p +:+ "."))
  ∧ (lacks "." id = true → commandIdToVarName id = id)
  ∧ (∀ id', lacks "-" id = true → lacks "-" id' = true →
            commandIdToFilename id = commandIdToFilename id' → id = id').
Proof.
  unfold commandIdToVarName, WhenClause.split.
  destruct (last_split_from EmptyString id eq_refl) as (H1 & prefix & H2 & H3).
  split_and!.
  - exact H1.
  - exists prefix. by rewrite append_nil_l in H2.
  - intros Hl. rewrite append_nil_l in H2. destruct H3 as [->|(p & ->)].
    + by rewrite append_nil_l in H2.
    + rewrite H2, !lacks_append in Hl. cbn [lacks] in Hl.
      rewrite andb_false_r in Hl. discriminate Hl.
  - intros id' Hl Hl' H. unfold commandIdToFilename in H.
    apply append_inv_tail in H.
    rewrite <- (replace_all_back "." "-" id Hl), <- (replace_all_back "." "-" id' Hl').
    by rewrite H.
Qed.

(** ** The reference evaluator: how the two operators nest *)

Section WhenClausePrecedence.
Import WhenClause.
Variable context : gmap string bool.

Lemma evaluateWhen_fuel_S fuel clause :
  evaluateWhen_fuel context (S fuel) clause
  = if startsWith clause "!"
    then Some (WBool (negb (passes (lookup_flag context (slice1 clause)))))
    else if includes clause "&&"
    then foldr (λ part rest,
                  match evaluateWhen_fuel context fuel (trim part) with
                  | Some v => if passes v then rest else Some (WBool false)
                  | None => None
                  end) (Some (WBool true)) (split clause "&&")
    else if includes clause "||"
    then foldr (λ part rest,
                  match evaluateWhen_fuel context fuel (trim part) with
                  | Some v => if passes v then Some (WBool true) else rest
                  | None => None
                  end) (Some (WBool false)) (split clause "||")
    else Some (lookup_flag context clause).
Proof. reflexivity. Qed.

Lemma startsWith_key_space a rest :
  is_key a = true → startsWith (a +:+ String " " rest) "!" = false.
Proof. intros Ha. destruct a as [|c a]; [done|]. by apply startsWith_in_key. Qed.

(** Two keys joined by [" || "], with any fuel that allows one level of
    recursion. *)
Lemma evaluateWhen_fuel_or fuel a b :
  is_key a = true → is_key b = true →
  evaluateWhen_fuel context (S (S fuel)) (a +:+ " || " +:+ b)
  = Some (WBool (passes (lookup_flag context a) || passes (lookup_flag context b))).
Proof.
  intros Ha Hb. rewrite evaluateWhen_fuel_S.
  change (" || " +:+ b) with (String " " (String "|" (String "|" (String " " b)))).
  rewrite (startsWith_key_space a _ Ha).
  rewrite (includes_key a "&" "&") by done.
  cbn [includes startsWith Ascii.eqb Bool.eqb andb orb].
  rewrite (includes_key_end b "&" "&") by done.
  rewrite (includes_key a "|" "|") by done.
  cbn [includes startsWith Ascii.eqb Bool.eqb andb orb].
  unfold split. rewrite (split_from_key a "|" "|") by done.
  cbn [split_from startsWith Ascii.eqb Bool.eqb andb String.length Nat.sub].
  rewrite (split_from_key_end b "|" "|") by done.
  cbn [foldr]. rewrite !append_nil_l.
  rewrite (trim_key_space a Ha), (trim_space_key b Hb).
  rewrite !evaluateWhen_fuel_key by done.
  by destruct (passes (lookup_flag context a)), (passes (lookup_flag context b)).
Qed.

Lemma trimEnd_append x y :
  trimEnd y ≠ EmptyString → trimEnd (x +:+ y) = x +:+ trimEnd y.
Proof.
  intros Hy. induction x as [|c x IH]; [done|]. rewrite !append_cons. cbn [trimEnd].
  rewrite IH. destruct (x +:+ trimEnd y) eqn:E; [|done].
  destruct x; [|done]. by rewrite append_nil_l in E.
Qed.

Lemma trimEnd_key_space_nonempty b :
  is_key b = true → b ≠ EmptyString → trimEnd (b +:+ " ") ≠ EmptyString.
Proof. intros Hb Hne. by rewrite trimEnd_key_space. Qed.

Lemma trimStart_key a rest :
  is_key a = true → a ≠ EmptyString → trimStart (a +:+ rest) = a +:+ rest.
Proof.
  intros Ha Hne. destruct a as [|c a]; [done|]. rewrite append_cons. cbn [trimStart].
  cbn [is_key] in Ha. apply andb_true_iff in Ha as [Hc _].
  by rewrite (key_char_not_space c Hc).
Qed.

Lemma trim_or_left a b :
  is_key a = true → a ≠ EmptyString → is_key b = true → b ≠ EmptyString →
  trim (a +:+ " || " +:+ b +:+ " ") = a +:+ " || " +:+ b.
Proof.
  intros Ha Hna Hb Hnb. unfold trim. rewrite (trimStart_key a _ Ha Hna).
  rewrite <- (append_assoc' a " || " (b +:+ " ")).
  rewrite trimEnd_append by (by apply trimEnd_key_space_nonempty).
  by rewrite (trimEnd_key_space b Hb), append_assoc'.
Qed.

Lemma trim_or_right b c :
  is_key b = true → b ≠ EmptyString → is_key c = true → c ≠ EmptyString →
  trim (" " +:+ b +:+ " || " +:+ c) = b +:+ " || " +:+ c.
Proof.
  intros Hb Hnb Hc Hnc. unfold trim.
  change (trimStart (" " +:+ b +:+ " || " +:+ c)) with (trimStart (b +:+ " || " +:+ c)).
  rewrite (trimStart_key b _ Hb Hnb).
  rewrite <- (append_assoc' b " || " c).
  rewrite trimEnd_append by (by rewrite (trimEnd_key c Hc)).
  by rewrite (trimEnd_key c Hc), append_assoc'.
Qed.

(** X27. How the two operators nest in the reference evaluator: the
    clause is split on ['&&'] before it is split on ['||'], so ['||'] binds
    tighter than ['&&']. For keys [a], [b], [c], the clause
    ['a || b && c'] is the conjunction of ['a || b'] and [c], and
    ['a && b || c'] is the conjunction of [a] and ['b || c'], each key
    counting as true when what the context record holds, or inherits, under
    it is truthy. *)
Theorem evaluateWhen_or_binds_tighter (a b c : string) :
  is_key a = true → a ≠ EmptyString →
  is_key b = true → b ≠ EmptyString →
  is_key c = true → c ≠ EmptyString →
  let holds (k : string) : bool :=
    match context !! k with
    | Some flag => flag
    | None => inherited k
    end in
  evaluateWhen context (a +:+ " || " +:+ b +:+ " && " +:+ c)
  = Some (WBool ((holds a || holds b) && holds c))
  ∧ evaluateWhen context (a +:+ " && " +:+ b +:+ " || " +:+ c)
    = Some (WBool (holds a && (holds b || holds c))).
Proof.
  intros Ha Hna Hb Hnb Hc Hnc holds.
  assert (∀ k, passes (lookup_flag context k) = holds k) as Hholds.
  { intros k. unfold lookup_flag, holds. destruct (context !! k); [done|].
    by destruct (inherited k). }
  rewrite <- !Hholds. clear Hholds holds.
  split; unfold evaluateWhen.
  - remember (String.length (a +:+ " || " +:+ b +:+ " && " +:+ c)) as fuel eqn:Hfuel.
    assert (2 ≤ fuel) as Hle by (subst fuel; rewrite !length_append'; simpl; lia).
    destruct fuel as [|[|fuel]]; [lia|lia|]. clear Hfuel Hle.
    rewrite evaluateWhen_fuel_S.
    change (" || " +:+ b +:+ " && " +:+ c)
      with (String " " (String "|" (String "|" (String " "
              (b +:+ String " " (String "&" (String "&" (String " " c)))))))).
    rewrite (startsWith_key_space a _ Ha).
    rewrite (includes_key a "&" "&") by done.
    cbn [includes startsWith Ascii.eqb Bool.eqb andb orb].
    rewrite (includes_key b "&" "&") by done.
    cbn [includes startsWith Ascii.eqb Bool.eqb andb orb].
    unfold split. rewrite (split_from_key a "&" "&") by done.
    cbn [split_from startsWith Ascii.eqb Bool.eqb andb String.length Nat.sub].
    rewrite (split_from_key b "&" "&") by done.
    cbn [split_from startsWith Ascii.eqb Bool.eqb andb String.length Nat.sub].
    rewrite (split_from_key_end c "&" "&") by done.
    cbn [foldr]. rewrite !append_nil_l, !append_assoc'.
    rewrite (trim_space_key c Hc).
    change (a +:+ " " +:+ "|" +:+ "|" +:+ " " +:+ b +:+ " ")
      with (a +:+ " || " +:+ b +:+ " ").
    rewrite (trim_or_left a b Ha Hna Hb Hnb).
    rewrite (evaluateWhen_fuel_or fuel a b Ha Hb), (evaluateWhen_fuel_key context (S fuel) c Hc).
    by destruct (passes (lookup_flag context a)), (passes (lookup_flag context b)),
      (passes (lookup_flag context c)).
  - remember (String.length (a +:+ " && " +:+ b +:+ " || " +:+ c)) as fuel eqn:Hfuel.
    assert (2 ≤ fuel) as Hle by (subst fuel; rewrite !length_append'; simpl; lia).
    destruct fuel as [|[|fuel]]; [lia|lia|]. clear Hfuel Hle.
    rewrite evaluateWhen_fuel_S.
    change (" && " +:+ b +:+ " || " +:+ c)
      with (String " " (String "&" (String "&" (String " "
              (b +:+ String " " (String "|" (String "|" (String " " c)))))))).
    rewrite (startsWith_key_space a _ Ha).
    rewrite (includes_key a "&" "&") by done.
    cbn [includes startsWith Ascii.eqb Bool.eqb andb orb].
    unfold split. rewrite (split_from_key a "&" "&") by done.
    cbn [split_from startsWith Ascii.eqb Bool.eqb andb String.length Nat.sub].
    rewrite (split_from_key b "&" "&") by done.
    cbn [split_from startsWith Ascii.eqb Bool.eqb andb String.length Nat.sub].
    rewrite (split_from_key_end c "&" "&") by done.
    cbn [foldr]. rewrite !append_nil_l, !append_assoc'.
    rewrite (trim_key_space a Ha).
    change (" " +:+ b +:+ " " +:+ "|" +:+ "|" +:+ " " +:+ c)
      with (" " +:+ b +:+ " || " +:+ c).
    rewrite (trim_or_right b c Hb Hnb Hc Hnc).
    rewrite (evaluateWhen_fuel_or fuel b c Hb Hc), (evaluateWhen_fuel_key context (S fuel) a Ha).
    by destruct (passes (lookup_flag context a)), (passes (lookup_flag context b)),
      (passes (lookup_flag context c)).
Qed.

End WhenClausePrecedence.

Lemma evaluateWhen_or_binds_tighter_witness :
  WhenClause.evaluateWhen {[ "b" := false ]}
    ("constructor" +:+ " || " +:+ "b" +:+ " && " +:+ "toString")
  = Some (WBool true)
  ∧ WhenClause.evaluateWhen {[ "b" := false ]}
      ("constructor" +:+ " && " +:+ "b" +:+ " || " +:+ "toString")
    = Some (WBool true).
Proof.
  pose proof (evaluateWhen_or_binds_tighter {[ "b" := false ]} "constructor" "b" "toString"
                eq_refl ltac:(discriminate) eq_refl ltac:(discriminate)
                eq_refl ltac:(discriminate)) as H.
  vm_compute in H. vm_compute. exact H.
Defined.

(** ** The two registries *)

Section TwoRegistries.

Lemma map_get_list_to_map (commands : MapRegistry.Commands) (id : string) :
  (list_to_map commands : gmap string CommandDefinition) !! id
  = MapRegistry.map_get commands id.
Proof.
  induction commands as [|[k v] rest IH]; [done|].
  cbn [list_to_map foldr MapRegistry.map_get]. unfold curry. cbn [fst snd].
  destruct (String.eqb k id) eqn:E.
  - apply String.eqb_eq in E. subst. by rewrite lookup_insert_eq.
  - apply String.eqb_neq in E. by rewrite lookup_insert_ne.
Qed.

Lemma map_has_get (commands : MapRegistry.Commands) (id : string) :
  MapRegistry.map_has commands id
  = match MapRegistry.map_get commands id with Some _ => true | None => false end.
Proof.
  induction commands as [|[k v] rest IH]; [done|].
  cbn [MapRegistry.map_has existsb MapRegistry.map_get fst].
  destruct (String.eqb k id); [done|]. exact IH.
Qed.

Lemma list_to_map_set (commands : MapRegistry.Commands) (id : string) (v : CommandDefinition) :
  (list_to_map (MapRegistry.map_set commands id v) : gmap string CommandDefinition)
  = <[id := v]> (list_to_map commands).
Proof.
  induction commands as [|[k w] rest IH]; [done|]. cbn [MapRegistry.map_set].
  destruct (String.eqb k id) eqn:E.
  - apply String.eqb_eq in E. subst. cbn [list_to_map foldr]. unfold curry. cbn [fst snd].
    by rewrite insert_insert_eq.
  - apply String.eqb_neq in E. cbn [list_to_map foldr]. unfold curry. cbn [fst snd].
    change (foldr (λ p, <[p.1:=p.2]>) ∅ (MapRegistry.map_set rest id v))
      with (list_to_map (MapRegistry.map_set rest id v) : gmap string CommandDefinition).
    rewrite IH. by apply insert_insert_ne.
Qed.

Lemma list_to_map_delete (commands : MapRegistry.Commands) (id : string) :
  (list_to_map (List.filter (λ entry, negb (String.eqb entry.1 id)) commands)
     : gmap string CommandDefinition)
  = delete id (list_to_map commands).
Proof.
  induction commands as [|[k w] rest IH]; [symmetry; apply delete_empty|].
  cbn [List.filter fst]. destruct (String.eqb k id) eqn:E; cbn [negb].
  - apply String.eqb_eq in E. subst. rewrite IH.
    cbn [list_to_map foldr]. unfold curry. cbn [fst snd]. by rewrite delete_insert_eq.
  - apply String.eqb_neq in E. cbn [list_to_map foldr]. unfold curry. cbn [fst snd].
    change (foldr (λ p, <[p.1:=p.2]>) ∅
              (List.filter (λ entry, negb (String.eqb entry.1 id)) rest))
      with (list_to_map (List.filter (λ entry, negb (String.eqb entry.1 id)) rest)
              : gmap string CommandDefinition).
    rewrite IH. by rewrite delete_insert_ne.
Qed.

Lemma map_set_absent (commands : MapRegistry.Commands) (id : string) (v : CommandDefinition) :
  MapRegistry.map_has commands id = false →
  MapRegistry.map_set commands id v = commands ++ [(id, v)].
Proof.
  induction commands as [|[k w] rest IH]; [done|].
  cbn [MapRegistry.map_has existsb MapRegistry.map_set fst].
  destruct (String.eqb k id); [done|]. cbn [orb]. intros H. cbn [app]. f_equal. by apply IH.
Qed.

Lemma map_has_keys (commands : MapRegistry.Commands) (id : string) :
  MapRegistry.map_has commands id = false → id ∉ map fst commands.
Proof.
  induction commands as [|[k w] rest IH]; [intros _; apply not_elem_of_nil|].
  cbn [MapRegistry.map_has existsb map fst]. intros [H1 H2]%orb_false_iff.
  apply not_elem_of_cons. split; [|by apply IH].
  apply String.eqb_neq in H1. congruence.
Qed.

End TwoRegistries.

(** X28. The registry over a [Map] and the registry over the store, on
    stores that hold the same commands. Under an id that is no name every
    object inherits they agree on single commands: [register] and
    [unregister] give the same answer and again stores that hold the same
    commands, and [get] and [isAvailable] give the same answer. Under an
    inherited name that the [Map] does not hold they differ: the [Map]
    registers the definition, returns [undefined] from [get] and [false]
    from [unregister] and [isAvailable], where the store throws the
    already-registered error, returns the inherited value from [get] and
    [true] from [unregister] and [isAvailable]. The [Map] never holds more
    entries than the store counts, and as long as no key occurs twice,
    which [register] and [unregister] preserve, [size] is the same. *)
Theorem registries_agree (config : RegistryConfig) (commands : MapRegistry.Commands)
    (owners : gmap string (list string)) (d : CommandDefinition) (id : string) :
  let st := MapRegistry.as_store commands owners in
  (inherited (cmd_id d) = false →
   register d st
   = ((MapRegistry.register d commands).1,
      MapRegistry.as_store (MapRegistry.register d commands).2 owners))
  ∧ (inherited id = false →
     unregister id st
     = ((MapRegistry.unregister id commands).1,
        MapRegistry.as_store (MapRegistry.unregister id commands).2 owners)
     ∧ get st id = Own <$> MapRegistry.get commands id
     ∧ isAvailable config st id = MapRegistry.isAvailable config commands id)
  ∧ (inherited (cmd_id d) = true → MapRegistry.get commands (cmd_id d) = None →
     register d st = (Err (already_registered (cmd_id d)), st)
     ∧ MapRegistry.register d commands = (Ok tt, commands ++ [(cmd_id d, d)]))
  ∧ (inherited id = true → MapRegistry.get commands id = None →
     get st id = Some (Inherited id)
     ∧ unregister id st = (true, st)
     ∧ MapRegistry.unregister id commands = (false, commands)
     ∧ isAvailable config st id = Ok true
     ∧ MapRegistry.isAvailable config commands id = Ok false)
  ∧ registry_size st ≤ MapRegistry.size commands
  ∧ (NoDup (map fst commands) →
     registry_size st = MapRegistry.size commands
     ∧ NoDup (map fst (MapRegistry.register d commands).2)
     ∧ NoDup (map fst (MapRegistry.unregister id commands).2)).
Proof.
  cbv zeta. split_and!.
  - intros Hd. unfold register, MapRegistry.register, MapRegistry.as_store.
    cbn [CommandRegistry.commands CommandRegistry.owners].
    rewrite (obj_get_plain _ _ Hd), map_get_list_to_map, map_has_get.
    destruct (MapRegistry.map_get commands (cmd_id d)); [done|].
    cbn [fst snd fmap option_fmap option_map]. by rewrite list_to_map_set.
  - intros Hid. split_and!.
    + unfold unregister, MapRegistry.unregister, MapRegistry.map_delete, MapRegistry.as_store.
      cbn [CommandRegistry.commands CommandRegistry.owners fst snd].
      rewrite (obj_get_plain _ _ Hid), map_get_list_to_map, map_has_get, list_to_map_delete.
      destruct (MapRegistry.map_get commands id) eqn:E; [done|].
      cbn [fmap option_fmap option_map].
      f_equal. f_equal. symmetry. apply delete_id. by rewrite map_get_list_to_map.
    + unfold get, MapRegistry.get, MapRegistry.as_store. cbn [CommandRegistry.commands].
      by rewrite (obj_get_plain _ _ Hid), map_get_list_to_map.
    + unfold isAvailable, MapRegistry.isAvailable, get, MapRegistry.as_store.
      cbn [CommandRegistry.commands].
      rewrite (obj_get_plain _ _ Hid), map_get_list_to_map.
      by destruct (MapRegistry.map_get commands id).
  - intros Hd Hnone. unfold MapRegistry.get in Hnone. split.
    + unfold register, obj_get, MapRegistry.as_store. cbn [CommandRegistry.commands].
      by rewrite map_get_list_to_map, Hnone, Hd.
    + unfold MapRegistry.register.
      assert (MapRegistry.map_has commands (cmd_id d) = false) as Hhas
        by (by rewrite map_has_get, Hnone).
      by rewrite Hhas, map_set_absent.
  - intros Hid Hnone. unfold MapRegistry.get in Hnone.
    assert (obj_get (list_to_map commands : gmap string CommandDefinition) id
            = Some (Inherited id)) as Hget.
    { unfold obj_get. by rewrite map_get_list_to_map, Hnone, Hid. }
    split_and!.
    + exact Hget.
    + unfold unregister, MapRegistry.as_store. cbn [CommandRegistry.commands].
      rewrite Hget. cbn [CommandRegistry.owners]. f_equal. f_equal.
      apply delete_id. by rewrite map_get_list_to_map.
    + unfold MapRegistry.unregister, MapRegistry.map_delete.
      rewrite map_has_get, Hnone. f_equal.
      clear Hget. induction commands as [|[k v] rest IH]; [done|].
      cbn [MapRegistry.map_get] in Hnone. cbn [List.filter fst].
      destruct (String.eqb k id); [done|]. cbn [negb]. f_equal. by apply IH.
    + unfold isAvailable, get, MapRegistry.as_store. cbn [CommandRegistry.commands].
      by rewrite Hget.
    + unfold MapRegistry.isAvailable. by rewrite Hnone.
  - unfold registry_size, MapRegistry.size, MapRegistry.as_store.
    cbn [CommandRegistry.commands]. clear.
    induction commands as [|[k v] rest IH]; [apply Nat.eq_le_incl, map_size_empty|].
    cbn [list_to_map foldr length]. unfold curry. cbn [fst snd].
    rewrite map_size_insert.
    change (foldr (λ p, <[p.1:=p.2]>) ∅ rest)
      with (list_to_map rest : gmap string CommandDefinition).
    destruct (_ !! k); cbn [id]; lia.
  - intros Hnd. split_and!.
    + unfold registry_size, MapRegistry.size, MapRegistry.as_store.
      cbn [CommandRegistry.commands]. by apply map_size_list_to_map.
    + unfold MapRegistry.register.
      destruct (MapRegistry.map_has commands (cmd_id d)) eqn:E; [done|]. cbn [snd].
      rewrite (map_set_absent commands (cmd_id d) d E), map_app. cbn [map fst].
      apply NoDup_app. split_and!; [done| |apply NoDup_singleton].
      intros k Hk Hk'. apply list_elem_of_singleton in Hk'. subst.
      by apply (map_has_keys commands (cmd_id d) E).
    + unfold MapRegistry.unregister, MapRegistry.map_delete. cbn [snd].
      clear -Hnd. induction commands as [|[k v] rest IH]; [done|].
      cbn [map fst] in Hnd. apply NoDup_cons in Hnd as [Hk Hnd].
      cbn [List.filter fst]. destruct (negb (String.eqb k id)); [|by apply IH].
      cbn [map fst]. apply NoDup_cons. split; [|by apply IH].
      intros H. apply Hk. clear -H.
      induction rest as [|[k' v'] rest IH]; [done|]. cbn [List.filter fst] in H.
      cbn [map fst]. destruct (negb (String.eqb k' id)).
      * cbn [map fst] in H. apply elem_of_cons in H as [->|H]; [by left|right; by apply IH].
      * right. by apply IH.
Qed.

Section RegisterAllLoops.

Lemma registerAll_loops (cmds : list CommandDefinition) :
  plain_ids cmds = true →
  ∀ commands : MapRegistry.Commands,
    match MapRegistry.registerAll cmds commands with
    | (Ok _, commands') =>
        registerAll_loop cmds (list_to_map commands) = Ok (list_to_map commands')
        ∧ commands' = commands ++ map (λ cmd, (cmd_id cmd, cmd)) cmds
    | (Err e, commands') =>
        registerAll_loop cmds (list_to_map commands) = Err e
        ∧ ∃ pre cmd post,
            cmds = pre ++ cmd :: post
            ∧ e = already_registered (cmd_id cmd)
            ∧ commands' = commands ++ map (λ cmd, (cmd_id cmd, cmd)) pre
            ∧ MapRegistry.map_has commands' (cmd_id cmd) = true
    end.
Proof.
  induction cmds as [|cmd rest IH]; intros Hplain commands.
  - cbn. by rewrite app_nil_r.
  - unfold plain_ids in Hplain. cbn [forallb] in Hplain.
    apply andb_true_iff in Hplain as [Hcmd Hrest]. apply negb_true_iff in Hcmd.
    specialize (IH Hrest).
    cbn [MapRegistry.registerAll registerAll_loop]. unfold MapRegistry.register.
    rewrite (obj_get_plain _ _ Hcmd), map_get_list_to_map.
    destruct (MapRegistry.map_has commands (cmd_id cmd)) eqn:Hhas.
    + pose proof Hhas as Hget. rewrite map_has_get in Hget.
      destruct (MapRegistry.map_get commands (cmd_id cmd)); [|discriminate Hget].
      split; [done|]. exists [], cmd, rest. by rewrite app_nil_r.
    + pose proof Hhas as Hget. rewrite map_has_get in Hget.
      destruct (MapRegistry.map_get commands (cmd_id cmd)); [discriminate Hget|].
      cbn [fmap option_fmap option_map].
      rewrite <- list_to_map_set.
      specialize (IH (MapRegistry.map_set commands (cmd_id cmd) cmd)).
      destruct (MapRegistry.registerAll rest _) as [[[]|e] commands'].
      * destruct IH as [IH1 IH2]. split; [exact IH1|].
        rewrite IH2, (map_set_absent _ _ _ Hhas), <- app_assoc. done.
      * destruct IH as (IH1 & pre & cmd' & post & -> & -> & -> & IH2).
        split; [exact IH1|]. exists (cmd :: pre), cmd', post.
        split_and!; [done|done| |exact IH2].
        rewrite (map_set_absent _ _ _ Hhas), <- app_assoc. done.
Qed.

End RegisterAllLoops.

(** X29. [registerAll] in the two registries, for a batch whose ids are no
    names every object inherits. When the registry over a [Map] registers
    all the commands, so does the registry over the store, and the [Map]
    holds the commands appended in the order given. When it throws, both
    throw the same error, for the first command of the list whose id is
    taken; the store is left exactly as it was, all or nothing, while the
    [Map] keeps the commands of the list registered before that one. (A
    batch that holds the id ['constructor'] is registered by the [Map] and
    rejected by the store, see [registerAll_inherited_id_differs].) *)
Theorem registerAll_atomic_or_partial (cmds : list CommandDefinition)
    (commands : MapRegistry.Commands) (owners : gmap string (list string)) :
  plain_ids cmds = true →
  match MapRegistry.registerAll cmds commands with
  | (Ok _, commands') =>
      registerAll cmds (MapRegistry.as_store commands owners)
      = (Ok tt, MapRegistry.as_store commands' owners)
      ∧ commands' = commands ++ map (λ cmd, (cmd_id cmd, cmd)) cmds
  | (Err e, commands') =>
      registerAll cmds (MapRegistry.as_store commands owners)
      = (Err e, MapRegistry.as_store commands owners)
      ∧ ∃ pre cmd post,
          cmds = pre ++ cmd :: post
          ∧ e = already_registered (cmd_id cmd)
          ∧ commands' = commands ++ map (λ cmd, (cmd_id cmd, cmd)) pre
          ∧ MapRegistry.map_has commands' (cmd_id cmd) = true
  end.
Proof.
  intros Hplain.
  pose proof (registerAll_loops cmds Hplain commands) as H.
  unfold registerAll, MapRegistry.as_store. cbn [CommandRegistry.commands CommandRegistry.owners].
  destruct (MapRegistry.registerAll cmds commands) as [[[]|e] commands'].
  - destruct H as [-> ->]. done.
  - destruct H as (-> & H). done.
Qed.

Lemma registerAll_atomic_or_partial_witness :
  match MapRegistry.registerAll
          [makeCommand "a" succeed; makeCommand "b" succeed; makeCommand "a" boom] [] with
  | (Ok _, commands') =>
      registerAll [makeCommand "a" succeed; makeCommand "b" succeed; makeCommand "a" boom]
        (MapRegistry.as_store [] ∅)
      = (Ok tt, MapRegistry.as_store commands' ∅)
      ∧ commands' = [] ++ map (λ cmd, (cmd_id cmd, cmd))
                            [makeCommand "a" succeed; makeCommand "b" succeed;
                             makeCommand "a" boom]
  | (Err e, commands') =>
      registerAll [makeCommand "a" succeed; makeCommand "b" succeed; makeCommand "a" boom]
        (MapRegistry.as_store [] ∅)
      = (Err e, MapRegistry.as_store [] ∅)
      ∧ ∃ pre cmd post,
          [makeCommand "a" succeed; makeCommand "b" succeed; makeCommand "a" boom]
          = pre ++ cmd :: post
          ∧ e = already_registered (cmd_id cmd)
          ∧ commands' = [] ++ map (λ cmd, (cmd_id cmd, cmd)) pre
          ∧ MapRegistry.map_has commands' (cmd_id cmd) = true
  end.
Proof.
  apply (registerAll_atomic_or_partial
           [makeCommand "a" succeed; makeCommand "b" succeed; makeCommand "a" boom] [] ∅).
  reflexivity.
Defined.

Example registerAll_inherited_id_differs :
  MapRegistry.registerAll [makeCommand "constructor" succeed] []
  = (Ok tt, [("constructor", makeCommand "constructor" succeed)])
  ∧ registerAll [makeCommand "constructor" succeed] (MapRegistry.as_store [] ∅)
    = (Err (already_registered "constructor"), MapRegistry.as_store [] ∅).
Proof. split; reflexivity. Qed.

(** X30. [execute] in the two registries differs in the lookup of the id
    and in two steps, the [isEnabled] test and the sync of [source] and
    [invocation.surface], which the registry over a [Map] does not have.
    On stores that hold the same commands, for an id that is no name every
    object inherits, and for a call in which the command has no [isEnabled]
    that rejects or throws and the sync has nothing to do on the merged
    context, the two give the same result and the same calls of
    middlewares and handler. *)
Theorem registries_execute_agree (config : RegistryConfig)
    (commands : MapRegistry.Commands) (owners : gmap string (list string))
    (id : string) (params : JsVal) (overrides : option CommandContext) :
  inherited id = false →
  from_option (λ command, enabled_rejected command (execute_context config overrides))
              (Ok false) (MapRegistry.get commands id) = Ok false →
  sync_source (MapRegistry.buildContext config
                 (Some (default ∅ overrides ∪ {[ "source" := JStr "unknown" ]})))
  = MapRegistry.buildContext config
      (Some (default ∅ overrides ∪ {[ "source" := JStr "unknown" ]})) →
  execute config (MapRegistry.as_store commands owners) id params overrides
  = MapRegistry.execute config commands id params overrides.
Proof.
  intros Hid Henabled Hsync.
  unfold execute, MapRegistry.execute, get, MapRegistry.as_store.
  cbn [CommandRegistry.commands]. rewrite (obj_get_plain _ _ Hid), map_get_list_to_map.
  unfold MapRegistry.get in Henabled.
  destruct (MapRegistry.map_get commands id) as [command|]; [|done].
  cbn [fmap option_fmap option_map].
  destruct (when_rejected config command) as [[|]|]; [done| |done].
  destruct (call_contextProvider config); [|done].
  cbn [from_option] in Henabled. rewrite Henabled. cbv zeta.
  unfold execute_context, buildContext.
  change (merge_context config
            (Some (default ∅ overrides ∪ {[ "source" := JStr "unknown" ]})))
    with (MapRegistry.buildContext config
            (Some (default ∅ overrides ∪ {[ "source" := JStr "unknown" ]}))).
  by rewrite Hsync.
Qed.

Lemma registries_execute_agree_witness :
  execute (withMiddleware [errorBoundaryMiddleware])
    (MapRegistry.as_store [("test.boom", makeCommand "test.boom" boom)] ∅)
    "test.boom" JUndefined (Some (surface_overrides "ai"))
  = MapRegistry.execute (withMiddleware [errorBoundaryMiddleware])
      [("test.boom", makeCommand "test.boom" boom)]
      "test.boom" JUndefined (Some (surface_overrides "ai")).
Proof.
  apply (registries_execute_agree (withMiddleware [errorBoundaryMiddleware])
           [("test.boom", makeCommand "test.boom" boom)] ∅ "test.boom" JUndefined
           (Some (surface_overrides "ai"))).
  - reflexivity.
  - reflexivity.
  - reflexivity.
Defined.

(** Under the id ['toString'], which neither holds, the registry over a
    [Map] returns the unknown-command failure and the registry over the
    store runs into the missing handler. *)
Example registries_execute_differ :
  MapRegistry.execute noConfig [] "toString" JUndefined None
  = Some (Ok (unknown_command "toString"), [])
  ∧ execute noConfig (MapRegistry.as_store [] ∅) "toString" JUndefined None
    = Some (Ok (failed "toString" "command.execute is not a function"), []).
Proof. split; reflexivity. Qed.
